(** * Volcano: enqueue action, controllers and queue webhooks

    A shallow embedding of parts of the volcano batch scheduler:
    - [Enqueue]: pkg/scheduler/actions/enqueue/enqueue.go
    - [JobController]: pkg/controllers/job/job_controller.go (processNextReq)
    - [GarbageCollector]: pkg/controllers/garbagecollector/garbagecollector.go
    - [Webhooks]: the queue admission handlers
    - [Allocate]: the allocate action
    - [PodGroupController]: pkg/controllers/podgroup/pg_controller_handler.go.

    Go [float64] quantities are read as exact rationals ([Q]); Go maps are
    [gmap]s; objects reached through pointers live in explicit stores. *)

From Stdlib Require Import QArith Lqa.
From stdpp Require Import gmap strings list fin_maps.

Local Open Scope Q_scope.
Local Open Scope nat_scope.
Local Open Scope stdpp_scope.

(** ** Pieces of the scheduler that enqueue.go imports *)

(** [api.Resource] (pkg/scheduler/api) as enqueue.go uses it.  The package is
    not among the sources, so the type is an interface here, with the laws
    the spec gives it: "a vector of named scalars ... All arithmetic is
    dimension-wise".  [quantity r d] reads dimension [d] of [r]; [Clone] is
    the identity on values; [res_Sub a b] is only specified where [b] fits
    into [a] ("Sub(Add(x, y), y) == x dimension-wise where defined");
    nothing is asked of [res_IsEmpty]. *)
Class ResourceOps := {
  Resource : Type;
  ResourceList : Type;
  quantity : Resource → string → Q;
  EmptyResource : Resource;
  NewResource : ResourceList → Resource;
  res_Add : Resource → Resource → Resource;
  res_Sub : Resource → Resource → Resource;
  res_Multi : Resource → Q → Resource;
  res_LessEqual : Resource → Resource → bool;
  res_IsEmpty : Resource → bool;
  quantity_Empty d : (quantity EmptyResource d == 0)%Q;
  quantity_Add a b d : (quantity (res_Add a b) d == quantity a d + quantity b d)%Q;
  quantity_Multi a f d : (quantity (res_Multi a f) d == quantity a d * f)%Q;
  LessEqual_spec a b : res_LessEqual a b = true ↔ ∀ d, (quantity a d <= quantity b d)%Q;
  quantity_Sub a b d :
    res_LessEqual b a = true →
    (quantity (res_Sub a b) d == quantity a d - quantity b d)%Q;
}.

(** [util.PriorityQueue] (pkg/scheduler/util), not among the sources either:
    "a binary-heap min-queue parameterized by an ordering function less(a, b)
    supplied at construction".  [pq_items] is the collection of elements
    currently held; which of them [pq_Pop] hands out is up to the instance
    and its [less].  [pq_Pop] of an empty queue is [None] (a nil
    interface). *)
Class PriorityQueue (A : Type) := {
  pqueue : Type;
  NewPriorityQueue : (A → A → bool) → pqueue;
  pq_Push : pqueue → A → pqueue;
  pq_Pop : pqueue → option (A * pqueue);
  pq_Empty : pqueue → bool;
  pq_items : pqueue → list A;
  pq_items_New lt : pq_items (NewPriorityQueue lt) = [];
  pq_items_Push q x : pq_items (pq_Push q x) ≡ₚ x :: pq_items q;
  pq_items_Pop q x q' : pq_Pop q = Some (x, q') → pq_items q ≡ₚ x :: pq_items q';
  pq_Pop_None q : pq_Pop q = None → pq_items q = [];
  pq_Empty_spec q : pq_Empty q = true ↔ pq_items q = [];
}.
Arguments pqueue A {_}.

(** Go's [for k, v := range m]: every entry once, in an order the runtime
    picks. *)
Class MapRange := {
  range : ∀ {V}, gmap string V → list (string * V);
  range_perm V (m : gmap string V) : range m ≡ₚ map_to_list m;
}.

(** Sum of rationals over a list. *)
Definition Qsum {A} (f : A → Q) (l : list A) : Q :=
  foldr (λ x acc, (f x + acc)%Q) 0%Q l.

Lemma Qsum_app {A} (f : A → Q) l1 l2 :
  (Qsum f (l1 ++ l2) == Qsum f l1 + Qsum f l2)%Q.
Proof. induction l1 as [|x l1 IH]; simpl; [ring|]. rewrite IH. ring. Qed.

Lemma Qsum_perm {A} (f : A → Q) l1 l2 : l1 ≡ₚ l2 → (Qsum f l1 == Qsum f l2)%Q.
Proof.
  induction 1 as [|x l1 l2 _ IH|x y l|l1 l2 l3 _ IH1 _ IH2]; simpl.
  - reflexivity.
  - rewrite IH. reflexivity.
  - ring.
  - rewrite IH1. exact IH2.
Qed.

Lemma Qsum_ext {A} (f g : A → Q) l :
  (∀ x, x ∈ l → (f x == g x)%Q) → (Qsum f l == Qsum g l)%Q.
Proof.
  induction l as [|x l IH]; simpl; intros H; [reflexivity|].
  rewrite (H x) by left. rewrite IH; [reflexivity|].
  intros y Hy. apply H. by right.
Qed.

Lemma Qsum_fmap {A B} (g : A → B) (f : B → Q) l :
  Qsum f (g <$> l) = Qsum (f ∘ g) l.
Proof. induction l as [|x l IH]; csimpl; [done|]. by rewrite IH. Qed.

Lemma Qsum_filter {A} (P : A → Prop) `{∀ x, Decision (P x)} (f : A → Q) l :
  (Qsum f (filter P l) == Qsum (λ x, if decide (P x) then f x else 0) l)%Q.
Proof.
  induction l as [|x l IH]; simpl; [reflexivity|].
  rewrite filter_cons. destruct (decide (P x)); simpl; rewrite IH; ring.
Qed.

(** Induction over the elements a [foldl] has consumed so far. *)
Lemma foldl_prefix_ind {A B} (f : B → A → B) (P : list A → B → Prop) b l :
  P [] b →
  (∀ pre x suf acc, l = pre ++ x :: suf → P pre acc → P (pre ++ [x]) (f acc x)) →
  P l (foldl f b l).
Proof.
  intros H0 Hstep.
  cut (∀ suf pre acc, l = pre ++ suf → P pre acc → P (pre ++ suf) (foldl f acc suf)).
  { intros H. apply (H l [] b); done. }
  induction suf as [|x suf IH]; intros pre acc Hl HP; simpl.
  - by rewrite app_nil_r.
  - replace (pre ++ x :: suf) with ((pre ++ [x]) ++ suf) by by rewrite <- app_assoc.
    apply IH; [by rewrite <- app_assoc|]. by apply (Hstep pre x suf).
Qed.

(** ** Instances used to run the model *)

(** Modelled from the spec: the Resource vector of pkg/scheduler/api, which
    is not among the sources: named scalars, a missing dimension reads as
    zero, arithmetic is dimension-wise; a resource is empty when no dimension
    holds a positive amount. *)
Abbreviation QResource := (gmap string Q).

Definition qr_quantity (r : QResource) (d : string) : Q := default 0%Q (r !! d).

Definition qr_Add (a b : QResource) : QResource :=
  union_with (λ x y, Some (x + y)%Q) a b.

(** Subtraction is meant where the subtrahend fits ("where defined"); there
    it is dimension-wise.  Elsewhere the value below is an arbitrary choice
    that no statement and no run of this file relies on. *)
Definition qr_Sub (a b : QResource) : QResource :=
  merge (λ x y, match x, y with
                | None, None => None
                | _, _ => Some (default 0%Q x - default 0%Q y)%Q
                end) a b.

Definition qr_Multi (a : QResource) (f : Q) : QResource := (λ x, (x * f)%Q) <$> a.

Definition qr_LessEqual (a b : QResource) : bool :=
  forallb (λ d, Qle_bool (qr_quantity a d) (qr_quantity b d))
          (elements (dom a ∪ dom b)).

Definition qr_IsEmpty (a : QResource) : bool :=
  forallb (λ e : string * Q, Qle_bool e.2 0%Q) (map_to_list a).

Lemma qr_quantity_Add a b d :
  (qr_quantity (qr_Add a b) d == qr_quantity a d + qr_quantity b d)%Q.
Proof.
  unfold qr_quantity, qr_Add. rewrite lookup_union_with.
  destruct (a !! d), (b !! d); simpl; ring.
Qed.

Lemma qr_quantity_Sub a b d :
  (qr_quantity (qr_Sub a b) d == qr_quantity a d - qr_quantity b d)%Q.
Proof.
  unfold qr_quantity, qr_Sub. rewrite lookup_merge.
  destruct (a !! d), (b !! d); simpl; ring.
Qed.

Lemma qr_quantity_Multi a f d :
  (qr_quantity (qr_Multi a f) d == qr_quantity a d * f)%Q.
Proof.
  unfold qr_quantity, qr_Multi. rewrite lookup_fmap.
  destruct (a !! d); simpl; ring.
Qed.

Lemma qr_LessEqual_spec a b :
  qr_LessEqual a b = true ↔ ∀ d, (qr_quantity a d <= qr_quantity b d)%Q.
Proof.
  unfold qr_LessEqual. rewrite forallb_forall. split.
  - intros H d. destruct (decide (d ∈ dom a ∪ dom b)) as [Hin|Hout].
    + apply Qle_bool_iff, H, list_elem_of_In, elem_of_elements, Hin.
    + apply not_elem_of_union in Hout as [Ha Hb].
      apply not_elem_of_dom in Ha, Hb. unfold qr_quantity.
      rewrite Ha, Hb. simpl. apply Qle_refl.
  - intros H d _. apply Qle_bool_iff, H.
Qed.

#[export] Instance QResourceOps : ResourceOps := {|
  Resource := QResource;
  ResourceList := QResource;
  quantity := qr_quantity;
  EmptyResource := ∅;
  NewResource := λ rl, rl;
  res_Add := qr_Add;
  res_Sub := qr_Sub;
  res_Multi := qr_Multi;
  res_LessEqual := qr_LessEqual;
  res_IsEmpty := qr_IsEmpty;
  quantity_Empty := λ d, Qeq_refl 0%Q;
  quantity_Add := qr_quantity_Add;
  quantity_Multi := qr_quantity_Multi;
  LessEqual_spec := qr_LessEqual_spec;
  quantity_Sub := λ a b d _, qr_quantity_Sub a b d;
|}.

(** Modelled from the spec: the priority queue of pkg/scheduler/util, which
    is not among the sources; kept as a list in which [pq_Push] puts the new
    element in front of the first one it is [less] than, so that [pq_Pop]
    hands out a least element. *)
Record ListQueue (A : Type) := {
  lq_less : A → A → bool;
  lq_items : list A;
}.
Arguments lq_less {A} _.
Arguments lq_items {A} _.

Fixpoint lq_insert {A} (less : A → A → bool) (x : A) (l : list A) : list A :=
  match l with
  | [] => [x]
  | y :: l' => if less x y then x :: y :: l' else y :: lq_insert less x l'
  end.

Definition lq_Push {A} (q : ListQueue A) (x : A) : ListQueue A :=
  {| lq_less := lq_less q; lq_items := lq_insert (lq_less q) x (lq_items q) |}.

Definition lq_Pop {A} (q : ListQueue A) : option (A * ListQueue A) :=
  match lq_items q with
  | [] => None
  | x :: l => Some (x, {| lq_less := lq_less q; lq_items := l |})
  end.

Definition lq_Empty {A} (q : ListQueue A) : bool :=
  match lq_items q with [] => true | _ => false end.

Lemma lq_insert_perm {A} (less : A → A → bool) x l : lq_insert less x l ≡ₚ x :: l.
Proof.
  induction l as [|y l IH]; simpl; [done|].
  destruct (less x y); [done|]. rewrite IH. apply perm_swap.
Qed.

Lemma lq_Pop_items {A} (q : ListQueue A) x q' :
  lq_Pop q = Some (x, q') → lq_items q ≡ₚ x :: lq_items q'.
Proof.
  unfold lq_Pop. destruct (lq_items q) as [|y l] eqn:E; [done|].
  intros [= <- <-]. done.
Qed.

Lemma lq_Pop_None {A} (q : ListQueue A) : lq_Pop q = None → lq_items q = [].
Proof. unfold lq_Pop. by destruct (lq_items q). Qed.

Lemma lq_Empty_spec {A} (q : ListQueue A) : lq_Empty q = true ↔ lq_items q = [].
Proof. unfold lq_Empty. by destruct (lq_items q). Qed.

#[export] Instance ListPriorityQueue (A : Type) : PriorityQueue A := {|
  pqueue := ListQueue A;
  NewPriorityQueue := λ less, {| lq_less := less; lq_items := [] |};
  pq_Push := lq_Push;
  pq_Pop := lq_Pop;
  pq_Empty := lq_Empty;
  pq_items := lq_items;
  pq_items_New := λ _, eq_refl;
  pq_items_Push := λ q x, lq_insert_perm (lq_less q) x (lq_items q);
  pq_items_Pop := lq_Pop_items;
  pq_Pop_None := lq_Pop_None;
  pq_Empty_spec := lq_Empty_spec;
|}.

(** A runtime that ranges over a map in the order of [map_to_list]. *)
#[export] Instance ListMapRange : MapRange := {|
  range := λ V m, map_to_list m;
  range_perm := λ V m, reflexivity (map_to_list m);
|}.

Module Enqueue.

Definition QueueID := string.
Definition JobID := string.

(** scheduling.PodGroupPhase and scheduling.QueueState are Go string types. *)
Definition PodGroupPhase := string.
Definition PodGroupPending : PodGroupPhase := "Pending".
Definition PodGroupRunning : PodGroupPhase := "Running".
Definition PodGroupUnknown : PodGroupPhase := "Unknown".
Definition PodGroupInqueue : PodGroupPhase := "Inqueue".

Definition QueueState := string.
Definition QueueStateOpen : QueueState := "Open".
Definition QueueStateClosed : QueueState := "Closed".

(** framework.Arguments and conf.Configuration *)
Record Configuration := {
  conf_Name : string;
  conf_Arguments : gmap string string;
}.

(** api.QueueInfo *)
Record QueueInfo := {
  queue_UID : QueueID;
  queue_Name : string;
  queue_Weight : Z;
  queue_State : QueueState;
}.

Section Execute.
Context {RO : ResourceOps}.

(** api.JobInfo, with the fields of its PodGroup that the action reads:
    [job_MinResources] is [PodGroup.Spec.MinResources] (a pointer, [None] for
    nil) and [job_Phase] is [PodGroup.Status.Phase]. *)
Record JobInfo := {
  job_UID : JobID;
  job_Name : string;
  job_Namespace : string;
  job_Queue : QueueID;
  job_Priority : Z;
  job_MinResources : option ResourceList;
  job_Phase : PodGroupPhase;
}.

(** api.NodeInfo *)
Record NodeInfo := {
  node_Name : string;
  node_Allocatable : Resource;
  node_Used : Resource;
}.

(** framework.Session.  [ssn_Jobs] is Go's [map[JobID]*JobInfo]: each key
    holds a pointer to a job object of its own.  The three functions are the
    session's composed plugin callbacks. *)
Record Session := {
  ssn_Jobs : gmap JobID JobInfo;
  ssn_Queues : gmap QueueID QueueInfo;
  ssn_Nodes : gmap string NodeInfo;
  ssn_Configurations : list Configuration;
  QueueOrderFn : QueueInfo → QueueInfo → bool;
  JobOrderFn : JobInfo → JobInfo → bool;
  JobEnqueueable : JobInfo → bool;
}.

(** A [*JobInfo]: the key under which the session holds the object, with the
    object's contents as they were when the pointer was taken. *)
Definition JobRef : Type := JobID * JobInfo.

Context {PQq : PriorityQueue QueueInfo} {PQj : PriorityQueue JobRef}.
Context {MR : MapRange}.
(** strconv.ParseFloat(s, 64), [None] on a syntax error. *)
Context (ParseFloat : string → option Q).

Definition overCommitFactor : string := "overcommit-factor".
Definition defaultOverCommitFactor : Q := 12 # 10.
Definition Name : string := "enqueue".

(** Modelled from the spec: framework.GetArgOfActionFromConf, which is not
    among the sources; the arguments configured for the named action, nil
    when there are none. *)
Fixpoint GetArgOfActionFromConf (configurations : list Configuration)
    (actionName : string) : option (gmap string string) :=
  match configurations with
  | [] => None
  | c :: rest =>
      if decide (conf_Name c = actionName) then Some (conf_Arguments c)
      else GetArgOfActionFromConf rest actionName
  end.

(** Modelled from the spec: framework.Arguments.GetFloat64, which is not
    among the sources; overwrites [ptr] when [key] is present and parses. *)
Definition GetFloat64 (a : gmap string string) (ptr : Q) (key : string) : Q :=
  match a !! key with
  | None => ptr
  | Some argv =>
      match ParseFloat argv with
      | None => ptr
      | Some value => value
      end
  end.

Definition getOverCommitFactor (ssn : Session) : Q :=
  let factor := defaultOverCommitFactor in
  match GetArgOfActionFromConf (ssn_Configurations ssn) Name with
  | Some arg => GetFloat64 arg factor overCommitFactor
  | None => factor
  end.

(** One pass of the admission loop over a popped job, kept as history. *)
Record PopEvent := {
  ev_key : JobID;
  ev_job : JobInfo;
  ev_idle : Resource;
  ev_inqueue : bool;
  ev_idle_after : Resource;
}.

(** The local variables of [Execute] and the part of the session it writes.
    [st_objs] holds the job objects, addressed by the key the session had
    them under at entry; [st_index] is [ssn.Jobs] as a map from key to
    address; [st_trace] is history only (latest pop first) and is never
    read by the code. *)
Record LoopState := {
  st_queues : pqueue QueueInfo;
  st_jobsMap : gmap QueueID (pqueue JobRef);
  st_idle : Resource;
  st_objs : gmap JobID JobInfo;
  st_index : gmap JobID JobID;
  st_trace : list PopEvent;
}.

Definition set_Phase (p : PodGroupPhase) (job : JobInfo) : JobInfo :=
  {| job_UID := job_UID job; job_Name := job_Name job;
     job_Namespace := job_Namespace job; job_Queue := job_Queue job;
     job_Priority := job_Priority job;
     job_MinResources := job_MinResources job; job_Phase := p |}.

Definition job_less (ssn : Session) (a b : JobRef) : bool :=
  JobOrderFn ssn a.2 b.2.

(** Lines 63-85: the body of the loop over [ssn.Jobs]. *)
Definition collect_job (ssn : Session)
    (acc : pqueue QueueInfo * gmap QueueID QueueInfo * gmap QueueID (pqueue JobRef))
    (entry : JobID * JobInfo)
    : pqueue QueueInfo * gmap QueueID QueueInfo * gmap QueueID (pqueue JobRef) :=
  let '(queues, queueMap, jobsMap) := acc in
  let '(key, job) := entry in
  match ssn_Queues ssn !! job_Queue job with
  | None => acc
  | Some queue =>
      let '(queues, queueMap) :=
        match queueMap !! queue_UID queue with
        | None => (pq_Push queues queue, <[queue_UID queue := queue]> queueMap)
        | Some _ => (queues, queueMap)
        end in
      let jobsMap :=
        if decide (job_Phase job = PodGroupPending) then
          let jobs := default (NewPriorityQueue (job_less ssn))
                              (jobsMap !! job_Queue job) in
          <[job_Queue job := pq_Push jobs (key, job)]> jobsMap
        else jobsMap in
      (queues, queueMap, jobsMap)
  end.

Definition collect_jobs (ssn : Session) (entries : list (JobID * JobInfo)) :=
  foldl (collect_job ssn) (NewPriorityQueue (QueueOrderFn ssn), ∅, ∅) entries.

(** Lines 89-94. *)
Definition sum_nodes (nodes : list (string * NodeInfo)) : Resource * Resource :=
  foldl (λ '(total, used) '(_, node),
           (res_Add total (node_Allocatable node), res_Add used (node_Used node)))
        (EmptyResource, EmptyResource) nodes.

Definition initial_idle (ssn : Session) : Resource :=
  let '(total, used) := sum_nodes (range (ssn_Nodes ssn)) in
  res_Sub (res_Multi total (getOverCommitFactor ssn)) used.

Definition initial_state (ssn : Session) : LoopState :=
  let '(queues, _, jobsMap) := collect_jobs ssn (range (ssn_Jobs ssn)) in
  {| st_queues := queues; st_jobsMap := jobsMap;
     st_idle := initial_idle ssn;
     st_objs := ssn_Jobs ssn;
     st_index := map_imap (λ k _, Some k) (ssn_Jobs ssn);
     st_trace := [] |}.

(** Lines 116-126: the admission test. *)
Definition admission (ssn : Session) (job : JobInfo) (idle : Resource) : bool * Resource :=
  match job_MinResources job with
  | None => (true, idle)
  | Some rl =>
      let minReq := NewResource rl in
      if JobEnqueueable ssn job && res_LessEqual minReq idle
      then (true, res_Sub idle minReq)
      else (false, idle)
  end.

(** What one pass through the body of the [for] loop (lines 97-135) does:
    [Break] leaves the loop, [Continue] re-enters it (after a [continue] or
    at the end of the body), [Panic] is a failed type assertion on the nil
    that [Pop] returns for an empty queue. *)
Inductive step :=
  | Break
  | Continue (st : LoopState)
  | Panic.

Definition body (ssn : Session) (st : LoopState) : step :=
  if pq_Empty (st_queues st) then Break
  else if res_IsEmpty (st_idle st) then Break
  else
    match pq_Pop (st_queues st) with
    | None => Panic
    | Some (queue, queues) =>
        let skip :=
          Continue {| st_queues := queues; st_jobsMap := st_jobsMap st;
                      st_idle := st_idle st; st_objs := st_objs st;
                      st_index := st_index st; st_trace := st_trace st |} in
        match st_jobsMap st !! queue_UID queue with
        | None => skip
        | Some jobs =>
            if pq_Empty jobs then skip
            else
              match pq_Pop jobs with
              | None => Panic
              | Some ((key, job), jobs) =>
                  let '(inqueue, idle) := admission ssn job (st_idle st) in
                  let job' := set_Phase PodGroupInqueue job in
                  Continue
                    {| st_queues := pq_Push queues queue;
                       st_jobsMap := <[queue_UID queue := jobs]> (st_jobsMap st);
                       st_idle := idle;
                       st_objs := if inqueue then <[key := job']> (st_objs st)
                                  else st_objs st;
                       st_index := if inqueue then <[job_UID job := key]> (st_index st)
                                   else st_index st;
                       st_trace :=
                         {| ev_key := key; ev_job := job;
                            ev_idle := st_idle st; ev_inqueue := inqueue;
                            ev_idle_after := idle |} :: st_trace st |}
              end
        end
    end.

Inductive outcome :=
  | Returned (st : LoopState)
  | Panicked
  | OutOfFuel.

Fixpoint loop (ssn : Session) (fuel : nat) (st : LoopState) : outcome :=
  match fuel with
  | O => OutOfFuel
  | S fuel =>
      match body ssn st with
      | Break => Returned st
      | Continue st' => loop ssn fuel st'
      | Panic => Panicked
      end
  end.

(** [Execute]: each job of the session puts at most one queue and one job
    reference into the heaps, and every pass of the loop that does not leave
    it takes one of them out for good, so this much fuel is never used up
    (see [Execute_returns]). *)
Definition Execute (ssn : Session) : outcome :=
  loop ssn (S (2 * size (ssn_Jobs ssn))) (initial_state ssn).

(** [ssn.Jobs] after the pass: each key with the object it points to. *)
Definition jobs_after (st : LoopState) : gmap JobID JobInfo :=
  omap (λ addr, st_objs st !! addr) (st_index st).

(** *** What the statements below speak about *)

(** Number of job references held by the per-queue heaps. *)
Definition heap_total (jobsMap : gmap QueueID (pqueue JobRef)) : nat :=
  map_fold (λ _ jobs n, length (pq_items jobs) + n) 0 jobsMap.

(** Number of heap entries left to the loop. *)
Definition measure (st : LoopState) : nat :=
  length (pq_items (st_queues st)) + heap_total (st_jobsMap st).

(** The idle resource threads through the history: each event starts from
    what the one before it left. *)
Fixpoint trace_chain (idle0 : Resource) (trace : list PopEvent) (idle : Resource) : Prop :=
  match trace with
  | [] => idle = idle0
  | ev :: trace' => ev_idle_after ev = idle ∧ trace_chain idle0 trace' (ev_idle ev)
  end.

(** The keys of the jobs popped so far. *)
Definition popped (st : LoopState) : list JobID := ev_key <$> st_trace st.

Record Inv (ssn : Session) (st : LoopState) : Prop := {
  inv_heap q jobs key job :
    st_jobsMap st !! q = Some jobs → (key, job) ∈ pq_items jobs →
    ssn_Jobs ssn !! key = Some job ∧ job_Queue job = q ∧
    job_Phase job = PodGroupPending ∧ key ∉ popped st;
  inv_heap_NoDup q jobs :
    st_jobsMap st !! q = Some jobs → NoDup (pq_items jobs).*1;
  inv_trace_NoDup : NoDup (popped st);
  inv_trace ev :
    ev ∈ st_trace st →
    ssn_Jobs ssn !! ev_key ev = Some (ev_job ev) ∧
    job_Phase (ev_job ev) = PodGroupPending ∧
    admission ssn (ev_job ev) (ev_idle ev) = (ev_inqueue ev, ev_idle_after ev) ∧
    st_objs st !! ev_key ev =
      Some (if ev_inqueue ev then set_Phase PodGroupInqueue (ev_job ev) else ev_job ev);
  inv_untouched key : key ∉ popped st → st_objs st !! key = ssn_Jobs ssn !! key;
  inv_chain : trace_chain (initial_idle ssn) (st_trace st) (st_idle st);
}.

(** The jobs the pass moved from Pending to Inqueue. *)
Definition moved (ssn : Session) (st : LoopState) : list (JobID * JobInfo) :=
  filter (λ e : JobID * JobInfo,
            job_Phase e.2 = PodGroupPending ∧
            job_Phase <$> st_objs st !! e.1 = Some PodGroupInqueue)
         (map_to_list (ssn_Jobs ssn)).

(** Dimension [d] of a job's MinResources, zero when it is nil. *)
Definition min_quantity (d : string) (job : JobInfo) : Q :=
  match job_MinResources job with
  | None => 0%Q
  | Some rl => quantity (NewResource rl) d
  end.

Definition total_allocatable (ssn : Session) (d : string) : Q :=
  Qsum (λ e : string * NodeInfo, quantity (node_Allocatable e.2) d)
       (map_to_list (ssn_Nodes ssn)).

Definition total_used (ssn : Session) (d : string) : Q :=
  Qsum (λ e : string * NodeInfo, quantity (node_Used e.2) d)
       (map_to_list (ssn_Nodes ssn)).

(** *** The heaps *)

Lemma heap_total_insert_None (m : gmap QueueID (pqueue JobRef)) u jobs :
  m !! u = None → heap_total (<[u := jobs]> m) = length (pq_items jobs) + heap_total m.
Proof.
  intros Hu. unfold heap_total.
  rewrite map_fold_insert_L; [done| |done]. intros; lia.
Qed.

Lemma heap_total_delete (m : gmap QueueID (pqueue JobRef)) u jobs :
  m !! u = Some jobs → heap_total m = length (pq_items jobs) + heap_total (delete u m).
Proof.
  intros Hu. unfold heap_total.
  rewrite (map_fold_delete_L _ _ u jobs m); [done| |done]. intros; lia.
Qed.

Lemma heap_total_insert_Some (m : gmap QueueID (pqueue JobRef)) u old jobs :
  m !! u = Some old →
  heap_total (<[u := jobs]> m) + length (pq_items old)
  = length (pq_items jobs) + heap_total m.
Proof.
  intros Hu. rewrite (heap_total_delete m u old Hu).
  rewrite <- (insert_delete_eq m u jobs).
  rewrite heap_total_insert_None by apply lookup_delete_eq. lia.
Qed.

Lemma pq_nonempty_Pop {A} `{PriorityQueue A} (q : pqueue A) :
  pq_Empty q = false → ∃ x q', pq_Pop q = Some (x, q').
Proof.
  intros He. destruct (pq_Pop q) as [[x q']|] eqn:Hp; [eauto|].
  apply pq_Pop_None, pq_Empty_spec in Hp. congruence.
Qed.

Lemma pq_Pop_length {A} `{PriorityQueue A} (q : pqueue A) x q' :
  pq_Pop q = Some (x, q') → length (pq_items q) = S (length (pq_items q')).
Proof. intros Hp. by rewrite (pq_items_Pop _ _ _ Hp). Qed.

Lemma pq_Push_length {A} `{PriorityQueue A} (q : pqueue A) x :
  length (pq_items (pq_Push q x)) = S (length (pq_items q)).
Proof. by rewrite pq_items_Push. Qed.

(** *** Lines 63-85: what the heaps hold when the loop starts *)

Definition collect_ok (pre : list (JobID * JobInfo))
    (acc : pqueue QueueInfo * gmap QueueID QueueInfo * gmap QueueID (pqueue JobRef)) : Prop :=
  (∀ q jobs key job,
      acc.2 !! q = Some jobs → (key, job) ∈ pq_items jobs →
      (key, job) ∈ pre ∧ job_Queue job = q ∧ job_Phase job = PodGroupPending) ∧
  (∀ q jobs, acc.2 !! q = Some jobs → NoDup (pq_items jobs).*1) ∧
  length (pq_items acc.1.1) + heap_total acc.2 ≤ 2 * length pre.

Lemma collect_job_ok ssn pre entry suf acc :
  NoDup (pre ++ entry :: suf).*1 →
  collect_ok pre acc → collect_ok (pre ++ [entry]) (collect_job ssn acc entry).
Proof.
  intros Hnd (Hin & Hdup & Hlen).
  destruct acc as [[queues queueMap] jobsMap], entry as [key job].
  unfold collect_ok, collect_job in *. simpl in *.
  rewrite length_app; simpl.
  destruct (ssn_Queues ssn !! job_Queue job) as [queue|]; simpl.
  2:{ split_and!; [|done|lia].
      intros q jobs k j Hq Hk. destruct (Hin q jobs k j Hq Hk) as (?&?&?).
      split_and!; [|done..]. apply elem_of_app. by left. }
  assert (Hlen' :
    length (pq_items (match queueMap !! queue_UID queue with
                      | None => (pq_Push queues queue, <[queue_UID queue:=queue]> queueMap)
                      | Some _ => (queues, queueMap) end).1)
    ≤ S (length (pq_items queues))).
  { destruct (queueMap !! queue_UID queue); simpl; [lia|].
    rewrite pq_Push_length. lia. }
  destruct (match queueMap !! queue_UID queue with
            | None => (pq_Push queues queue, <[queue_UID queue:=queue]> queueMap)
            | Some _ => (queues, queueMap) end) as [queues' queueMap'].
  simpl in *.
  destruct (decide (job_Phase job = PodGroupPending)) as [Hph|Hph]; simpl.
  2:{ split_and!; [|done|lia].
      intros q jobs k j Hq Hk. destruct (Hin q jobs k j Hq Hk) as (?&?&?).
      split_and!; [|done..]. apply elem_of_app. by left. }
  assert (Hfresh : ∀ jobs j, jobsMap !! job_Queue job = Some jobs →
                             (key, j) ∉ pq_items jobs).
  { intros jobs j Hq Hk. destruct (Hin _ _ _ _ Hq Hk) as (Hpre & _ & _).
    rewrite fmap_app in Hnd. apply NoDup_app in Hnd as (_ & Hnd & _).
    apply (Hnd key).
    - apply list_elem_of_fmap. by exists (key, j).
    - simpl. left. }
  split_and!.
  - intros q jobs k j Hq Hk.
    destruct (decide (job_Queue job = q)) as [<-|Hne].
    + rewrite lookup_insert_eq in Hq. injection Hq as <-.
      rewrite pq_items_Push in Hk. apply elem_of_cons in Hk as [[= -> ->]|Hk].
      * split_and!; [|done..]. apply elem_of_app. right. left.
      * destruct (jobsMap !! job_Queue job) as [jobs0|] eqn:Hj; simpl in Hk.
        -- destruct (Hin _ _ _ _ Hj Hk) as (?&?&?).
           split_and!; [|done..]. apply elem_of_app. by left.
        -- rewrite pq_items_New in Hk. by apply elem_of_nil in Hk.
    + rewrite lookup_insert_ne in Hq by done.
      destruct (Hin q jobs k j Hq Hk) as (?&?&?).
      split_and!; [|done..]. apply elem_of_app. by left.
  - intros q jobs Hq.
    destruct (decide (job_Queue job = q)) as [<-|Hne].
    + rewrite lookup_insert_eq in Hq. injection Hq as <-.
      rewrite pq_items_Push. csimpl. apply NoDup_cons. split.
      * intros Hk. apply list_elem_of_fmap in Hk as ([k j] & Hk1 & Hk2).
        simpl in Hk1. subst k.
        destruct (jobsMap !! job_Queue job) as [jobs0|] eqn:Hj; simpl in Hk2.
        -- by apply (Hfresh jobs0 j).
        -- rewrite pq_items_New in Hk2. by apply elem_of_nil in Hk2.
      * destruct (jobsMap !! job_Queue job) as [jobs0|] eqn:Hj; simpl.
        -- by apply (Hdup (job_Queue job)).
        -- rewrite pq_items_New. constructor.
    + rewrite lookup_insert_ne in Hq by done. by apply (Hdup q).
  - destruct (jobsMap !! job_Queue job) as [jobs0|] eqn:Hj; simpl.
    + pose proof (heap_total_insert_Some jobsMap _ jobs0
                    (pq_Push jobs0 (key, job)) Hj) as Ht.
      rewrite pq_Push_length in Ht. lia.
    + rewrite heap_total_insert_None by done.
      rewrite pq_Push_length, pq_items_New. simpl. lia.
Qed.

Lemma collect_jobs_ok ssn entries :
  NoDup entries.*1 → collect_ok entries (collect_jobs ssn entries).
Proof.
  intros Hnd. unfold collect_jobs.
  apply (foldl_prefix_ind (collect_job ssn) collect_ok).
  - unfold collect_ok; simpl. split_and!.
    + intros q jobs key job Hq. by rewrite lookup_empty in Hq.
    + intros q jobs Hq. by rewrite lookup_empty in Hq.
    + rewrite pq_items_New. unfold heap_total. rewrite map_fold_empty. simpl. lia.
  - intros pre x suf acc -> Hacc. by apply (collect_job_ok ssn pre x suf).
Qed.

Lemma range_Jobs_NoDup (m : gmap JobID JobInfo) : NoDup (range m).*1.
Proof. rewrite range_perm. apply NoDup_fst_map_to_list. Qed.

Lemma range_Jobs_lookup (m : gmap JobID JobInfo) key job :
  (key, job) ∈ range m ↔ m !! key = Some job.
Proof. rewrite range_perm. apply elem_of_map_to_list. Qed.

(** *** The loop *)

Lemma body_no_Panic ssn st : body ssn st ≠ Panic.
Proof.
  unfold body.
  destruct (pq_Empty (st_queues st)) eqn:Hq; [done|].
  destruct (res_IsEmpty (st_idle st)); [done|].
  destruct (pq_nonempty_Pop _ Hq) as (queue & queues & ->).
  destruct (st_jobsMap st !! queue_UID queue) as [jobs|]; [|done].
  destruct (pq_Empty jobs) eqn:Hj; [done|].
  destruct (pq_nonempty_Pop _ Hj) as ([key job] & jobs' & ->).
  by destruct (admission ssn job (st_idle st)).
Qed.

Lemma body_measure ssn st st' :
  body ssn st = Continue st' → measure st = S (measure st').
Proof.
  unfold body, measure.
  destruct (pq_Empty (st_queues st)); [done|].
  destruct (res_IsEmpty (st_idle st)); [done|].
  destruct (pq_Pop (st_queues st)) as [[queue queues]|] eqn:Hq; [|done].
  apply pq_Pop_length in Hq.
  destruct (st_jobsMap st !! queue_UID queue) as [jobs|] eqn:Hm.
  2:{ intros [= <-]; simpl. lia. }
  destruct (pq_Empty jobs).
  { intros [= <-]; simpl. lia. }
  destruct (pq_Pop jobs) as [[[key job] jobs']|] eqn:Hj; [|done].
  apply pq_Pop_length in Hj.
  destruct (admission ssn job (st_idle st)) as [inqueue idle].
  intros [= <-]; simpl.
  pose proof (heap_total_insert_Some _ _ jobs jobs' Hm) as Ht.
  rewrite pq_Push_length. unfold JobRef in *. lia.
Qed.

Lemma body_Inv ssn st st' :
  Inv ssn st → body ssn st = Continue st' → Inv ssn st'.
Proof.
  intros HI. unfold body.
  destruct (pq_Empty (st_queues st)); [done|].
  destruct (res_IsEmpty (st_idle st)); [done|].
  destruct (pq_Pop (st_queues st)) as [[queue queues]|]; [|done].
  assert (Hskip : Inv ssn {| st_queues := queues; st_jobsMap := st_jobsMap st;
                             st_idle := st_idle st; st_objs := st_objs st;
                             st_index := st_index st; st_trace := st_trace st |}).
  { by destruct HI. }
  destruct (st_jobsMap st !! queue_UID queue) as [jobs|] eqn:Hm.
  2:{ by intros [= <-]. }
  destruct (pq_Empty jobs).
  { by intros [= <-]. }
  destruct (pq_Pop jobs) as [[[key job] jobs']|] eqn:Hj; [|done].
  apply pq_items_Pop in Hj.
  destruct (admission ssn job (st_idle st)) as [inqueue idle] eqn:Hadm.
  intros [= <-].
  destruct (inv_heap _ _ HI _ _ key job Hm) as (Hkey & Hqueue & Hphase & Hfresh).
  { rewrite Hj. left. }
  pose proof (inv_heap_NoDup _ _ HI _ _ Hm) as Hnd.
  rewrite Hj in Hnd. csimpl in Hnd. apply NoDup_cons in Hnd as [Hkey' Hnd'].
  assert (Hother : ∀ q jobs0 k j,
            <[queue_UID queue := jobs']> (st_jobsMap st) !! q = Some jobs0 →
            (k, j) ∈ pq_items jobs0 →
            k ≠ key ∧ ∃ jobs1, st_jobsMap st !! q = Some jobs1 ∧ (k, j) ∈ pq_items jobs1).
  { intros q jobs0 k j Hq Hk.
    destruct (decide (queue_UID queue = q)) as [<-|Hne].
    - rewrite lookup_insert_eq in Hq. injection Hq as <-. split.
      + intros ->. apply Hkey'. apply list_elem_of_fmap. by exists (key, j).
      + exists jobs. split; [done|]. rewrite Hj. by right.
    - rewrite lookup_insert_ne in Hq by done. split; [|eauto].
      intros ->. destruct (inv_heap _ _ HI _ _ _ _ Hq Hk) as (Hk' & Hq' & _).
      rewrite Hkey in Hk'. injection Hk' as <-. congruence. }
  split; simpl; unfold popped; simpl.
  - intros q jobs0 k j Hq Hk.
    destruct (Hother _ _ _ _ Hq Hk) as (Hne & jobs1 & Hq1 & Hk1).
    destruct (inv_heap _ _ HI _ _ _ _ Hq1 Hk1) as (?&?&?&?).
    split_and!; [done..|]. rewrite not_elem_of_cons. done.
  - intros q jobs0 Hq.
    destruct (decide (queue_UID queue = q)) as [<-|Hne].
    + rewrite lookup_insert_eq in Hq. by injection Hq as <-.
    + rewrite lookup_insert_ne in Hq by done. by apply (inv_heap_NoDup _ _ HI q).
  - apply NoDup_cons. split; [done|]. apply (inv_trace_NoDup _ _ HI).
  - intros ev Hev. apply elem_of_cons in Hev as [->|Hev]; simpl.
    + split_and!; [done..|]. destruct inqueue.
      * by rewrite lookup_insert_eq.
      * rewrite (inv_untouched _ _ HI) by done. done.
    + destruct (inv_trace _ _ HI ev Hev) as (?&?&?&Hobj).
      split_and!; [done..|].
      assert (ev_key ev ≠ key).
      { intros <-. apply Hfresh. apply list_elem_of_fmap. by exists ev. }
      destruct inqueue; [|done]. by rewrite lookup_insert_ne.
  - intros k Hk. rewrite not_elem_of_cons in Hk. destruct Hk as [Hne Hk].
    destruct inqueue.
    + rewrite lookup_insert_ne by done. by apply (inv_untouched _ _ HI).
    + by apply (inv_untouched _ _ HI).
  - split; [done|]. apply (inv_chain _ _ HI).
Qed.

Lemma initial_Inv ssn : Inv ssn (initial_state ssn).
Proof.
  unfold initial_state.
  pose proof (collect_jobs_ok ssn (range (ssn_Jobs ssn))
                (range_Jobs_NoDup _)) as (Hin & Hdup & _).
  destruct (collect_jobs ssn (range (ssn_Jobs ssn))) as [[queues queueMap] jobsMap].
  simpl in *. split; simpl; unfold popped; simpl.
  - intros q jobs key job Hq Hk. destruct (Hin _ _ _ _ Hq Hk) as (Hr & ? & ?).
    apply range_Jobs_lookup in Hr. split_and!; [done..|]. apply not_elem_of_nil.
  - done.
  - constructor.
  - intros ev Hev. by apply elem_of_nil in Hev.
  - done.
  - done.
Qed.

Lemma initial_measure ssn : measure (initial_state ssn) ≤ 2 * size (ssn_Jobs ssn).
Proof.
  unfold initial_state, measure.
  pose proof (collect_jobs_ok ssn (range (ssn_Jobs ssn))
                (range_Jobs_NoDup _)) as (_ & _ & Hlen).
  destruct (collect_jobs ssn (range (ssn_Jobs ssn))) as [[queues queueMap] jobsMap].
  simpl in *. rewrite range_perm, length_map_to_list in Hlen. done.
Qed.

Lemma loop_Inv ssn fuel st st' :
  Inv ssn st → loop ssn fuel st = Returned st' → Inv ssn st'.
Proof.
  revert st. induction fuel as [|fuel IH]; intros st HI; simpl; [done|].
  destruct (body ssn st) as [|st1|] eqn:Hb; [|by eauto using body_Inv|done].
  by intros [= <-].
Qed.

Lemma loop_returns ssn fuel st :
  measure st < fuel → ∃ st', loop ssn fuel st = Returned st'.
Proof.
  revert st. induction fuel as [|fuel IH]; intros st Hm; simpl; [lia|].
  destruct (body ssn st) as [|st1|] eqn:Hb.
  - eauto.
  - apply IH. apply body_measure in Hb. lia.
  - by apply body_no_Panic in Hb.
Qed.

(** More fuel than needed does not change the result. *)
Lemma loop_fuel_mono ssn fuel fuel' st st' :
  loop ssn fuel st = Returned st' → fuel ≤ fuel' → loop ssn fuel' st = Returned st'.
Proof.
  revert fuel' st. induction fuel as [|fuel IH]; intros fuel' st; simpl; [done|].
  destruct fuel' as [|fuel']; [lia|]. simpl.
  destruct (body ssn st); [done| |done]. intros H ?. apply IH; [done|lia].
Qed.

Lemma Execute_Inv ssn st : Execute ssn = Returned st → Inv ssn st.
Proof. apply loop_Inv, initial_Inv. Qed.

(** A reference in a heap still shows the object as it is: nothing writes
    to a job before it is popped. *)
Lemma heap_item_current ssn st q jobs key job :
  Inv ssn st → st_jobsMap st !! q = Some jobs → (key, job) ∈ pq_items jobs →
  st_objs st !! key = Some job.
Proof.
  intros HI Hq Hk. destruct (inv_heap _ _ HI _ _ _ _ Hq Hk) as (Hjob & _ & _ & Hp).
  by rewrite (inv_untouched _ _ HI key Hp).
Qed.

(** *** Lines 89-95: the idle resource the loop starts from *)

Lemma sum_nodes_quantity nodes d :
  (quantity (sum_nodes nodes).1 d
     == Qsum (λ e : string * NodeInfo, quantity (node_Allocatable e.2) d) nodes)%Q ∧
  (quantity (sum_nodes nodes).2 d
     == Qsum (λ e : string * NodeInfo, quantity (node_Used e.2) d) nodes)%Q.
Proof.
  unfold sum_nodes.
  apply (foldl_prefix_ind _
    (λ pre (acc : Resource * Resource),
       (quantity acc.1 d
          == Qsum (λ e : string * NodeInfo, quantity (node_Allocatable e.2) d) pre)%Q ∧
       (quantity acc.2 d
          == Qsum (λ e : string * NodeInfo, quantity (node_Used e.2) d) pre)%Q)).
  - simpl. split; apply quantity_Empty.
  - intros pre [name node] suf [total used] _ [Ht Hu]. simpl in *.
    rewrite !Qsum_app, !quantity_Add, Ht, Hu. simpl. split; ring.
Qed.

(** Line 95 subtracts [used] from [total * factor]; this says that the
    subtraction is one [res_Sub] is specified for. *)
Definition headroom_defined (ssn : Session) : bool :=
  let '(total, used) := sum_nodes (range (ssn_Nodes ssn)) in
  res_LessEqual used (res_Multi total (getOverCommitFactor ssn)).

Lemma initial_idle_quantity ssn d :
  headroom_defined ssn = true →
  (quantity (initial_idle ssn) d
     == getOverCommitFactor ssn * total_allocatable ssn d - total_used ssn d)%Q ∧
  (0 <= quantity (initial_idle ssn) d)%Q.
Proof.
  unfold headroom_defined, initial_idle, total_allocatable, total_used.
  pose proof (sum_nodes_quantity (range (ssn_Nodes ssn)) d) as [Ht Hu].
  destruct (sum_nodes (range (ssn_Nodes ssn))) as [total used]. simpl in *.
  intros Hle. rewrite (quantity_Sub _ _ _ Hle).
  pose proof (proj1 (LessEqual_spec _ _) Hle d) as Hd.
  rewrite quantity_Multi in *.
  rewrite <- (Qsum_perm _ _ _ (range_perm _ (ssn_Nodes ssn))).
  rewrite <- (Qsum_perm _ _ _ (range_perm _ (ssn_Nodes ssn))).
  rewrite <- Ht, <- Hu. split; [ring|lra].
Qed.

(** *** The idle resource along the history *)

Definition event_quantity (d : string) (ev : PopEvent) : Q :=
  if ev_inqueue ev then min_quantity d (ev_job ev) else 0%Q.

Lemma admission_quantity ssn job idle inqueue idle' d :
  admission ssn job idle = (inqueue, idle') →
  (quantity idle d
     == quantity idle' d + (if inqueue then min_quantity d job else 0))%Q ∧
  ((∀ d', (0 <= quantity idle d')%Q) → (0 <= quantity idle' d)%Q).
Proof.
  unfold admission, min_quantity.
  destruct (job_MinResources job) as [rl|].
  - destruct (JobEnqueueable ssn job && res_LessEqual (NewResource rl) idle) eqn:Hc.
    + apply andb_true_iff in Hc as [_ Hle]. intros [= <- <-].
      rewrite (quantity_Sub _ _ _ Hle). split; [ring|].
      intros _. pose proof (proj1 (LessEqual_spec _ _) Hle d). lra.
    + intros [= <- <-]. split; [ring|auto].
  - intros [= <- <-]. split; [ring|auto].
Qed.

Lemma trace_chain_quantity ssn idle0 trace idle d :
  (∀ ev, ev ∈ trace →
     admission ssn (ev_job ev) (ev_idle ev) = (ev_inqueue ev, ev_idle_after ev)) →
  trace_chain idle0 trace idle →
  (quantity idle0 d == quantity idle d + Qsum (event_quantity d) trace)%Q.
Proof.
  revert idle. induction trace as [|ev trace IH]; intros idle Hadm; simpl.
  - intros ->. ring.
  - intros [<- Hch]. rewrite (IH (ev_idle ev)); [|by intros; apply Hadm; right|done].
    destruct (admission_quantity ssn _ _ _ _ d (Hadm ev ltac:(left))) as [-> _].
    unfold event_quantity. ring.
Qed.

Lemma trace_chain_nonneg ssn idle0 trace idle :
  (∀ ev, ev ∈ trace →
     admission ssn (ev_job ev) (ev_idle ev) = (ev_inqueue ev, ev_idle_after ev)) →
  trace_chain idle0 trace idle →
  (∀ d, (0 <= quantity idle0 d)%Q) → ∀ d, (0 <= quantity idle d)%Q.
Proof.
  revert idle. induction trace as [|ev trace IH]; intros idle Hadm; simpl.
  - by intros ->.
  - intros [<- Hch] H0 d.
    apply (admission_quantity ssn _ _ _ _ d (Hadm ev ltac:(left))).
    apply (IH (ev_idle ev)); [by intros; apply Hadm; right|done..].
Qed.

(** *** The jobs that were moved are the events that set [inqueue] *)

Definition admitted_events (st : LoopState) : list (JobID * JobInfo) :=
  (λ ev, (ev_key ev, ev_job ev)) <$> filter (λ ev, ev_inqueue ev = true) (st_trace st).

Lemma phase_of_popped ssn st ev :
  Inv ssn st → ev ∈ st_trace st →
  job_Phase <$> st_objs st !! ev_key ev
  = Some (if ev_inqueue ev then PodGroupInqueue else PodGroupPending).
Proof.
  intros HI Hev. destruct (inv_trace _ _ HI ev Hev) as (_ & Hph & _ & ->).
  simpl. by destruct (ev_inqueue ev); simpl; [|rewrite Hph].
Qed.

Lemma moved_admitted ssn st : Inv ssn st → moved ssn st ≡ₚ admitted_events st.
Proof.
  intros HI. apply NoDup_Permutation.
  - apply NoDup_filter, NoDup_map_to_list.
  - apply (NoDup_fmap_1 fst). unfold admitted_events.
    rewrite <- list_fmap_compose.
    apply (sublist_NoDup _ (popped st)); [apply (inv_trace_NoDup _ _ HI)|].
    apply fmap_sublist, sublist_filter.
  - intros [key job]. unfold moved, admitted_events.
    rewrite list_elem_of_filter, elem_of_map_to_list, list_elem_of_fmap. simpl.
    split.
    + intros [[Hph Hin] Hjob].
      destruct (decide (key ∈ popped st)) as [Hp|Hp].
      * apply list_elem_of_fmap in Hp as (ev & -> & Hev).
        destruct (inv_trace _ _ HI ev Hev) as (Hjob' & _).
        rewrite Hjob in Hjob'. injection Hjob' as ->.
        exists ev. split; [done|]. apply list_elem_of_filter. split; [|done].
        rewrite (phase_of_popped ssn st ev HI Hev) in Hin.
        by destruct (ev_inqueue ev).
      * rewrite (inv_untouched _ _ HI key Hp), Hjob in Hin. simpl in Hin.
        rewrite Hph in Hin. done.
    + intros (ev & [= -> ->] & Hev).
      apply list_elem_of_filter in Hev as [Hin Hev].
      destruct (inv_trace _ _ HI ev Hev) as (Hjob & Hph & _).
      rewrite (phase_of_popped ssn st ev HI Hev), Hin. done.
Qed.

Lemma moved_quantity ssn st d :
  Inv ssn st →
  (Qsum (λ e : JobID * JobInfo, min_quantity d e.2) (moved ssn st)
     == Qsum (event_quantity d) (st_trace st))%Q.
Proof.
  intros HI. rewrite (Qsum_perm _ _ _ (moved_admitted ssn st HI)).
  unfold admitted_events. rewrite Qsum_fmap, Qsum_filter.
  apply Qsum_ext. intros ev _. unfold event_quantity. simpl.
  destruct (ev_inqueue ev); by case_decide.
Qed.

(** *** [ssn.Jobs] after the pass *)

(** The snapshot keeps every job under its own UID. *)
Definition keyed_by_UID (ssn : Session) : Prop :=
  ∀ key job, ssn_Jobs ssn !! key = Some job → job_UID job = key.

Lemma body_index ssn st st' :
  keyed_by_UID ssn → Inv ssn st → body ssn st = Continue st' →
  st_index st = map_imap (λ k _, Some k) (ssn_Jobs ssn) →
  st_index st' = map_imap (λ k _, Some k) (ssn_Jobs ssn).
Proof.
  intros Hwf HI. unfold body.
  destruct (pq_Empty (st_queues st)); [done|].
  destruct (res_IsEmpty (st_idle st)); [done|].
  destruct (pq_Pop (st_queues st)) as [[queue queues]|]; [|done].
  destruct (st_jobsMap st !! queue_UID queue) as [jobs|] eqn:Hm.
  2:{ by intros [= <-]. }
  destruct (pq_Empty jobs).
  { by intros [= <-]. }
  destruct (pq_Pop jobs) as [[[key job] jobs']|] eqn:Hj; [|done].
  apply pq_items_Pop in Hj.
  destruct (admission ssn job (st_idle st)) as [[] idle]; intros [= <-]; simpl;
    [|done].
  intros Hidx. rewrite Hidx. apply insert_id.
  destruct (inv_heap _ _ HI _ _ key job Hm) as (Hkey & _); [rewrite Hj; left|].
  rewrite map_lookup_imap, (Hwf _ _ Hkey), Hkey. done.
Qed.

Lemma loop_index ssn fuel st st' :
  keyed_by_UID ssn → Inv ssn st → loop ssn fuel st = Returned st' →
  st_index st = map_imap (λ k _, Some k) (ssn_Jobs ssn) →
  st_index st' = map_imap (λ k _, Some k) (ssn_Jobs ssn).
Proof.
  intros Hwf. revert st. induction fuel as [|fuel IH]; intros st HI; simpl; [done|].
  destruct (body ssn st) as [|st1|] eqn:Hb; [by intros [= <-]| |done].
  intros Hl Hidx. apply (IH st1); [by eapply body_Inv|done|].
  by apply (body_index ssn st).
Qed.

(** For such a session the write [ssn.Jobs[job.UID] = job] changes nothing:
    the map holds the objects under the keys it had them under. *)
Lemma jobs_after_keyed_by_UID ssn st :
  keyed_by_UID ssn → Execute ssn = Returned st → jobs_after st = st_objs st.
Proof.
  intros Hwf Hst. pose proof (Execute_Inv _ _ Hst) as HI.
  assert (Hidx : st_index st = map_imap (λ k _, Some k) (ssn_Jobs ssn)).
  { apply (loop_index ssn _ (initial_state ssn) st Hwf (initial_Inv ssn) Hst).
    unfold initial_state. by destruct (collect_jobs _ _) as [[??]?]. }
  apply map_eq. intros key. unfold jobs_after.
  rewrite lookup_omap, Hidx, map_lookup_imap.
  destruct (ssn_Jobs ssn !! key) as [job|] eqn:Hjob; simpl; [done|].
  destruct (decide (key ∈ popped st)) as [Hp|Hp].
  - apply list_elem_of_fmap in Hp as (ev & -> & Hev).
    destruct (inv_trace _ _ HI ev Hev) as (Hjob' & _). congruence.
  - by rewrite (inv_untouched _ _ HI key Hp).
Qed.

(** *** Statements about [Execute] *)

Lemma Returned_inj (s1 s2 : LoopState) : Returned s1 = Returned s2 → s1 = s2.
Proof. by intros [= ->]. Qed.

Lemma Execute_Returned ssn : ∃ st, Execute ssn = Returned st.
Proof.
  apply loop_returns. pose proof (initial_measure ssn). lia.
Qed.

(** What the history records of a popped job, in terms of the session. *)
Lemma popped_event ssn st ev :
  Inv ssn st → ev ∈ st_trace st →
  ssn_Jobs ssn !! ev_key ev = Some (ev_job ev) ∧
  job_Phase (ev_job ev) = PodGroupPending ∧
  ev_inqueue ev =
    match job_MinResources (ev_job ev) with
    | None => true
    | Some rl => JobEnqueueable ssn (ev_job ev)
                 && res_LessEqual (NewResource rl) (ev_idle ev)
    end ∧
  ev_idle_after ev =
    match job_MinResources (ev_job ev) with
    | None => ev_idle ev
    | Some rl => if ev_inqueue ev then res_Sub (ev_idle ev) (NewResource rl)
                 else ev_idle ev
    end ∧
  job_Phase <$> st_objs st !! ev_key ev
  = Some (if ev_inqueue ev then PodGroupInqueue else PodGroupPending).
Proof.
  intros HI Hev. destruct (inv_trace _ _ HI ev Hev) as (Hjob & Hph & Hadm & _).
  split_and!; [done..| | |by apply (phase_of_popped ssn)].
  - unfold admission in Hadm.
    destruct (job_MinResources (ev_job ev)); [destruct (_ && _)|];
      by injection Hadm as <- _.
  - unfold admission in Hadm.
    destruct (job_MinResources (ev_job ev)); [destruct (_ && _)|];
      injection Hadm as Hi Ha; by rewrite <- ?Hi, <- ?Ha.
Qed.


(** The three ways through the body of the loop. *)
Lemma body_cases ssn st :
  (body ssn st = Break ∧
   (pq_Empty (st_queues st) = true ∨ res_IsEmpty (st_idle st) = true)) ∨
  (∃ queue queues st',
     pq_Pop (st_queues st) = Some (queue, queues) ∧ body ssn st = Continue st' ∧
     ((** the queue is dropped *)
      (st_jobsMap st !! queue_UID queue = None ∨
       ∃ jobs, st_jobsMap st !! queue_UID queue = Some jobs ∧ pq_Empty jobs = true) ∧
      st_queues st' = queues ∧ st_jobsMap st' = st_jobsMap st ∧
      st_trace st' = st_trace st
      ∨
      (** one job is popped and the queue pushed back *)
      ∃ jobs key job jobs',
        st_jobsMap st !! queue_UID queue = Some jobs ∧
        pq_Pop jobs = Some ((key, job), jobs') ∧
        st_queues st' = pq_Push queues queue ∧
        st_jobsMap st' = <[queue_UID queue := jobs']> (st_jobsMap st) ∧
        popped st' = key :: popped st)).
Proof.
  unfold body.
  destruct (pq_Empty (st_queues st)) eqn:Hq; [by left; auto|].
  destruct (res_IsEmpty (st_idle st)) eqn:Hi; [by left; auto|].
  right. destruct (pq_nonempty_Pop _ Hq) as (queue & queues & ->).
  exists queue, queues.
  destruct (st_jobsMap st !! queue_UID queue) as [jobs|] eqn:Hm.
  2:{ eexists. split_and!; [done..|]. left. simpl. auto. }
  destruct (pq_Empty jobs) eqn:Hj.
  { eexists. split_and!; [done..|]. left. simpl. split_and!; eauto. }
  destruct (pq_nonempty_Pop _ Hj) as ([key job] & jobs' & Hp). rewrite Hp.
  destruct (admission ssn job (st_idle st)) as [inqueue idle].
  eexists. split_and!; [done..|]. right.
  exists jobs, key, job, jobs'. simpl. done.
Qed.

(** C10: the main loop of the enqueue action terminates on every input.
    [Execute] returns for every session (it neither runs out of the fuel
    [2 * size Jobs + 1] nor panics on an empty pop), and any larger amount of
    fuel gives the same result.  The reason is the one C10 names: each
    pass through the body either breaks, or drops the popped queue (missing
    or empty job heap, queue not pushed back), or pops one job and pushes
    the queue back; both ways of continuing lower the number of heap entries
    by one, and a popped job is in no heap afterwards. *)
Theorem Execute_returns ssn :
  (∃ st, Execute ssn = Returned st ∧
         ∀ q jobs key job, st_jobsMap st !! q = Some jobs →
                           (key, job) ∈ pq_items jobs → key ∉ popped st) ∧
  (∀ fuel, 2 * size (ssn_Jobs ssn) < fuel →
           loop ssn fuel (initial_state ssn) = Execute ssn) ∧
  (∀ st, body ssn st ≠ Panic) ∧
  (∀ st st', body ssn st = Continue st' → measure st = S (measure st')) ∧
  (∀ st,
     (body ssn st = Break ∧
      (pq_Empty (st_queues st) = true ∨ res_IsEmpty (st_idle st) = true)) ∨
     (∃ queue queues st',
        pq_Pop (st_queues st) = Some (queue, queues) ∧ body ssn st = Continue st' ∧
        ((st_jobsMap st !! queue_UID queue = None ∨
          ∃ jobs, st_jobsMap st !! queue_UID queue = Some jobs ∧ pq_Empty jobs = true) ∧
         st_queues st' = queues ∧ st_jobsMap st' = st_jobsMap st ∧
         st_trace st' = st_trace st
         ∨
         ∃ jobs key job jobs',
           st_jobsMap st !! queue_UID queue = Some jobs ∧
           pq_Pop jobs = Some ((key, job), jobs') ∧
           st_queues st' = pq_Push queues queue ∧
           st_jobsMap st' = <[queue_UID queue := jobs']> (st_jobsMap st) ∧
           popped st' = key :: popped st))).
Proof.
  destruct (Execute_Returned ssn) as [st Hst].
  split_and!.
  - exists st. split; [done|]. intros q jobs key job Hq Hk.
    by destruct (inv_heap _ _ (Execute_Inv _ _ Hst) _ _ _ _ Hq Hk) as (_&_&_&?).
  - intros fuel Hf. unfold Execute in *. rewrite Hst.
    apply (loop_fuel_mono _ _ _ _ _ Hst). lia.
  - apply body_no_Panic.
  - apply body_measure.
  - apply body_cases.
Qed.

(** C3: the admission condition.  [Execute] returns, and for every job it
    popped from a job heap ([ev] in the history, with [ev_idle] the idle
    resource remaining at that moment): the job is one the session held as
    Pending; it is admitted ([ev_inqueue]) unconditionally when MinResources
    is nil, and otherwise exactly when JobEnqueueable holds and MinResources
    is less-equal the remaining idle resource, in which case MinResources is
    subtracted from idle and otherwise idle is left alone; the job's phase at
    the end is Inqueue when admitted and still Pending when not; no job is
    popped twice and a popped job is in no heap at the end. *)
Theorem admission_condition ssn :
  ∃ st, Execute ssn = Returned st ∧
    trace_chain (initial_idle ssn) (st_trace st) (st_idle st) ∧
    NoDup (popped st) ∧
    (∀ q jobs key job, st_jobsMap st !! q = Some jobs →
                       (key, job) ∈ pq_items jobs → key ∉ popped st) ∧
    ∀ ev, ev ∈ st_trace st →
      ssn_Jobs ssn !! ev_key ev = Some (ev_job ev) ∧
      job_Phase (ev_job ev) = PodGroupPending ∧
      ev_inqueue ev =
        match job_MinResources (ev_job ev) with
        | None => true
        | Some rl => JobEnqueueable ssn (ev_job ev)
                     && res_LessEqual (NewResource rl) (ev_idle ev)
        end ∧
      ev_idle_after ev =
        match job_MinResources (ev_job ev) with
        | None => ev_idle ev
        | Some rl => if ev_inqueue ev then res_Sub (ev_idle ev) (NewResource rl)
                     else ev_idle ev
        end ∧
      job_Phase <$> st_objs st !! ev_key ev
      = Some (if ev_inqueue ev then PodGroupInqueue else PodGroupPending).
Proof.
  destruct (Execute_Returned ssn) as [st Hst].
  pose proof (Execute_Inv _ _ Hst) as HI.
  exists st. split_and!.
  - done.
  - apply (inv_chain _ _ HI).
  - apply (inv_trace_NoDup _ _ HI).
  - intros q jobs key job Hq Hk.
    by destruct (inv_heap _ _ HI _ _ _ _ Hq Hk) as (_&_&_&?).
  - intros ev Hev. by apply popped_event.
Qed.

(** C1 as the code has it: [Execute] never reads the state of a queue.  A job
    of a Closed queue that was Pending at the start is still Pending at the
    end unless it was popped and passed the admission test that holds for
    every job: MinResources nil, or JobEnqueueable and MinResources
    less-equal the idle resource remaining when it was popped. *)
Theorem closed_queue_job_pending_unless_admitted ssn :
  ∃ st, Execute ssn = Returned st ∧
    ∀ key job queue,
      ssn_Jobs ssn !! key = Some job →
      ssn_Queues ssn !! job_Queue job = Some queue →
      queue_State queue = QueueStateClosed →
      job_Phase job = PodGroupPending →
      job_Phase <$> st_objs st !! key = Some PodGroupPending ∨
      (job_Phase <$> st_objs st !! key = Some PodGroupInqueue ∧
       ∃ ev, ev ∈ st_trace st ∧ ev_key ev = key ∧ ev_job ev = job ∧
             (job_MinResources job = None ∨
              ∃ rl, job_MinResources job = Some rl ∧
                    JobEnqueueable ssn job = true ∧
                    res_LessEqual (NewResource rl) (ev_idle ev) = true)).
Proof.
  destruct (Execute_Returned ssn) as [st Hst].
  pose proof (Execute_Inv _ _ Hst) as HI.
  exists st. split; [done|]. intros key job queue Hjob _ _ Hph.
  destruct (decide (key ∈ popped st)) as [Hp|Hp].
  - apply list_elem_of_fmap in Hp as (ev & -> & Hin).
    destruct (popped_event ssn st ev HI Hin) as (Hjob' & _ & Hinq & _ & Hend).
    rewrite Hjob in Hjob'. injection Hjob' as ->.
    rewrite Hend. destruct (ev_inqueue ev) eqn:Hi; [|by left].
    right. split; [done|]. exists ev. split_and!; [done..|].
    destruct (job_MinResources (ev_job ev)) as [rl|]; [|by left].
    right. exists rl. symmetry in Hinq. apply andb_true_iff in Hinq as [??]. done.
  - left. rewrite (inv_untouched _ _ HI key Hp), Hjob. simpl. by rewrite Hph.
Qed.


(** *** What else [Execute] keeps *)

(** The loop is left through one of its two [break]s. *)
Lemma loop_Break ssn fuel st st' :
  loop ssn fuel st = Returned st' → body ssn st' = Break.
Proof.
  revert st. induction fuel as [|fuel IH]; intros st; simpl; [done|].
  destruct (body ssn st) as [|st1|] eqn:Hb; [|by apply IH|done].
  by intros [= <-].
Qed.

(** The action writes nothing but the phase of a job, and only from Pending
    to Inqueue: when [Execute] returns, every job object of the session is
    as it was, or as it was with the phase set to Inqueue, the latter only
    for a job that was Pending; no object is added and none is removed. *)
Theorem Execute_changes_phase_only ssn :
  ∃ st, Execute ssn = Returned st ∧
    ∀ key,
      match ssn_Jobs ssn !! key with
      | None => st_objs st !! key = None
      | Some job =>
          st_objs st !! key = Some job ∨
          (job_Phase job = PodGroupPending ∧
           st_objs st !! key = Some (set_Phase PodGroupInqueue job))
      end.
Proof.
  destruct (Execute_Returned ssn) as [st Hst].
  pose proof (Execute_Inv _ _ Hst) as HI.
  exists st. split; [done|]. intros key.
  destruct (decide (key ∈ popped st)) as [Hp|Hp].
  - apply list_elem_of_fmap in Hp as (ev & -> & Hev).
    destruct (inv_trace _ _ HI ev Hev) as (-> & Hph & _ & ->).
    destruct (ev_inqueue ev); auto.
  - rewrite (inv_untouched _ _ HI key Hp). destruct (ssn_Jobs ssn !! key); auto.
Qed.

(** Line 64: the queue a job names is one the session holds. *)
Definition queue_found (ssn : Session) (job : JobInfo) : Prop :=
  is_Some (ssn_Queues ssn !! job_Queue job).

(** Only jobs whose queue was found get into a heap, and so into the
    history. *)
Record Found (ssn : Session) (st : LoopState) : Prop := {
  found_heap q jobs key job :
    st_jobsMap st !! q = Some jobs → (key, job) ∈ pq_items jobs → queue_found ssn job;
  found_trace ev : ev ∈ st_trace st → queue_found ssn (ev_job ev);
}.

Lemma collect_jobs_found ssn entries q jobs key job :
  (collect_jobs ssn entries).2 !! q = Some jobs → (key, job) ∈ pq_items jobs →
  queue_found ssn job.
Proof.
  unfold collect_jobs. revert q jobs key job.
  apply (foldl_prefix_ind (collect_job ssn)
           (λ _ acc, ∀ q jobs key job,
              acc.2 !! q = Some jobs → (key, job) ∈ pq_items jobs → queue_found ssn job)).
  - simpl. intros q jobs key job Hq. by rewrite lookup_empty in Hq.
  - intros pre [k j] suf [[queues queueMap] jobsMap] _ IH q jobs key job.
    unfold collect_job. simpl in *.
    destruct (ssn_Queues ssn !! job_Queue j) as [queue|] eqn:Hfound; [|apply IH].
    destruct (match queueMap !! queue_UID queue with
              | None => (pq_Push queues queue, <[queue_UID queue:=queue]> queueMap)
              | Some _ => (queues, queueMap) end) as [queues' queueMap'].
    simpl. destruct (decide (job_Phase j = PodGroupPending)); simpl; [|apply IH].
    destruct (decide (job_Queue j = q)) as [<-|Hne].
    + rewrite lookup_insert_eq. intros [= <-]. rewrite pq_items_Push.
      intros [[= -> ->]|Hk]%elem_of_cons.
      * unfold queue_found. by rewrite Hfound.
      * destruct (jobsMap !! job_Queue j) as [jobs0|] eqn:Hj; simpl in Hk.
        -- by apply (IH _ _ key job Hj).
        -- rewrite pq_items_New in Hk. by apply elem_of_nil in Hk.
    + rewrite lookup_insert_ne by done. apply IH.
Qed.

Lemma initial_Found ssn : Found ssn (initial_state ssn).
Proof.
  unfold initial_state.
  pose proof (collect_jobs_found ssn (range (ssn_Jobs ssn))) as Hin.
  destruct (collect_jobs ssn (range (ssn_Jobs ssn))) as [[queues queueMap] jobsMap].
  split; simpl.
  - apply Hin.
  - intros ev Hev. by apply elem_of_nil in Hev.
Qed.

Lemma body_Found ssn st st' :
  Found ssn st → body ssn st = Continue st' → Found ssn st'.
Proof.
  intros HF. unfold body.
  destruct (pq_Empty (st_queues st)); [done|].
  destruct (res_IsEmpty (st_idle st)); [done|].
  destruct (pq_Pop (st_queues st)) as [[queue queues]|]; [|done].
  assert (Hskip : Found ssn {| st_queues := queues; st_jobsMap := st_jobsMap st;
                               st_idle := st_idle st; st_objs := st_objs st;
                               st_index := st_index st; st_trace := st_trace st |}).
  { by destruct HF. }
  destruct (st_jobsMap st !! queue_UID queue) as [jobs|] eqn:Hm.
  2:{ by intros [= <-]. }
  destruct (pq_Empty jobs).
  { by intros [= <-]. }
  destruct (pq_Pop jobs) as [[[key job] jobs']|] eqn:Hj; [|done].
  apply pq_items_Pop in Hj.
  destruct (admission ssn job (st_idle st)) as [inqueue idle].
  intros [= <-]. split; simpl.
  - intros q jobs0 k j Hq Hk.
    destruct (decide (queue_UID queue = q)) as [<-|Hne].
    + rewrite lookup_insert_eq in Hq. injection Hq as <-.
      apply (found_heap _ _ HF _ _ k j Hm). rewrite Hj. by right.
    + rewrite lookup_insert_ne in Hq by done. by apply (found_heap _ _ HF q jobs0 k).
  - intros ev [->|Hev]%elem_of_cons; simpl.
    + apply (found_heap _ _ HF _ _ key job Hm). rewrite Hj. left.
    + by apply (found_trace _ _ HF).
Qed.

Lemma loop_Found ssn fuel st st' :
  Found ssn st → loop ssn fuel st = Returned st' → Found ssn st'.
Proof.
  revert st. induction fuel as [|fuel IH]; intros st HF; simpl; [done|].
  destruct (body ssn st) as [|st1|] eqn:Hb; [|by eauto using body_Found|done].
  by intros [= <-].
Qed.

(** A job that names a queue the session does not hold (line 64, the
    "Failed to find Queue" branch) is left out of the pass: it is never
    popped, and its object is at the end what it was, whatever its phase and
    its MinResources. *)
Theorem job_of_missing_queue_untouched ssn :
  ∃ st, Execute ssn = Returned st ∧
    ∀ key job,
      ssn_Jobs ssn !! key = Some job → ssn_Queues ssn !! job_Queue job = None →
      (key ∉ popped st) ∧ st_objs st !! key = Some job.
Proof.
  destruct (Execute_Returned ssn) as [st Hst].
  pose proof (Execute_Inv _ _ Hst) as HI.
  pose proof (loop_Found _ _ _ _ (initial_Found ssn) Hst) as HF.
  exists st. split; [done|]. intros key job Hjob Hq.
  assert (Hp : key ∉ popped st).
  { intros (ev & -> & Hev)%list_elem_of_fmap.
    destruct (inv_trace _ _ HI ev Hev) as (Hjob' & _).
    rewrite Hjob in Hjob'. injection Hjob' as ->.
    destruct (found_trace _ _ HF ev Hev) as [queue Hfound]. congruence. }
  split; [done|]. by rewrite (inv_untouched _ _ HI key Hp).
Qed.

(** When the idle resource is empty before the first pass of the loop (line
    102), the loop is left at once: no job is popped and no job object
    changes, not even that of a job without MinResources. *)
Theorem empty_idle_admits_nothing ssn :
  res_IsEmpty (initial_idle ssn) = true →
  ∃ st, Execute ssn = Returned st ∧ st_trace st = [] ∧ st_objs st = ssn_Jobs ssn.
Proof.
  intros Hidle. exists (initial_state ssn). unfold Execute. simpl.
  assert (Hb : body ssn (initial_state ssn) = Break).
  { unfold body. destruct (pq_Empty (st_queues (initial_state ssn))); [done|].
    replace (st_idle (initial_state ssn)) with (initial_idle ssn); [by rewrite Hidle|].
    unfold initial_state. by destruct (collect_jobs _ _) as [[??]?]. }
  rewrite Hb. unfold initial_state.
  by destruct (collect_jobs _ _) as [[??]?].
Qed.

(** *** Every Pending job gets its turn *)

(** The session holds every queue under the queue's own UID. *)
Definition queues_keyed_by_UID (ssn : Session) : Prop :=
  ∀ q queue, ssn_Queues ssn !! q = Some queue → queue_UID queue = q.

(** A Pending job whose queue was found has been popped or waits in the heap
    of its queue, and the queue of a heap that still holds jobs waits in
    [queues]. *)
Record Live (ssn : Session) (st : LoopState) : Prop := {
  live_job key job queue :
    ssn_Jobs ssn !! key = Some job → job_Phase job = PodGroupPending →
    ssn_Queues ssn !! job_Queue job = Some queue →
    key ∈ popped st ∨
    ∃ jobs, st_jobsMap st !! job_Queue job = Some jobs ∧ (key, job) ∈ pq_items jobs;
  live_queue q jobs :
    st_jobsMap st !! q = Some jobs → pq_items jobs ≠ [] →
    ∃ queue, queue ∈ pq_items (st_queues st) ∧ queue_UID queue = q;
}.

Definition collect_live (ssn : Session) (pre : list (JobID * JobInfo))
    (acc : pqueue QueueInfo * gmap QueueID QueueInfo * gmap QueueID (pqueue JobRef)) : Prop :=
  (∀ key job queue,
      (key, job) ∈ pre → job_Phase job = PodGroupPending →
      ssn_Queues ssn !! job_Queue job = Some queue →
      ∃ jobs, acc.2 !! job_Queue job = Some jobs ∧ (key, job) ∈ pq_items jobs) ∧
  (∀ q jobs, acc.2 !! q = Some jobs →
             ∃ queue, queue ∈ pq_items acc.1.1 ∧ queue_UID queue = q) ∧
  (∀ u queue, acc.1.2 !! u = Some queue →
              ∃ queue', queue' ∈ pq_items acc.1.1 ∧ queue_UID queue' = u).

Lemma collect_job_live ssn pre entry acc :
  queues_keyed_by_UID ssn →
  collect_live ssn pre acc → collect_live ssn (pre ++ [entry]) (collect_job ssn acc entry).
Proof.
  intros Hkeyed (Hjobs & Hheaps & Hmap).
  destruct acc as [[queues queueMap] jobsMap], entry as [key job].
  unfold collect_live, collect_job in *. simpl in *.
  destruct (ssn_Queues ssn !! job_Queue job) as [queue|] eqn:Hfound; simpl.
  2:{ split_and!; [|done..].
      intros k j queue [Hin|[= -> ->]%list_elem_of_singleton]%elem_of_app Hph Hq;
        [by eauto|congruence]. }
  pose proof (Hkeyed _ _ Hfound) as Huid.
  assert (Hqueues :
    let acc' := match queueMap !! queue_UID queue with
                | None => (pq_Push queues queue, <[queue_UID queue:=queue]> queueMap)
                | Some _ => (queues, queueMap) end in
    (∀ x, x ∈ pq_items queues → x ∈ pq_items acc'.1) ∧
    (∃ queue', queue' ∈ pq_items acc'.1 ∧ queue_UID queue' = job_Queue job) ∧
    (∀ u queue0, acc'.2 !! u = Some queue0 →
                 ∃ queue', queue' ∈ pq_items acc'.1 ∧ queue_UID queue' = u)).
  { destruct (queueMap !! queue_UID queue) as [old|] eqn:Hold; simpl.
    - split_and!; [done| |done]. rewrite <- Huid. by apply (Hmap _ old).
    - split_and!.
      + intros x Hx. rewrite pq_items_Push. by right.
      + exists queue. split; [|done]. rewrite pq_items_Push. left.
      + intros u queue0 Hu. destruct (decide (queue_UID queue = u)) as [<-|Hne].
        * exists queue. split; [|done]. rewrite pq_items_Push. left.
        * rewrite lookup_insert_ne in Hu by done.
          destruct (Hmap _ _ Hu) as (queue' & Hin & Hu').
          exists queue'. split; [|done]. rewrite pq_items_Push. by right. }
  destruct (match queueMap !! queue_UID queue with
            | None => (pq_Push queues queue, <[queue_UID queue:=queue]> queueMap)
            | Some _ => (queues, queueMap) end) as [queues' queueMap'].
  simpl in Hqueues. destruct Hqueues as (Hmono & Hown & Hmap').
  assert (Hheaps' : ∀ q jobs, jobsMap !! q = Some jobs →
                      ∃ queue', queue' ∈ pq_items queues' ∧ queue_UID queue' = q).
  { intros q jobs Hq. destruct (Hheaps _ _ Hq) as (queue' & Hin & Hu). eauto. }
  destruct (decide (job_Phase job = PodGroupPending)) as [Hph|Hph]; simpl.
  2:{ split_and!; [|done..].
      intros k j queue0 [Hin|[= -> ->]%list_elem_of_singleton]%elem_of_app Hph' Hq;
        [by eauto|done]. }
  split_and!; [| |done].
  - intros k j queue0 Hin Hph' Hq.
    destruct (decide (job_Queue job = job_Queue j)) as [Heq|Hne].
    + rewrite <- Heq, lookup_insert_eq. eexists. split; [done|].
      rewrite pq_items_Push.
      apply elem_of_app in Hin as [Hin|[= -> ->]%list_elem_of_singleton]; [|left].
      right. destruct (Hjobs _ _ _ Hin Hph' Hq) as (jobs & Hj & Hk).
      rewrite <- Heq in Hj. by rewrite Hj.
    + rewrite lookup_insert_ne by done.
      apply elem_of_app in Hin as [Hin|[= -> ->]%list_elem_of_singleton]; [|done].
      by apply (Hjobs _ _ queue0).
  - intros q jobs Hq. destruct (decide (job_Queue job = q)) as [<-|Hne]; [done|].
    rewrite lookup_insert_ne in Hq by done. by apply (Hheaps' _ jobs).
Qed.

Lemma collect_jobs_live ssn entries :
  queues_keyed_by_UID ssn → collect_live ssn entries (collect_jobs ssn entries).
Proof.
  intros Hkeyed. unfold collect_jobs.
  apply (foldl_prefix_ind (collect_job ssn) (collect_live ssn)).
  - unfold collect_live; simpl. split_and!.
    + intros key job queue Hin. by apply elem_of_nil in Hin.
    + intros q jobs Hq. by rewrite lookup_empty in Hq.
    + intros u queue Hu. by rewrite lookup_empty in Hu.
  - intros pre x suf acc _ Hacc. by apply collect_job_live.
Qed.

Lemma initial_Live ssn : queues_keyed_by_UID ssn → Live ssn (initial_state ssn).
Proof.
  intros Hkeyed. unfold initial_state.
  pose proof (collect_jobs_live ssn (range (ssn_Jobs ssn)) Hkeyed) as (Hjobs & Hheaps & _).
  destruct (collect_jobs ssn (range (ssn_Jobs ssn))) as [[queues queueMap] jobsMap].
  simpl in *. split; simpl.
  - intros key job queue Hjob Hph Hq. right.
    apply (Hjobs _ _ queue); [|done..]. by apply range_Jobs_lookup.
  - intros q jobs Hq _. by apply (Hheaps _ jobs).
Qed.

Lemma body_Live ssn st st' :
  Live ssn st → body ssn st = Continue st' → Live ssn st'.
Proof.
  intros HL. unfold body.
  destruct (pq_Empty (st_queues st)); [done|].
  destruct (res_IsEmpty (st_idle st)); [done|].
  destruct (pq_Pop (st_queues st)) as [[queue queues]|] eqn:Hpop; [|done].
  apply pq_items_Pop in Hpop.
  assert (Hrest : ∀ q jobs, st_jobsMap st !! q = Some jobs → pq_items jobs ≠ [] →
                    q ≠ queue_UID queue →
                    ∃ queue', queue' ∈ pq_items queues ∧ queue_UID queue' = q).
  { intros q jobs Hq Hne Hother.
    destruct (live_queue _ _ HL q jobs Hq Hne) as (queue' & Hin & Hu).
    rewrite Hpop in Hin. apply elem_of_cons in Hin as [->|Hin]; [done|eauto]. }
  assert (Hskip :
    (st_jobsMap st !! queue_UID queue = None ∨
     ∃ jobs, st_jobsMap st !! queue_UID queue = Some jobs ∧ pq_items jobs = []) →
    Live ssn {| st_queues := queues; st_jobsMap := st_jobsMap st;
                st_idle := st_idle st; st_objs := st_objs st;
                st_index := st_index st; st_trace := st_trace st |}).
  { intros Hdrop. split; simpl.
    - apply (live_job _ _ HL).
    - intros q jobs Hq Hne. apply (Hrest q jobs Hq Hne). intros ->.
      destruct Hdrop as [Hnone|(jobs' & Hsome & Hnil)]; congruence. }
  destruct (st_jobsMap st !! queue_UID queue) as [jobs|] eqn:Hm.
  2:{ intros [= <-]. apply Hskip. by left. }
  destruct (pq_Empty _) eqn:He.
  { intros [= <-]. apply Hskip. right. exists jobs. split; [done|].
    by apply pq_Empty_spec. }
  destruct (pq_Pop _) as [[[key job] jobs']|] eqn:Hj; [|done].
  apply pq_items_Pop in Hj.
  destruct (admission ssn job (st_idle st)) as [inqueue idle].
  intros [= <-]. split; simpl; unfold popped; simpl.
  - intros k j queue0 Hjob Hph Hq.
    destruct (live_job _ _ HL k j queue0 Hjob Hph Hq) as [Hp|(jobs0 & Hq0 & Hk)].
    { left. by right. }
    destruct (decide (queue_UID queue = job_Queue j)) as [Heq|Hne].
    + rewrite <- Heq in Hq0 |- *. rewrite Hm in Hq0. injection Hq0 as <-.
      rewrite Hj in Hk. apply elem_of_cons in Hk as [[= -> ->]|Hk].
      * left. left.
      * right. exists jobs'. by rewrite lookup_insert_eq.
    + right. exists jobs0. by rewrite lookup_insert_ne.
  - intros q jobs0 Hq Hne.
    destruct (decide (queue_UID queue = q)) as [<-|Hother].
    + exists queue. split; [|done]. rewrite pq_items_Push. left.
    + rewrite lookup_insert_ne in Hq by done.
      destruct (Hrest q jobs0 Hq Hne) as (queue' & Hin & Hu); [done|].
      exists queue'. split; [|done]. rewrite pq_items_Push. by right.
Qed.

Lemma loop_Live ssn fuel st st' :
  Live ssn st → loop ssn fuel st = Returned st' → Live ssn st'.
Proof.
  revert st. induction fuel as [|fuel IH]; intros st HL; simpl; [done|].
  destruct (body ssn st) as [|st1|] eqn:Hb; [|by eauto using body_Live|done].
  by intros [= <-].
Qed.

(** The loop ends with no queue left or with the idle resource empty.  When
    the session holds its queues under their UIDs and the loop ends with idle
    resource to spare, every job that was Pending and whose queue the session
    holds has been popped: each got its turn at the admission test. *)
Theorem every_pending_job_considered ssn st :
  queues_keyed_by_UID ssn →
  Execute ssn = Returned st →
  (pq_Empty (st_queues st) = true ∨ res_IsEmpty (st_idle st) = true) ∧
  (res_IsEmpty (st_idle st) = false →
   ∀ key job queue,
     ssn_Jobs ssn !! key = Some job → job_Phase job = PodGroupPending →
     ssn_Queues ssn !! job_Queue job = Some queue →
     key ∈ popped st).
Proof.
  intros Hkeyed Hst.
  pose proof (loop_Live _ _ _ _ (initial_Live ssn Hkeyed) Hst) as HL.
  apply loop_Break in Hst.
  assert (Hexit : pq_Empty (st_queues st) = true ∨ res_IsEmpty (st_idle st) = true).
  { destruct (body_cases ssn st) as [[_ ?]|(queue & queues & st' & _ & Hc & _)];
      [done|congruence]. }
  split; [done|]. intros Hidle key job queue Hjob Hph Hq.
  destruct Hexit as [Hempty|]; [|congruence].
  apply pq_Empty_spec in Hempty.
  destruct (live_job _ _ HL key job queue Hjob Hph Hq) as [|(jobs & Hj & Hk)]; [done|].
  destruct (live_queue _ _ HL _ jobs Hj) as (queue' & Hin & _).
  - intros Hnil. rewrite Hnil in Hk. by apply elem_of_nil in Hk.
  - rewrite Hempty in Hin. by apply elem_of_nil in Hin.
Qed.

(** The idle resource is accounted for: when the subtraction of line 95 is
    defined, what is left of idle when [Execute] returns and the
    MinResources of the jobs it moved to Inqueue add up, in every dimension,
    to factor * allocatable - used; and what is left is not negative. *)
Theorem idle_conservation ssn st d :
  Execute ssn = Returned st →
  headroom_defined ssn = true →
  (quantity (st_idle st) d
   + Qsum (λ e : JobID * JobInfo, min_quantity d e.2) (moved ssn st)
   == getOverCommitFactor ssn * total_allocatable ssn d - total_used ssn d)%Q ∧
  (0 <= quantity (st_idle st) d)%Q.
Proof.
  intros Hst Hroom. pose proof (Execute_Inv _ _ Hst) as HI.
  rewrite (moved_quantity ssn st d HI).
  destruct (initial_idle_quantity ssn d Hroom) as [<- _].
  assert (Hadm : ∀ ev, ev ∈ st_trace st →
    admission ssn (ev_job ev) (ev_idle ev) = (ev_inqueue ev, ev_idle_after ev)).
  { intros ev Hev. by destruct (inv_trace _ _ HI ev Hev) as (_&_&?&_). }
  rewrite (trace_chain_quantity ssn _ _ _ d Hadm (inv_chain _ _ HI)).
  split; [reflexivity|].
  apply (trace_chain_nonneg ssn _ _ _ Hadm (inv_chain _ _ HI)
           (λ d', proj2 (initial_idle_quantity ssn d' Hroom)) d).
Qed.

End Execute.

(** *** Runs on concrete sessions *)

(** A stand-in for strconv.ParseFloat that knows two numerals. *)
Definition parse_sample (s : string) : option Q :=
  if decide (s = "1.5") then Some (15 # 10)%Q
  else if decide (s = "0.5") then Some (5 # 10)%Q
  else None.

Definition run (ssn : Session) : outcome := Execute parse_sample ssn.

Definition cpu (milli : Z) : QResource := {[ "cpu" := (milli # 1)%Q ]}.

Definition sample_job (name queue : string) (min : option QResource)
    (phase : PodGroupPhase) : JobInfo :=
  {| job_UID := name; job_Name := name; job_Namespace := "default";
     job_Queue := queue; job_Priority := 0;
     job_MinResources := min; job_Phase := phase |}.

Definition sample_queue (name : string) (state : QueueState) : QueueInfo :=
  {| queue_UID := name; queue_Name := name; queue_Weight := 1; queue_State := state |}.

Definition by_name (a b : JobInfo) : bool := bool_decide (String.ltb (job_Name a) (job_Name b) = true).

(** Scenario S5 of the spec: 10 CPU in the cluster, default factor, three
    jobs that each need 5 CPU. *)
Definition ssn_S5 : Session :=
  {| ssn_Jobs := {[ "a" := sample_job "a" "q" (Some (cpu 5000)) PodGroupPending;
                    "b" := sample_job "b" "q" (Some (cpu 5000)) PodGroupPending;
                    "c" := sample_job "c" "q" (Some (cpu 5000)) PodGroupPending ]};
     ssn_Queues := {[ "q" := sample_queue "q" QueueStateOpen ]};
     ssn_Nodes := {[ "n1" := {| node_Name := "n1"; node_Allocatable := cpu 10000;
                                node_Used := ∅ |} ]};
     ssn_Configurations := [];
     QueueOrderFn := λ _ _, false;
     JobOrderFn := by_name;
     JobEnqueueable := λ _, true |}.

(** One Closed queue with two Pending jobs, one without MinResources and one
    that needs 1 CPU; a node with 4 CPU; the factor set to 1.5. *)
Definition ssn_closed : Session :=
  {| ssn_Jobs := {[ "j1" := sample_job "j1" "q1" None PodGroupPending;
                    "j2" := sample_job "j2" "q1" (Some (cpu 1000)) PodGroupPending ]};
     ssn_Queues := {[ "q1" := sample_queue "q1" QueueStateClosed ]};
     ssn_Nodes := {[ "n1" := {| node_Name := "n1"; node_Allocatable := cpu 4000;
                                node_Used := cpu 1000 |} ]};
     ssn_Configurations :=
       [ {| conf_Name := "enqueue";
            conf_Arguments := {[ "overcommit-factor" := "1.5" ]} |} ];
     QueueOrderFn := λ _ _, false;
     JobOrderFn := by_name;
     JobEnqueueable := λ _, true |}.

(** A node with 10 CPU of which 2 are used, the factor set to 0.5, which
    leaves 3 CPU, and two Pending jobs that need 2 CPU each. *)
Definition ssn_low_factor : Session :=
  {| ssn_Jobs := {[ "j1" := sample_job "j1" "q1" (Some (cpu 2000)) PodGroupPending;
                    "j2" := sample_job "j2" "q1" (Some (cpu 2000)) PodGroupPending ]};
     ssn_Queues := {[ "q1" := sample_queue "q1" QueueStateOpen ]};
     ssn_Nodes := {[ "n1" := {| node_Name := "n1"; node_Allocatable := cpu 10000;
                                node_Used := cpu 2000 |} ]};
     ssn_Configurations :=
       [ {| conf_Name := "enqueue";
            conf_Arguments := {[ "overcommit-factor" := "0.5" ]} |} ];
     QueueOrderFn := λ _ _, false;
     JobOrderFn := by_name;
     JobEnqueueable := λ _, true |}.

Definition final_phases (o : outcome) : option (list (JobID * PodGroupPhase)) :=
  match o with
  | Returned st => Some (map_to_list (job_Phase <$> st_objs st))
  | _ => None
  end.

Definition final_state (ssn : Session) : LoopState :=
  match run ssn with
  | Returned st => st
  | _ => initial_state parse_sample ssn
  end.

Lemma run_final ssn : run ssn = Returned (final_state ssn).
Proof.
  unfold final_state, run. by destruct (Execute_Returned parse_sample ssn) as [st ->].
Qed.

Lemma popped_S5 : popped (final_state ssn_S5) = ["c"; "b"; "a"].
Proof. vm_compute. reflexivity. Qed.

Lemma inqueue_S5 : ev_inqueue <$> st_trace (final_state ssn_S5) = [false; true; true].
Proof. vm_compute. reflexivity. Qed.

(** Scenario S5: two of the three jobs are admitted, the third stays
    Pending. *)
Example run_S5 :
  final_phases (run ssn_S5)
  = Some [("c", PodGroupPending); ("a", PodGroupInqueue); ("b", PodGroupInqueue)].
Proof. vm_compute. reflexivity. Qed.

(** C1 fails on the code: queue q1 is Closed, its jobs j1 (no MinResources)
    and j2 (1 CPU, which fits) are Pending when the pass starts, and both are
    Inqueue when [Execute] returns. *)
Lemma closed_queue_job_admitted :
  run ssn_closed = Returned (final_state ssn_closed) ∧
  ssn_Jobs ssn_closed !! "j1" = Some (sample_job "j1" "q1" None PodGroupPending) ∧
  ssn_Jobs ssn_closed !! "j2"
    = Some (sample_job "j2" "q1" (Some (cpu 1000)) PodGroupPending) ∧
  queue_State <$> ssn_Queues ssn_closed !! "q1" = Some QueueStateClosed ∧
  job_Phase <$> st_objs (final_state ssn_closed) !! "j1" = Some PodGroupInqueue ∧
  job_Phase <$> st_objs (final_state ssn_closed) !! "j2" = Some PodGroupInqueue.
Proof.
  split_and!; [apply run_final|reflexivity..| |]; vm_compute; reflexivity.
Qed.

(** [closed_queue_job_pending_unless_admitted] at job j2 of [ssn_closed]. *)
Lemma closed_queue_job_j2 :
  ∃ st, run ssn_closed = Returned st ∧
    (job_Phase <$> st_objs st !! "j2" = Some PodGroupPending ∨
     (job_Phase <$> st_objs st !! "j2" = Some PodGroupInqueue ∧
      ∃ ev, ev ∈ st_trace st ∧ ev_key ev = "j2" ∧
            ev_job ev = sample_job "j2" "q1" (Some (cpu 1000)) PodGroupPending ∧
            (job_MinResources (sample_job "j2" "q1" (Some (cpu 1000)) PodGroupPending)
               = None ∨
             ∃ rl, job_MinResources
                     (sample_job "j2" "q1" (Some (cpu 1000)) PodGroupPending) = Some rl ∧
                   JobEnqueueable ssn_closed
                     (sample_job "j2" "q1" (Some (cpu 1000)) PodGroupPending) = true ∧
                   res_LessEqual (NewResource rl) (ev_idle ev) = true))).
Proof.
  destruct (closed_queue_job_pending_unless_admitted parse_sample ssn_closed)
    as (st & Hst & H).
  exists st. split; [exact Hst|].
  apply (H "j2" _ (sample_queue "q1" QueueStateClosed)); reflexivity.
Defined.

(** [admission_condition] on scenario S5: job c is popped last, fails the
    test and is Pending at the end. *)
Lemma admission_condition_S5 :
  ∃ ev, ev ∈ st_trace (final_state ssn_S5) ∧ ev_key ev = "c" ∧
        ev_inqueue ev = false ∧
        job_Phase <$> st_objs (final_state ssn_S5) !! "c" = Some PodGroupPending.
Proof.
  pose proof popped_S5 as Hk. pose proof inqueue_S5 as Hi.
  pose proof (run_final ssn_S5) as Hrun. unfold run in Hrun.
  destruct (admission_condition parse_sample ssn_S5) as (st & Hst & _ & _ & _ & H).
  rewrite Hst in Hrun. apply Returned_inj in Hrun. rewrite <- Hrun in *.
  clear Hrun Hst. unfold popped in Hk.
  apply fmap_cons_inv in Hk as (ev & trace & Hkey & _ & Htr).
  rewrite Htr in Hi, H |- *. injection Hi as Hi _.
  exists ev. destruct (H ev) as (_ & _ & _ & _ & Hend); [left|].
  rewrite <- Hkey, Hi in Hend. split_and!; [left|done|exact Hi|exact Hend].
Defined.

(** A factor below 1: of the 3 CPU that 0.5 * 10 - 2 leaves, the first job
    takes 2 and the second does not fit. *)
Example run_low_factor :
  headroom_defined parse_sample ssn_low_factor = true ∧
  final_phases (run ssn_low_factor)
  = Some [("j1", PodGroupInqueue); ("j2", PodGroupPending)].
Proof. split; vm_compute; reflexivity. Qed.


(** *** More runs *)

(** A cluster without nodes: one Open queue with a Pending job that asks for
    nothing. *)
Definition ssn_no_nodes : Session :=
  {| ssn_Jobs := {[ "j1" := sample_job "j1" "q1" None PodGroupPending ]};
     ssn_Queues := {[ "q1" := sample_queue "q1" QueueStateOpen ]};
     ssn_Nodes := ∅;
     ssn_Configurations := [];
     QueueOrderFn := λ _ _, false;
     JobOrderFn := by_name;
     JobEnqueueable := λ _, true |}.

(** [empty_idle_admits_nothing] on the cluster without nodes. *)
Lemma empty_idle_no_nodes :
  ∃ st, run ssn_no_nodes = Returned st ∧ st_trace st = [] ∧
        st_objs st = ssn_Jobs ssn_no_nodes.
Proof.
  apply (empty_idle_admits_nothing parse_sample ssn_no_nodes).
  vm_compute. reflexivity.
Defined.

Lemma queues_keyed_S5 : queues_keyed_by_UID ssn_S5.
Proof.
  intros q queue Hq. unfold ssn_S5 in Hq. cbn [ssn_Queues] in Hq.
  by apply lookup_singleton_Some in Hq as [<- <-].
Qed.

Lemma jobs_keyed_S5 : keyed_by_UID ssn_S5.
Proof.
  intros key job H. unfold ssn_S5 in H. cbn [ssn_Jobs] in H.
  repeat (apply lookup_insert_Some in H as [[<- <-]|[_ H]]; [reflexivity|]).
  by apply lookup_singleton_Some in H as [<- <-].
Qed.

(** [every_pending_job_considered] on scenario S5, where 2 CPU are left at
    the end: all three jobs were popped. *)
Lemma every_pending_job_considered_S5 :
  "a" ∈ popped (final_state ssn_S5) ∧ "b" ∈ popped (final_state ssn_S5) ∧
  "c" ∈ popped (final_state ssn_S5).
Proof.
  destruct (every_pending_job_considered parse_sample ssn_S5 (final_state ssn_S5)
              queues_keyed_S5 (run_final ssn_S5)) as [_ Hall].
  assert (Hidle : res_IsEmpty (st_idle (final_state ssn_S5)) = false)
    by (vm_compute; reflexivity).
  split_and!.
  - apply (Hall Hidle "a" (sample_job "a" "q" (Some (cpu 5000)) PodGroupPending)
             (sample_queue "q" QueueStateOpen)); reflexivity.
  - apply (Hall Hidle "b" (sample_job "b" "q" (Some (cpu 5000)) PodGroupPending)
             (sample_queue "q" QueueStateOpen)); reflexivity.
  - apply (Hall Hidle "c" (sample_job "c" "q" (Some (cpu 5000)) PodGroupPending)
             (sample_queue "q" QueueStateOpen)); reflexivity.
Defined.

(** [jobs_after_keyed_by_UID] on scenario S5. *)
Lemma jobs_after_S5 : jobs_after (final_state ssn_S5) = st_objs (final_state ssn_S5).
Proof.
  apply (jobs_after_keyed_by_UID parse_sample ssn_S5 (final_state ssn_S5) jobs_keyed_S5
           (run_final ssn_S5)).
Defined.

(** [idle_conservation] on scenario S5, in the cpu dimension. *)
Lemma idle_conservation_S5 :
  (quantity (st_idle (final_state ssn_S5)) "cpu"
   + Qsum (λ e : JobID * JobInfo, min_quantity "cpu" e.2)
          (moved ssn_S5 (final_state ssn_S5))
   == getOverCommitFactor parse_sample ssn_S5 * total_allocatable ssn_S5 "cpu"
      - total_used ssn_S5 "cpu")%Q ∧
  (0 <= quantity (st_idle (final_state ssn_S5)) "cpu")%Q.
Proof.
  apply (idle_conservation parse_sample ssn_S5 (final_state ssn_S5) "cpu").
  - apply run_final.
  - vm_compute. reflexivity.
Defined.

End Enqueue.

(** ** pkg/controllers/job/job_controller.go: processNextReq *)

Module JobController.

(** maxRetries is the number of times a volcano job will be retried before
    it is dropped out of the queue. *)
Definition maxRetries : nat := 15.

(** apis.Request *)
Record Request := {
  req_Namespace : string;
  req_JobName : string;
  req_TaskName : string;
  req_QueueName : string;
  req_Event : string;
  req_ExitCode : Z;
  req_Action : string;
  req_JobVersion : Z;
}.

#[export] Instance Request_eq_dec : EqDecision Request.
Proof. solve_decision. Defined.

(** busv1alpha1.Action and batchv1alpha1.JobEvent are Go string types. *)
Definition Action := string.
Definition SyncJobAction : Action := "SyncJob".
Definition ExecuteAction : string := "ExecuteAction".

(** The part of apis.JobInfo (its Job) that processNextReq reads. *)
Record JobInfo := {
  job_Namespace : string;
  job_Name : string;
  job_Phase : string;
}.

(** An event recorded on a job. *)
Record JobEventRecord := {
  rec_Namespace : string;
  rec_Name : string;
  rec_Event : string;
  rec_Message : string;
}.

(** *** The rate-limited work queue

    Modelled from the spec: workqueue.RateLimitingInterface with the
    controller rate limiter, a library outside the repository.  The queue
    holds each item once ([wq_dirty]), hands an item out to one worker at a
    time ([wq_processing]), counts the requeues of each item
    ([wq_failures]) and delays a rate-limited add by 5 ms doubled per
    earlier requeue, at most 1000 s, or by what the overall token bucket asks
    for if that is longer.  Delays are in milliseconds. *)
Definition Duration := N.
Record WorkQueue := {
  wq_queue : list Request;
  wq_dirty : list Request;
  wq_processing : list Request;
  wq_failures : Request → nat;
  wq_waiting : list (Request * Duration);
  wq_shuttingDown : bool;
}.

Definition member (item : Request) (l : list Request) : bool :=
  bool_decide (item ∈ l).

Definition remove (item : Request) (l : list Request) : list Request :=
  filter (λ x, x ≠ item) l.

Definition wq_Add (q : WorkQueue) (item : Request) : WorkQueue :=
  if wq_shuttingDown q then q
  else if member item (wq_dirty q) then q
  else
    {| wq_queue := if member item (wq_processing q) then wq_queue q
                   else wq_queue q ++ [item];
       wq_dirty := item :: wq_dirty q;
       wq_processing := wq_processing q;
       wq_failures := wq_failures q;
       wq_waiting := wq_waiting q;
       wq_shuttingDown := wq_shuttingDown q |}.

Inductive GetResult :=
  | Got (item : Request) (q : WorkQueue)
  | ShutDown
  | Blocks.

Definition wq_Get (q : WorkQueue) : GetResult :=
  match wq_queue q with
  | [] => if wq_shuttingDown q then ShutDown else Blocks
  | item :: rest =>
      Got item
        {| wq_queue := rest;
           wq_dirty := remove item (wq_dirty q);
           wq_processing := item :: wq_processing q;
           wq_failures := wq_failures q;
           wq_waiting := wq_waiting q;
           wq_shuttingDown := wq_shuttingDown q |}
  end.

Definition wq_Done (q : WorkQueue) (item : Request) : WorkQueue :=
  {| wq_queue := if member item (wq_dirty q) then wq_queue q ++ [item]
                 else wq_queue q;
     wq_dirty := wq_dirty q;
     wq_processing := remove item (wq_processing q);
     wq_failures := wq_failures q;
     wq_waiting := wq_waiting q;
     wq_shuttingDown := wq_shuttingDown q |}.

Definition wq_NumRequeues (q : WorkQueue) (item : Request) : nat :=
  wq_failures q item.

Definition set_failures (f : Request → nat) (item : Request) (n : nat) : Request → nat :=
  λ x, if decide (x = item) then n else f x.

Definition wq_Forget (q : WorkQueue) (item : Request) : WorkQueue :=
  {| wq_queue := wq_queue q; wq_dirty := wq_dirty q;
     wq_processing := wq_processing q;
     wq_failures := set_failures (wq_failures q) item 0;
     wq_waiting := wq_waiting q;
     wq_shuttingDown := wq_shuttingDown q |}.

Definition baseDelay : Duration := 5%N.
Definition maxDelay : Duration := 1000000%N.

(** The delay of the per-item limiter after [n] earlier requeues. *)
Definition backoff (n : nat) : Duration :=
  N.min (baseDelay * 2 ^ N.of_nat n)%N maxDelay.

Definition wq_AddAfter (q : WorkQueue) (item : Request) (delay : Duration) : WorkQueue :=
  if wq_shuttingDown q then q
  else if (delay =? 0)%N then wq_Add q item
  else
    {| wq_queue := wq_queue q; wq_dirty := wq_dirty q;
       wq_processing := wq_processing q;
       wq_failures := wq_failures q;
       wq_waiting := wq_waiting q ++ [(item, delay)];
       wq_shuttingDown := wq_shuttingDown q |}.

(** [bucket] is the wait the overall token bucket asks for at this call. *)
Definition wq_AddRateLimited (q : WorkQueue) (item : Request) (bucket : Duration) : WorkQueue :=
  let n := wq_failures q item in
  let counted :=
    {| wq_queue := wq_queue q; wq_dirty := wq_dirty q;
       wq_processing := wq_processing q;
       wq_failures := set_failures (wq_failures q) item (S n);
       wq_waiting := wq_waiting q;
       wq_shuttingDown := wq_shuttingDown q |} in
  wq_AddAfter counted item (N.max (backoff n) bucket).

(** *** The controller *)

Record Controller := {
  queueList : list WorkQueue;
  cache : gmap string JobInfo;
  events : list JobEventRecord;
  workers : N;
}.

Section ProcessNextReq.
(** What processNextReq calls and the sources do not hold: the FNV hash of
    hash/fnv, state.NewState (nil is [None]) and the state's Execute (nil
    error is [None]), applyPolicies, and the token bucket's wait. *)
Context (State : Type).
Context (hashVal : string → N).
Context (NewState : JobInfo → option State).
Context (Execute : State → Action → option string).
Context (applyPolicies : JobInfo → Request → Action).
Context (bucket : Duration).

(** Modelled from the spec: jobcache.JobKeyByReq, which is not among the
    sources: namespace and job name. *)
Definition JobKeyByReq (req : Request) : string :=
  req_Namespace req +:+ "/" +:+ req_JobName req.

(** Modelled from the spec: recordJobEvent, which is not among the sources:
    records an event on the job. *)
Definition recordJobEvent (cc : Controller) (namespace name event message : string)
    : Controller :=
  {| queueList := queueList cc; cache := cache cc;
     events := events cc ++ [ {| rec_Namespace := namespace; rec_Name := name;
                                 rec_Event := event; rec_Message := message |} ];
     workers := workers cc |}.

Definition belongsToThisRoutine (cc : Controller) (key : string) (count : N) : bool :=
  bool_decide ((hashVal key mod workers cc)%N = count).

Definition set_queue (cc : Controller) (i : nat) (q : WorkQueue) : Controller :=
  {| queueList := <[i := q]> (queueList cc); cache := cache cc;
     events := events cc; workers := workers cc |}.

(** [processNextReq] blocks in [queue.Get], panics (index out of range, or a
    modulus of zero), or returns its boolean with the controller as it left
    it. *)
Inductive result :=
  | Blocked
  | Panicked
  | Return (continue : bool) (cc : Controller).

(** The deferred [queue.Done(req)] on the worker's own queue. *)
Definition done_and_return (count : N) (req : Request) (continue : bool)
    (cc : Controller) : result :=
  match queueList cc !! N.to_nat count with
  | None => Panicked
  | Some queue => Return continue (set_queue cc (N.to_nat count) (wq_Done queue req))
  end.

Definition processNextReq (cc : Controller) (count : N) : result :=
  match queueList cc !! N.to_nat count with
  | None => Panicked
  | Some queue =>
      match wq_Get queue with
      | Blocks => Blocked
      | ShutDown => Return false cc
      | Got req queue =>
          let cc := set_queue cc (N.to_nat count) queue in
          let key := JobKeyByReq req in
          if (workers cc =? 0)%N then Panicked
          else if negb (belongsToThisRoutine cc key count) then
            let i := N.to_nat (hashVal key mod workers cc)%N in
            match queueList cc !! i with
            | None => Panicked
            | Some queueLocal =>
                done_and_return count req true
                  (set_queue cc i (wq_Add queueLocal req))
            end
          else
            match cache cc !! JobKeyByReq req with
            | None => done_and_return count req true cc
            | Some jobInfo =>
                match NewState jobInfo with
                | None => done_and_return count req true cc
                | Some st =>
                    let action := applyPolicies jobInfo req in
                    let cc :=
                      if decide (action ≠ SyncJobAction) then
                        recordJobEvent cc (job_Namespace jobInfo) (job_Name jobInfo)
                          ExecuteAction ("Start to execute action " +:+ action +:+ " ")
                      else cc in
                    match Execute st action with
                    | Some err =>
                        if decide (wq_NumRequeues queue req < maxRetries) then
                          done_and_return count req true
                            (set_queue cc (N.to_nat count)
                               (wq_AddRateLimited queue req bucket))
                        else
                          let cc :=
                            recordJobEvent cc (job_Namespace jobInfo) (job_Name jobInfo)
                              ExecuteAction
                              ("Job failed on action " +:+ action
                               +:+ " for retry limit reached") in
                          done_and_return count req true
                            (set_queue cc (N.to_nat count) (wq_Forget queue req))
                    | None =>
                        done_and_return count req true
                          (set_queue cc (N.to_nat count) (wq_Forget queue req))
                    end
                end
            end
      end
  end.

(** *** Retry and drop *)

Lemma member_remove item l : member item (remove item l) = false.
Proof.
  unfold member, remove. apply bool_decide_eq_false.
  rewrite list_elem_of_filter. by intros [Hne _].
Qed.

Lemma not_elem_of_remove item l : item ∉ remove item l.
Proof. unfold remove. rewrite list_elem_of_filter. by intros [Hne _]. Qed.

Lemma backoff_below_maxRetries n :
  n < maxRetries → backoff n = (5 * 2 ^ N.of_nat n)%N.
Proof.
  unfold maxRetries. intros Hn.
  do 15 (destruct n as [|n]; [vm_compute; reflexivity|]). lia.
Qed.

(** The requeue delays listed in the source next to [maxRetries]. *)
Example backoff_table :
  backoff <$> seq 0 maxRetries
  = [5; 10; 20; 40; 80; 160; 320; 640; 1280; 2560; 5120; 10240; 20480;
     40960; 81920]%N.
Proof. vm_compute. reflexivity. Qed.

Lemma wq_Get_Got queue0 req queue :
  wq_Get queue0 = Got req queue →
  wq_queue queue0 = req :: wq_queue queue ∧
  wq_dirty queue = remove req (wq_dirty queue0) ∧
  wq_processing queue = req :: wq_processing queue0 ∧
  wq_failures queue = wq_failures queue0 ∧
  wq_waiting queue = wq_waiting queue0 ∧
  wq_shuttingDown queue = wq_shuttingDown queue0.
Proof.
  unfold wq_Get. destruct (wq_queue queue0) as [|item rest].
  - by destruct (wq_shuttingDown queue0).
  - by intros [= <- <-].
Qed.

Lemma done_and_return_set cc count req continue q :
  N.to_nat count < length (queueList cc) →
  done_and_return count req continue (set_queue cc (N.to_nat count) q)
  = Return continue (set_queue cc (N.to_nat count) (wq_Done q req)).
Proof.
  intros Hlt. unfold done_and_return. simpl.
  rewrite list_lookup_insert_eq by done.
  unfold set_queue. simpl. by rewrite list_insert_insert_eq.
Qed.

(** The event recorded on entry when the action is not SyncJob. *)
Definition started (jobInfo : JobInfo) (action : Action) : list JobEventRecord :=
  if decide (action ≠ SyncJobAction) then
    [ {| rec_Namespace := job_Namespace jobInfo; rec_Name := job_Name jobInfo;
         rec_Event := ExecuteAction;
         rec_Message := "Start to execute action " +:+ action +:+ " " |} ]
  else [].

(** C8: bounded retry with drop on exhaustion.  A request taken from the
    worker's queue whose job is in the cache and has a state is handed to
    the state machine.  When that fails and the request's requeue count is
    below maxRetries = 15, the request is added back rate-limited: its count
    goes up by one and, unless the queue is shutting down, it waits for
    5 ms * 2^count (or for the token bucket, if longer).  When the count has
    reached 15, it is not added back, the event "Job failed on action ...
    for retry limit reached" is recorded on the job and the count is
    forgotten.  When the state machine succeeds the count is forgotten.  In
    every case processNextReq returns true and the request is neither in
    the queue's head position nor in processing any more. *)
Theorem processNextReq_retry cc count queue0 req queue jobInfo st :
  queueList cc !! N.to_nat count = Some queue0 →
  wq_Get queue0 = Got req queue →
  workers cc ≠ 0%N →
  belongsToThisRoutine cc (JobKeyByReq req) count = true →
  cache cc !! JobKeyByReq req = Some jobInfo →
  NewState jobInfo = Some st →
  ∃ cc' q',
    processNextReq cc count = Return true cc' ∧
    queueList cc' !! N.to_nat count = Some q' ∧
    wq_queue q' = tail (wq_queue queue0) ∧
    (req ∉ wq_processing q') ∧
    match Execute st (applyPolicies jobInfo req) with
    | Some err =>
        if decide (wq_NumRequeues queue0 req < maxRetries) then
          wq_NumRequeues q' req = S (wq_NumRequeues queue0 req) ∧
          events cc' = events cc ++ started jobInfo (applyPolicies jobInfo req) ∧
          (wq_shuttingDown queue0 = false →
           wq_waiting q' =
             wq_waiting queue0 ++
             [(req, N.max (5 * 2 ^ N.of_nat (wq_NumRequeues queue0 req)) bucket)]) ∧
          (wq_shuttingDown queue0 = true → wq_waiting q' = wq_waiting queue0)
        else
          wq_NumRequeues q' req = 0 ∧
          wq_waiting q' = wq_waiting queue0 ∧
          events cc' =
            events cc ++ started jobInfo (applyPolicies jobInfo req) ++
            [ {| rec_Namespace := job_Namespace jobInfo;
                 rec_Name := job_Name jobInfo;
                 rec_Event := ExecuteAction;
                 rec_Message := "Job failed on action "
                                +:+ (applyPolicies jobInfo req)
                                +:+ " for retry limit reached" |} ]
    | None =>
        wq_NumRequeues q' req = 0 ∧
        wq_waiting q' = wq_waiting queue0 ∧
        events cc' = events cc ++ started jobInfo (applyPolicies jobInfo req)
    end.
Proof.
  intros Hq Hget Hw Hbelongs Hcache Hstate.
  destruct (wq_Get_Got _ _ _ Hget) as (Hqueue & Hdirty & Hproc & Hfail & Hwait & Hshut).
  unfold processNextReq. rewrite Hq, Hget. simpl.
  apply N.eqb_neq in Hw. rewrite Hw.
  change (belongsToThisRoutine (set_queue cc (N.to_nat count) queue)
            (JobKeyByReq req) count)
    with (belongsToThisRoutine cc (JobKeyByReq req) count).
  rewrite Hbelongs, Hcache, Hstate. simpl.
  pose proof (lookup_lt_Some _ _ _ Hq) as Hlt.
  assert (Hnd : member req (wq_dirty queue) = false)
    by (rewrite Hdirty; apply member_remove).
  pose proof (not_elem_of_remove req (wq_processing queue)) as Hnp.
  set (action := applyPolicies jobInfo req).
  set (cc1 := if decide (action ≠ SyncJobAction) then _ else _).
  assert (Hlen : N.to_nat count < length (queueList cc1)).
  { subst cc1. destruct (decide _); simpl; by rewrite length_insert. }
  assert (Hev : events cc1 = events cc ++ started jobInfo action).
  { subst cc1. unfold started. destruct (decide _); simpl; [done|].
    by rewrite app_nil_r. }
  clearbody cc1.
  unfold wq_NumRequeues. rewrite Hqueue, <- Hfail. simpl.
  destruct (Execute st action) as [err|];
    [destruct (decide (wq_failures queue req < maxRetries)) as [Hn|Hn]|].
  - rewrite done_and_return_set by done.
    eexists _, _. split; [reflexivity|]. simpl.
    rewrite list_lookup_insert_eq by done. split; [reflexivity|].
    unfold wq_AddRateLimited, wq_AddAfter. simpl.
    rewrite backoff_below_maxRetries by done.
    replace (N.max (5 * 2 ^ N.of_nat (wq_failures queue req)) bucket =? 0)%N
      with false by (symmetry; apply N.eqb_neq; lia).
    rewrite Hshut, <- Hwait. destruct (wq_shuttingDown queue0); simpl;
      rewrite Hnd; unfold set_failures; rewrite decide_True by done;
      split_and!; done.
  - rewrite done_and_return_set by done.
    eexists _, _. split; [reflexivity|]. simpl.
    rewrite list_lookup_insert_eq by done. split; [reflexivity|]. simpl.
    rewrite Hnd, Hev, <- app_assoc. unfold set_failures.
    rewrite decide_True by done. split_and!; done.
  - rewrite done_and_return_set by done.
    eexists _, _. split; [reflexivity|]. simpl.
    rewrite list_lookup_insert_eq by done. split; [reflexivity|]. simpl.
    rewrite Hnd. unfold set_failures.
    rewrite decide_True by done. split_and!; done.
Qed.

(** *** The other ways through processNextReq *)

(** [val%cc.workers], the index that belongsToThisRoutine compares with the
    worker's number and getWorkerQueue reads the queue list at. *)
Definition owner (cc : Controller) (key : string) : N :=
  (hashVal key mod workers cc)%N.

(** getWorkerQueue; [None] is the panic of a zero modulus or of an index out
    of range. *)
Definition getWorkerQueue (cc : Controller) (key : string) : option WorkQueue :=
  if (workers cc =? 0)%N then None else queueList cc !! N.to_nat (owner cc key).

(** NewJobController makes one queue per worker. *)
Definition one_queue_per_worker (cc : Controller) : Prop :=
  length (queueList cc) = N.to_nat (workers cc).

(** worker: [for cc.processNextReq(i) { }].  The worker waits in
    [queue.Get], returns when processNextReq reports false, or panics. *)
Inductive worker_result :=
  | WorkerWaits (cc : Controller)
  | WorkerReturned (cc : Controller)
  | WorkerPanicked
  | WorkerOutOfFuel.

Fixpoint worker (fuel : nat) (cc : Controller) (i : N) : worker_result :=
  match fuel with
  | O => WorkerOutOfFuel
  | S fuel =>
      match processNextReq cc i with
      | Blocked => WorkerWaits cc
      | Panicked => WorkerPanicked
      | Return true cc' => worker fuel cc' i
      | Return false cc' => WorkerReturned cc'
      end
  end.

Lemma done_and_return_lookup cc count req continue q :
  queueList cc !! N.to_nat count = Some q →
  done_and_return count req continue cc
  = Return continue (set_queue cc (N.to_nat count) (wq_Done q req)).
Proof. intros Hq. unfold done_and_return. by rewrite Hq. Qed.

Lemma done_and_return_true count req cc continue cc' :
  done_and_return count req true cc = Return continue cc' → continue = true.
Proof.
  unfold done_and_return. destruct (queueList cc !! N.to_nat count); [|done].
  by intros [= <- _].
Qed.

Lemma done_and_return_not_Blocked count req continue cc :
  done_and_return count req continue cc ≠ Blocked.
Proof. unfold done_and_return. by destruct (queueList cc !! N.to_nat count). Qed.

Lemma wq_Add_dirty q req : wq_shuttingDown q = false → req ∈ wq_dirty (wq_Add q req).
Proof.
  intros Hs. unfold wq_Add, member. rewrite Hs. case_bool_decide as Hd; [done|].
  simpl. left.
Qed.

(** A rate-limited add below the retry limit never lands in the queue at
    once. *)
Lemma wq_AddRateLimited_line q req :
  wq_failures q req < maxRetries →
  wq_queue (wq_AddRateLimited q req bucket) = wq_queue q ∧
  wq_dirty (wq_AddRateLimited q req bucket) = wq_dirty q ∧
  wq_processing (wq_AddRateLimited q req bucket) = wq_processing q ∧
  wq_shuttingDown (wq_AddRateLimited q req bucket) = wq_shuttingDown q.
Proof.
  intros Hn. unfold wq_AddRateLimited, wq_AddAfter. simpl.
  rewrite backoff_below_maxRetries by done.
  replace (N.max (5 * 2 ^ N.of_nat (wq_failures q req)) bucket =? 0)%N
    with false by (symmetry; apply N.eqb_neq; lia).
  by destruct (wq_shuttingDown q).
Qed.

Ltac close_pass :=
  eexists _, _; split; [reflexivity|]; simpl;
  rewrite list_lookup_insert_eq by (rewrite ?length_insert; lia);
  split; [reflexivity|]; simpl; rewrite ?length_insert.

(** One pass over a request that [Get] handed out, whatever branch it
    takes. *)
Lemma processNextReq_pass cc count queue0 req queue :
  one_queue_per_worker cc →
  queueList cc !! N.to_nat count = Some queue0 →
  wq_Get queue0 = Got req queue →
  ∃ cc' q',
    processNextReq cc count = Return true cc' ∧
    queueList cc' !! N.to_nat count = Some q' ∧
    wq_queue q' = tail (wq_queue queue0) ∧
    wq_shuttingDown q' = wq_shuttingDown queue0 ∧
    length (queueList cc') = length (queueList cc) ∧
    workers cc' = workers cc ∧ cache cc' = cache cc ∧
    events cc `prefix_of` events cc'.
Proof.
  unfold one_queue_per_worker. intros Hwf Hq Hget.
  destruct (wq_Get_Got _ _ _ Hget) as (Hqueue & Hdirty & Hproc & Hfail & Hwait & Hshut).
  pose proof (lookup_lt_Some _ _ _ Hq) as Hlt.
  assert (Hw : workers cc ≠ 0%N) by lia.
  assert (Hnd : member req (wq_dirty queue) = false)
    by (rewrite Hdirty; apply member_remove).
  unfold processNextReq. rewrite Hq, Hget. simpl.
  apply N.eqb_neq in Hw as Hw'. rewrite Hw'.
  change (belongsToThisRoutine (set_queue cc (N.to_nat count) queue)
            (JobKeyByReq req) count)
    with (belongsToThisRoutine cc (JobKeyByReq req) count).
  rewrite Hqueue. simpl.
  destruct (belongsToThisRoutine cc (JobKeyByReq req) count) eqn:Hbelongs; simpl.
  2:{ apply bool_decide_eq_false in Hbelongs.
      assert (Hi : N.to_nat (hashVal (JobKeyByReq req) mod workers cc)%N
                   < length (queueList cc)).
      { pose proof (N.mod_lt (hashVal (JobKeyByReq req)) (workers cc) Hw). lia. }
      assert (Hne : N.to_nat count ≠ N.to_nat (hashVal (JobKeyByReq req) mod workers cc)%N).
      { intros Heq. apply Hbelongs. by apply N2Nat.inj. }
      destruct (lookup_lt_is_Some_2 _ _ Hi) as [local Hlocal].
      rewrite list_lookup_insert_ne by done. rewrite Hlocal.
      rewrite (done_and_return_lookup _ _ _ _ queue).
      2:{ simpl. rewrite list_lookup_insert_ne by done.
          by rewrite list_lookup_insert_eq. }
      close_pass. by rewrite Hnd. }
  destruct (cache cc !! JobKeyByReq req) as [jobInfo|].
  2:{ rewrite done_and_return_set by done. close_pass. by rewrite Hnd. }
  destruct (NewState jobInfo) as [st|].
  2:{ rewrite done_and_return_set by done. close_pass. by rewrite Hnd. }
  set (action := applyPolicies jobInfo req).
  set (cc1 := if decide (action ≠ SyncJobAction) then _ else _).
  assert (Hlen : length (queueList cc1) = length (queueList cc)).
  { subst cc1. destruct (decide _); simpl; by rewrite length_insert. }
  assert (Hev : events cc `prefix_of` events cc1).
  { subst cc1. destruct (decide _); simpl; [by eexists|done]. }
  assert (Hwk : workers cc1 = workers cc) by (subst cc1; by destruct (decide _)).
  assert (Hca : cache cc1 = cache cc) by (subst cc1; by destruct (decide _)).
  clearbody cc1.
  destruct (Execute st action) as [err|];
    [destruct (decide (wq_NumRequeues queue req < maxRetries)) as [Hn|Hn]|].
  - rewrite done_and_return_set by by rewrite Hlen.
    destruct (wq_AddRateLimited_line queue req Hn) as (Hl1 & Hl2 & Hl3 & Hl4).
    close_pass. by rewrite Hl1, Hl2, Hl4, Hnd.
  - rewrite done_and_return_set by (simpl; by rewrite Hlen).
    close_pass. rewrite Hnd. split_and!; [done..|].
    by apply prefix_app_r.
  - rewrite done_and_return_set by by rewrite Hlen.
    close_pass. by rewrite Hnd.
Qed.

(** A request that reached the wrong worker is handed on, not handled: the
    worker adds it to the queue its key hashes to, which is another queue and
    one whose worker accepts the key, takes it off its own queue, and
    touches nothing else: no event is recorded, the cache is not asked, the
    requeue count and the delayed adds stay, the other queues stay. *)
Theorem processNextReq_forwards cc count queue0 req queue :
  one_queue_per_worker cc →
  queueList cc !! N.to_nat count = Some queue0 →
  wq_Get queue0 = Got req queue →
  belongsToThisRoutine cc (JobKeyByReq req) count = false →
  ∃ cc' own local,
    processNextReq cc count = Return true cc' ∧
    owner cc (JobKeyByReq req) ≠ count ∧
    belongsToThisRoutine cc' (JobKeyByReq req) (owner cc (JobKeyByReq req)) = true ∧
    getWorkerQueue cc (JobKeyByReq req) = Some local ∧
    getWorkerQueue cc' (JobKeyByReq req) = Some (wq_Add local req) ∧
    (wq_shuttingDown local = false → req ∈ wq_dirty (wq_Add local req)) ∧
    queueList cc' !! N.to_nat count = Some own ∧
    wq_queue own = tail (wq_queue queue0) ∧
    (req ∉ wq_processing own) ∧
    wq_failures own = wq_failures queue0 ∧
    wq_waiting own = wq_waiting queue0 ∧
    events cc' = events cc ∧ cache cc' = cache cc ∧
    (∀ k, k ≠ N.to_nat count → k ≠ N.to_nat (owner cc (JobKeyByReq req)) →
          queueList cc' !! k = queueList cc !! k).
Proof.
  unfold one_queue_per_worker, getWorkerQueue, owner. intros Hwf Hq Hget Hbelongs.
  destruct (wq_Get_Got _ _ _ Hget) as (Hqueue & Hdirty & Hproc & Hfail & Hwait & Hshut).
  pose proof (lookup_lt_Some _ _ _ Hq) as Hlt.
  assert (Hw : workers cc ≠ 0%N) by lia.
  assert (Hnd : member req (wq_dirty queue) = false)
    by (rewrite Hdirty; apply member_remove).
  pose proof (not_elem_of_remove req (wq_processing queue)) as Hnp.
  unfold processNextReq. rewrite Hq, Hget. simpl.
  apply N.eqb_neq in Hw as Hw'. rewrite Hw'.
  change (belongsToThisRoutine (set_queue cc (N.to_nat count) queue)
            (JobKeyByReq req) count)
    with (belongsToThisRoutine cc (JobKeyByReq req) count).
  rewrite Hbelongs, Hqueue. simpl.
  apply bool_decide_eq_false in Hbelongs.
  assert (Hi : N.to_nat (hashVal (JobKeyByReq req) mod workers cc)%N
               < length (queueList cc)).
  { pose proof (N.mod_lt (hashVal (JobKeyByReq req)) (workers cc) Hw). lia. }
  assert (Hne : N.to_nat count ≠ N.to_nat (hashVal (JobKeyByReq req) mod workers cc)%N).
  { intros Heq. apply Hbelongs. by apply N2Nat.inj. }
  destruct (lookup_lt_is_Some_2 _ _ Hi) as [local Hlocal].
  rewrite list_lookup_insert_ne by done. rewrite Hlocal.
  rewrite (done_and_return_lookup _ _ _ _ queue).
  2:{ simpl. rewrite list_lookup_insert_ne by done.
      by rewrite list_lookup_insert_eq. }
  eexists _, _, local. split; [reflexivity|]. simpl. rewrite Hw'.
  split; [done|]. split; [by apply bool_decide_eq_true|].
  split; [done|]. split.
  { rewrite list_lookup_insert_ne by done.
    by rewrite list_lookup_insert_eq by by rewrite length_insert. }
  split; [apply wq_Add_dirty|].
  rewrite list_lookup_insert_eq by (rewrite ?length_insert; lia).
  split; [reflexivity|]. simpl. rewrite Hnd.
  split_and!; [done..|].
  intros k Hk1 Hk2. by rewrite !list_lookup_insert_ne.
Qed.

(** A request whose job the cache does not hold, or whose job has no valid
    state, is dropped without a trace: it is taken off the queue and not
    added again, now or later, no event is recorded, and its requeue count
    is left as it is (no Forget). *)
Theorem processNextReq_drops_unknown_job cc count queue0 req queue :
  queueList cc !! N.to_nat count = Some queue0 →
  wq_Get queue0 = Got req queue →
  workers cc ≠ 0%N →
  belongsToThisRoutine cc (JobKeyByReq req) count = true →
  cache cc !! JobKeyByReq req = None ∨
    (∃ jobInfo, cache cc !! JobKeyByReq req = Some jobInfo ∧ NewState jobInfo = None) →
  ∃ cc' q',
    processNextReq cc count = Return true cc' ∧
    queueList cc' !! N.to_nat count = Some q' ∧
    wq_queue q' = tail (wq_queue queue0) ∧
    wq_dirty q' = remove req (wq_dirty queue0) ∧
    (req ∉ wq_processing q') ∧
    wq_NumRequeues q' req = wq_NumRequeues queue0 req ∧
    wq_waiting q' = wq_waiting queue0 ∧
    events cc' = events cc ∧ cache cc' = cache cc.
Proof.
  intros Hq Hget Hw Hbelongs Hmiss.
  destruct (wq_Get_Got _ _ _ Hget) as (Hqueue & Hdirty & Hproc & Hfail & Hwait & Hshut).
  pose proof (lookup_lt_Some _ _ _ Hq) as Hlt.
  assert (Hnd : member req (wq_dirty queue) = false)
    by (rewrite Hdirty; apply member_remove).
  pose proof (not_elem_of_remove req (wq_processing queue)) as Hnp.
  unfold processNextReq. rewrite Hq, Hget. simpl.
  apply N.eqb_neq in Hw. rewrite Hw.
  change (belongsToThisRoutine (set_queue cc (N.to_nat count) queue)
            (JobKeyByReq req) count)
    with (belongsToThisRoutine cc (JobKeyByReq req) count).
  rewrite Hbelongs, Hqueue. simpl. unfold wq_NumRequeues.
  destruct Hmiss as [->|(jobInfo & -> & ->)];
    rewrite done_and_return_set by done;
    (eexists _, _; split; [reflexivity|]; simpl;
     rewrite list_lookup_insert_eq by done;
     split; [reflexivity|]; simpl; rewrite Hnd, Hfail; done).
Qed.

(** processNextReq reports false, which ends the worker's loop, only when
    its queue is shut down and drained, and then it has changed nothing; it
    waits in [Get] exactly when the queue is empty and not shut down. *)
Theorem processNextReq_stops cc count cc' :
  (processNextReq cc count = Return false cc' ↔
   cc' = cc ∧ ∃ queue0, queueList cc !! N.to_nat count = Some queue0 ∧
                        wq_queue queue0 = [] ∧ wq_shuttingDown queue0 = true) ∧
  (processNextReq cc count = Blocked ↔
   ∃ queue0, queueList cc !! N.to_nat count = Some queue0 ∧
             wq_queue queue0 = [] ∧ wq_shuttingDown queue0 = false).
Proof.
  unfold processNextReq.
  destruct (queueList cc !! N.to_nat count) as [queue0|]; simpl.
  2:{ split; (split; [done|]); [intros (_ & ? & ? & _)|intros (? & ? & _)]; done. }
  unfold wq_Get.
  destruct (wq_queue queue0) as [|req rest] eqn:Hqueue; simpl.
  { destruct (wq_shuttingDown queue0) eqn:Hshut; split; split.
    - intros [= <-]. eauto.
    - by intros [-> _].
    - done.
    - intros (? & [= <-] & _ & ?). congruence.
    - done.
    - intros (_ & ? & [= <-] & _ & ?). congruence.
    - eauto.
    - done. }
  split; split.
  - intros H. exfalso. revert H.
    repeat case_match; try done; intros Hr; by apply done_and_return_true in Hr.
  - intros (_ & ? & [= <-] & ? & _). congruence.
  - intros H. exfalso. revert H.
    repeat case_match; try done; intros Hr; by apply done_and_return_not_Blocked in Hr.
  - intros (? & [= <-] & ? & _). congruence.
Qed.


Lemma worker_S fuel cc i :
  worker (S fuel) cc i =
  match processNextReq cc i with
  | Blocked => WorkerWaits cc
  | Panicked => WorkerPanicked
  | Return true cc' => worker fuel cc' i
  | Return false cc' => WorkerReturned cc'
  end.
Proof. reflexivity. Qed.

(** A worker with nothing new coming in makes one pass per request in its
    queue and then stops: it waits in [Get] with its queue empty, or returns
    when the queue had been shut down.  No request is handled twice and none
    puts itself back at once. *)
Theorem worker_drains cc count q :
  one_queue_per_worker cc →
  queueList cc !! N.to_nat count = Some q →
  ∃ cc' q',
    worker (S (length (wq_queue q))) cc count
    = (if wq_shuttingDown q then WorkerReturned cc' else WorkerWaits cc') ∧
    queueList cc' !! N.to_nat count = Some q' ∧ wq_queue q' = [] ∧
    workers cc' = workers cc ∧ cache cc' = cache cc ∧
    events cc `prefix_of` events cc'.
Proof.
  intros Hwf Hq. remember (length (wq_queue q)) as n eqn:Hn.
  revert cc q Hwf Hq Hn. induction n as [|n IH]; intros cc q Hwf Hq Hn.
  - destruct (wq_queue q) eqn:Hqueue; [|done].
    rewrite worker_S. unfold processNextReq. rewrite Hq. unfold wq_Get. rewrite Hqueue.
    exists cc, q. by destruct (wq_shuttingDown q).
  - destruct (wq_queue q) as [|req rest] eqn:Hqueue; [done|]. injection Hn as Hn.
    edestruct (processNextReq_pass cc count q req)
      as (cc1 & q1 & Hrun & Hq1 & Hqueue1 & Hshut1 & Hlen1 & Hw1 & Hc1 & He1);
      [done|done|unfold wq_Get; rewrite Hqueue; reflexivity|].
    rewrite Hqueue in Hqueue1. simpl in Hqueue1.
    destruct (IH cc1 q1) as (cc' & q' & Hrun' & Hq' & Hqueue' & Hw' & Hc' & He');
      [unfold one_queue_per_worker in *; congruence|done|by rewrite Hqueue1|].
    exists cc', q'. rewrite worker_S, Hrun, Hrun', Hshut1.
    split_and!; [done..|congruence|congruence|by etrans].
Qed.

(** Routing is a function of the key: with one queue per worker and at least
    one worker, getWorkerQueue finds a queue (it does not panic), it is the
    queue of the one worker whose belongsToThisRoutine accepts the key, and
    that worker's number is below [workers].  Without workers getWorkerQueue
    panics on the zero modulus. *)
Theorem getWorkerQueue_owner cc key :
  one_queue_per_worker cc →
  (workers cc ≠ 0%N →
   (owner cc key < workers cc)%N ∧
   (∃ q, getWorkerQueue cc key = Some q ∧
         queueList cc !! N.to_nat (owner cc key) = Some q) ∧
   ∀ count, belongsToThisRoutine cc key count = true ↔ count = owner cc key) ∧
  (workers cc = 0%N → getWorkerQueue cc key = None).
Proof.
  unfold one_queue_per_worker, getWorkerQueue, owner, belongsToThisRoutine.
  intros Hwf. split.
  - intros Hw. pose proof (N.mod_lt (hashVal key) (workers cc) Hw) as Hlt.
    split; [done|]. split.
    + apply N.eqb_neq in Hw as ->.
      destruct (lookup_lt_is_Some_2 (queueList cc)
                  (N.to_nat (hashVal key mod workers cc)%N)) as [q Hq]; [lia|].
      by exists q.
    + intros count. rewrite bool_decide_eq_true. split; by intros ->.
  - by intros ->.
Qed.

End ProcessNextReq.

(** *** A request whose job always fails *)

Definition sample_req : Request :=
  {| req_Namespace := "default"; req_JobName := "job1"; req_TaskName := "";
     req_QueueName := ""; req_Event := "OutOfSync"; req_ExitCode := 0;
     req_Action := "RestartJob"; req_JobVersion := 0 |}.

Definition sample_queue (requeues : nat) : WorkQueue :=
  {| wq_queue := [sample_req]; wq_dirty := [sample_req]; wq_processing := [];
     wq_failures := λ _, requeues; wq_waiting := []; wq_shuttingDown := false |}.

Definition sample_controller (requeues : nat) : Controller :=
  {| queueList := [sample_queue requeues];
     cache := {[ "default/job1" :=
                   {| job_Namespace := "default"; job_Name := "job1";
                      job_Phase := "Running" |} ]};
     events := []; workers := 1 |}.

(** One worker, every state valid, every execution failing, the action taken
    from the request, no wait for the token bucket. *)
Definition always_failing (cc : Controller) : result :=
  processNextReq unit (λ _, 0%N) (λ _, Some tt) (λ _ _, Some "failed")
                 (λ _ req, req_Action req) 0%N cc 0%N.

(** The timer of a delayed add fires: the first waiting item is added. *)
Definition fire (q : WorkQueue) : WorkQueue :=
  match wq_waiting q with
  | [] => q
  | (item, _) :: rest =>
      wq_Add {| wq_queue := wq_queue q; wq_dirty := wq_dirty q;
                wq_processing := wq_processing q; wq_failures := wq_failures q;
                wq_waiting := rest; wq_shuttingDown := wq_shuttingDown q |} item
  end.

(** [rounds] passes of the worker, each followed by the timer; the delays of
    the rate-limited adds are collected on the way. *)
Fixpoint attempts (rounds : nat) (cc : Controller) (delays : list Duration)
    : Controller * list Duration :=
  match rounds with
  | O => (cc, delays)
  | S rounds =>
      match always_failing cc with
      | Return _ cc' =>
          match queueList cc' with
          | q :: _ => attempts rounds (set_queue cc' 0 (fire q))
                               (delays ++ (snd <$> wq_waiting q))
          | [] => (cc', delays)
          end
      | _ => (cc, delays)
      end
  end.

Definition summary (rounds : nat)
    : list Duration * list string * option (nat * nat * nat) :=
  let '(cc, delays) := attempts rounds (sample_controller 0) [] in
  (delays, rec_Message <$> events cc,
   (λ q, (wq_NumRequeues q sample_req, length (wq_queue q), length (wq_waiting q)))
     <$> queueList cc !! 0).

(** Fifteen failing attempts requeue the request with the delays of the
    table; it is then in the queue with a requeue count of 15. *)
Example fifteen_attempts :
  summary 15
  = ([5; 10; 20; 40; 80; 160; 320; 640; 1280; 2560; 5120; 10240; 20480; 40960;
      81920]%N,
     repeat "Start to execute action RestartJob " 15,
     Some (15, 1, 0)).
Proof. vm_compute. reflexivity. Qed.

(** The sixteenth failing attempt drops it with an event. *)
Example sixteenth_attempt :
  summary 16
  = ([5; 10; 20; 40; 80; 160; 320; 640; 1280; 2560; 5120; 10240; 20480; 40960;
      81920]%N,
     repeat "Start to execute action RestartJob " 16
       ++ ["Job failed on action RestartJob for retry limit reached"],
     Some (0, 0, 0)).
Proof. vm_compute. reflexivity. Qed.

(** [processNextReq_retry] at a request that has been requeued 15 times. *)
Lemma processNextReq_retry_sample :
  ∃ cc' q',
    always_failing (sample_controller 15) = Return true cc' ∧
    queueList cc' !! 0 = Some q' ∧
    wq_queue q' = [] ∧
    (sample_req ∉ wq_processing q') ∧
    wq_NumRequeues q' sample_req = 0 ∧
    wq_waiting q' = [] ∧
    rec_Message <$> events cc'
    = ["Start to execute action RestartJob ";
       "Job failed on action RestartJob for retry limit reached"].
Proof.
  destruct (processNextReq_retry unit (λ _, 0%N) (λ _, Some tt)
              (λ _ _, Some "failed") (λ _ req, req_Action req) 0%N
              (sample_controller 15) 0%N (sample_queue 15) sample_req
              {| wq_queue := []; wq_dirty := []; wq_processing := [sample_req];
                 wq_failures := λ _, 15; wq_waiting := [];
                 wq_shuttingDown := false |}
              {| job_Namespace := "default"; job_Name := "job1";
                 job_Phase := "Running" |} tt)
    as (cc' & q' & Hrun & Hq & Hqueue & Hproc & Hdrop);
    [reflexivity|reflexivity|discriminate|reflexivity|reflexivity|reflexivity|].
  simpl in Hdrop. destruct Hdrop as (Hn & Hw & Hev).
  exists cc', q'. split_and!; [exact Hrun|exact Hq|exact Hqueue|exact Hproc|
                               exact Hn|exact Hw|].
  rewrite Hev. reflexivity.
Defined.

(** *** Two workers *)

Definition empty_queue : WorkQueue :=
  {| wq_queue := []; wq_dirty := []; wq_processing := [];
     wq_failures := λ _, 0; wq_waiting := []; wq_shuttingDown := false |}.

(** Worker 0 holds [sample_req] in its queue; the key hashes to worker 1. *)
Definition two_workers : Controller :=
  {| queueList := [sample_queue 0; empty_queue]; cache := ∅; events := [];
     workers := 2 |}.

(** [processNextReq_forwards] at worker 0 of [two_workers]. *)
Lemma processNextReq_forwards_sample :
  ∃ cc' own local,
    processNextReq unit (λ _, 1%N) (λ _, Some tt) (λ _ _, Some "failed")
                   (λ _ req, req_Action req) 0%N two_workers 0%N
    = Return true cc' ∧
    getWorkerQueue (λ _, 1%N) cc' "default/job1" = Some (wq_Add local sample_req) ∧
    queueList cc' !! 0 = Some own ∧ wq_queue own = [] ∧ events cc' = [].
Proof.
  destruct (processNextReq_forwards unit (λ _, 1%N) (λ _, Some tt)
              (λ _ _, Some "failed") (λ _ req, req_Action req) 0%N
              two_workers 0%N (sample_queue 0) sample_req
              {| wq_queue := []; wq_dirty := []; wq_processing := [sample_req];
                 wq_failures := λ _, 0; wq_waiting := [];
                 wq_shuttingDown := false |})
    as (cc' & own & local & Hrun & _ & _ & _ & Hlocal & _ & Hown & Hqueue & _ & _ & _
        & Hev & _); [reflexivity..|].
  exists cc', own, local. split_and!; [exact Hrun|exact Hlocal|exact Hown|exact Hqueue|exact Hev].
Defined.

(** A controller whose cache does not hold the job of [sample_req]. *)
Definition forgetful_controller : Controller :=
  {| queueList := [sample_queue 3]; cache := ∅; events := []; workers := 1 |}.

(** [processNextReq_drops_unknown_job] on [forgetful_controller]: the
    request is gone and its requeue count is still 3. *)
Lemma processNextReq_drops_sample :
  ∃ cc' q',
    always_failing forgetful_controller = Return true cc' ∧
    queueList cc' !! 0 = Some q' ∧ wq_queue q' = [] ∧ wq_dirty q' = [] ∧
    wq_NumRequeues q' sample_req = 3 ∧ wq_waiting q' = [] ∧ events cc' = [].
Proof.
  destruct (processNextReq_drops_unknown_job unit (λ _, 0%N) (λ _, Some tt)
              (λ _ _, Some "failed") (λ _ req, req_Action req) 0%N
              forgetful_controller 0%N (sample_queue 3) sample_req
              {| wq_queue := []; wq_dirty := []; wq_processing := [sample_req];
                 wq_failures := λ _, 3; wq_waiting := [];
                 wq_shuttingDown := false |})
    as (cc' & q' & Hrun & Hq & Hqueue & Hdirty & _ & Hn & Hw & Hev & _);
    [reflexivity|reflexivity|discriminate|reflexivity|left; reflexivity|].
  exists cc', q'.
  split_and!; [exact Hrun|exact Hq|exact Hqueue|exact Hdirty|exact Hn|exact Hw|exact Hev].
Defined.


(** [worker_drains] on that controller: one pass, then the worker waits. *)
Lemma worker_drains_sample :
  ∃ cc' q',
    worker unit (λ _, 0%N) (λ _, Some tt) (λ _ _, Some "failed")
           (λ _ req, req_Action req) 0%N 2 (sample_controller 0) 0%N
    = WorkerWaits cc' ∧
    queueList cc' !! 0 = Some q' ∧ wq_queue q' = [].
Proof.
  destruct (worker_drains unit (λ _, 0%N) (λ _, Some tt) (λ _ _, Some "failed")
              (λ _ req, req_Action req) 0%N (sample_controller 0) 0%N
              (sample_queue 0)) as (cc' & q' & Hrun & Hq & Hqueue & _);
    [reflexivity..|].
  exists cc', q'. split_and!; [exact Hrun|exact Hq|exact Hqueue].
Defined.

(** [getWorkerQueue_owner] on [two_workers]: the key of [sample_req]
    belongs to worker 1, whose queue is the second one. *)
Lemma getWorkerQueue_owner_sample :
  getWorkerQueue (λ _, 1%N) two_workers "default/job1" = Some empty_queue ∧
  belongsToThisRoutine (λ _, 1%N) two_workers "default/job1" 1 = true ∧
  belongsToThisRoutine (λ _, 1%N) two_workers "default/job1" 0 = false.
Proof.
  destruct (getWorkerQueue_owner (λ _, 1%N) two_workers "default/job1") as [Hsome _];
    [reflexivity|].
  destruct Hsome as (_ & (q & Hq & Hlookup) & Hbelongs); [discriminate|].
  injection Hlookup as <-.
  split_and!; [exact Hq|by apply Hbelongs|reflexivity].
Defined.

End JobController.

(** ** pkg/controllers/garbagecollector/garbagecollector.go *)

Module GarbageCollector.
Local Open Scope Z_scope.

(** An instant, in nanoseconds since the zero [time.Time]. *)
Definition Time := Z.
(** [time.Duration]: an int64 count of nanoseconds. *)
Definition Duration := Z.
Definition Second : Duration := 1000000000.
Definition minDuration : Duration := - 2 ^ 63.
Definition maxDuration : Duration := 2 ^ 63 - 1.

(** Two's-complement wrap-around of int64 arithmetic. *)
Definition int64 (z : Z) : Z := (z + 2 ^ 63) mod 2 ^ 64 - 2 ^ 63.

(** [t.Sub(u)]: the difference, saturated to the range of a Duration. *)
Definition time_Sub (t u : Time) : Duration :=
  Z.max minDuration (Z.min maxDuration (t - u)).

(** [t.Add(d)] *)
Definition time_Add (t : Time) (d : Duration) : Time := t + d.

(** [t.IsZero()] *)
Definition IsZero (t : Time) : bool := bool_decide (t = 0).

(** v1alpha1.JobPhase is a Go string type. *)
Definition Completed : string := "Completed".
Definition Failed : string := "Failed".
Definition Terminated : string := "Terminated".

(** v1alpha1.Job, with the fields the collector reads.
    [job_TTLSecondsAfterFinished] is an [*int32]. *)
Record Job := {
  job_Namespace : string;
  job_Name : string;
  job_UID : string;
  job_DeletionTimestamp : option Time;
  job_TTLSecondsAfterFinished : option Z;
  job_Phase : string;
  job_LastTransitionTime : Time;
}.

#[export] Instance Job_eq_dec : EqDecision Job.
Proof. solve_decision. Defined.

Definition is_int32 (z : Z) : Prop := - 2 ^ 31 ≤ z < 2 ^ 31.

Definition isJobFinished (job : Job) : bool :=
  bool_decide (job_Phase job = Completed) ||
  bool_decide (job_Phase job = Failed) ||
  bool_decide (job_Phase job = Terminated).

(** needsCleanup checks whether a Job has finished and has a TTL set. *)
Definition needsCleanup (j : Job) : bool :=
  bool_decide (job_TTLSecondsAfterFinished j ≠ None) && isJobFinished j.

Definition job_label (j : Job) : string := job_Namespace j +:+ "/" +:+ job_Name j.

(** jobFinishTime takes an already finished Job and returns the time it
    finishes. *)
Definition jobFinishTime (finishedJob : Job) : Time + string :=
  if IsZero (job_LastTransitionTime finishedJob) then
    inr ("unable to find the time when the Job " +:+ job_label finishedJob
         +:+ " finished")
  else inl (job_LastTransitionTime finishedJob).

Definition getFinishAndExpireTime (j : Job) : (Time * Time) + string :=
  if negb (needsCleanup j) then
    inr ("job " +:+ job_label j +:+ " should not be cleaned up")
  else
    match jobFinishTime j with
    | inr err => inr err
    | inl finishAt =>
        let ttl := default 0 (job_TTLSecondsAfterFinished j) in
        let expireAt := time_Add finishAt (int64 (ttl * Second)) in
        inl (finishAt, expireAt)
    end.

Definition timeLeft (j : Job) (since : Time) : Duration + string :=
  match getFinishAndExpireTime j with
  | inr err => inr err
  | inl (finishAt, expireAt) => inl (time_Sub expireAt since)
  end.

(** controller.KeyFunc: namespace/name, or the name alone in the empty
    namespace. *)
Definition KeyFunc (job : Job) : string :=
  if decide (job_Namespace job = "") then job_Name job
  else job_Namespace job +:+ "/" +:+ job_Name job.

(** What the work queue is asked to do. *)
Inductive QueueCall :=
  | AddAfter (key : string) (after : Duration).

Definition enqueueAfter (job : Job) (after : Duration) : list QueueCall :=
  [AddAfter (KeyFunc job) after].

(** processTTL checks whether a given Job's TTL has expired, and add it to
    the queue after the TTL is expected to expire if the TTL will expire
    later.  [now] is what time.Now() returns inside the call.  The result is
    [(expired, err)] with the queue calls made. *)
Definition processTTL (job : Job) (now : Time) : bool * option string * list QueueCall :=
  if bool_decide (job_DeletionTimestamp job ≠ None) || negb (needsCleanup job) then
    (false, None, [])
  else
    match timeLeft job now with
    | inr err => (false, Some err, [])
    | inl t =>
        if bool_decide (t ≤ 0) then (true, None, [])
        else (false, None, enqueueAfter job t)
    end.

(** The answer of a lister or of the API server to a Get. *)
Inductive GetResult :=
  | Found (job : Job)
  | NotFound
  | GetFailed (err : string).

(** A Delete sent to the API server: the name, the propagation policy and
    the UID precondition. *)
Record DeleteCall := {
  del_Namespace : string;
  del_Name : string;
  del_PropagationPolicy : string;
  del_PreconditionUID : string;
}.

Definition DeletePropagationForeground : string := "Foreground".

(** Modelled from the spec: the cluster API's Delete with preconditions, an
    external collaborator: the object is deleted when it exists and its UID
    is the one the precondition names; otherwise nothing changes and an
    error comes back. *)
Definition api_Delete (server : gmap (string * string) Job) (call : DeleteCall)
    : gmap (string * string) Job * option string :=
  match server !! (del_Namespace call, del_Name call) with
  | None => (server, Some "not found")
  | Some current =>
      if decide (job_UID current = del_PreconditionUID call) then
        (delete (del_Namespace call, del_Name call) server, None)
      else (server, Some "conflict: the UID precondition failed")
  end.

(** What one call of processJob meets outside the collector: the split of
    the key (cache.SplitMetaNamespaceKey), the lister's copy, the clock at
    the first check, the API server's copy, the clock at the second check,
    and the API server's store when the Delete arrives. *)
Record Env := {
  SplitMetaNamespaceKey : string → (string * string) + string;
  lister_Get : string → string → GetResult;
  now_cached : Time;
  client_Get : string → string → GetResult;
  now_fresh : Time;
  server : gmap (string * string) Job;
}.

(** What processJob returns and leaves behind: the error (nil is [None]),
    the queue calls, the Delete calls, and the API server's store. *)
Record Outcome := {
  out_err : option string;
  out_queue : list QueueCall;
  out_deletes : list DeleteCall;
  out_server : gmap (string * string) Job;
}.

Definition leave (env : Env) (err : option string) (calls : list QueueCall) : Outcome :=
  {| out_err := err; out_queue := calls; out_deletes := [];
     out_server := server env |}.

(** processJob will check the Job's state and TTL and delete the Job when it
    finishes and its TTL after finished has expired. *)
Definition processJob (env : Env) (key : string) : Outcome :=
  match SplitMetaNamespaceKey env key with
  | inr err => leave env (Some err) []
  | inl (namespace, name) =>
      match lister_Get env namespace name with
      | NotFound => leave env None []
      | GetFailed err => leave env (Some err) []
      | Found job =>
          match processTTL job (now_cached env) with
          | (_, Some err, calls) => leave env (Some err) calls
          | (false, None, calls) => leave env None calls
          | (true, None, calls) =>
              match client_Get env namespace name with
              | NotFound => leave env None calls
              | GetFailed err => leave env (Some err) calls
              | Found fresh =>
                  match processTTL fresh (now_fresh env) with
                  | (_, Some err, calls') => leave env (Some err) (calls ++ calls')
                  | (false, None, calls') => leave env None (calls ++ calls')
                  | (true, None, calls') =>
                      let options :=
                        {| del_Namespace := job_Namespace fresh;
                           del_Name := job_Name fresh;
                           del_PropagationPolicy := DeletePropagationForeground;
                           del_PreconditionUID := job_UID fresh |} in
                      let '(server', err) := api_Delete (server env) options in
                      {| out_err := err; out_queue := calls ++ calls';
                         out_deletes := [options]; out_server := server' |}
                  end
              end
          end
      end
  end.

(** The TTL-expiry check as C9 words it. *)
Definition passes (job : Job) (now : Time) : Prop :=
  job_DeletionTimestamp job = None ∧
  (job_Phase job = Completed ∨ job_Phase job = Failed ∨ job_Phase job = Terminated) ∧
  ∃ ttl, job_TTLSecondsAfterFinished job = Some ttl ∧
         job_LastTransitionTime job ≠ 0 ∧
         job_LastTransitionTime job + ttl * Second ≤ now.

(** *** The expiry check *)

Lemma int64_small z : - 2 ^ 63 ≤ z < 2 ^ 63 → int64 z = z.
Proof. intros H. unfold int64. rewrite Z.mod_small; lia. Qed.

Lemma int64_ttl ttl : is_int32 ttl → int64 (ttl * Second) = ttl * Second.
Proof.
  unfold is_int32, Second. intros H. apply int64_small.
  change (2 ^ 63) with 9223372036854775808.
  change (2 ^ 31) with 2147483648 in H. lia.
Qed.

Lemma time_Sub_nonpos t u : time_Sub t u ≤ 0 ↔ t ≤ u.
Proof.
  unfold time_Sub, minDuration, maxDuration.
  change (2 ^ 63) with 9223372036854775808. lia.
Qed.

Lemma isJobFinished_spec job :
  isJobFinished job = true ↔
  job_Phase job = Completed ∨ job_Phase job = Failed ∨ job_Phase job = Terminated.
Proof.
  unfold isJobFinished. rewrite !orb_true_iff, !bool_decide_eq_true. tauto.
Qed.

Definition ttl_is_int32 (job : Job) : Prop :=
  ∀ ttl, job_TTLSecondsAfterFinished job = Some ttl → is_int32 ttl.

(** [processTTL] reports expired exactly when the copy passes, and then it
    reports no error and touches no queue. *)
Lemma processTTL_expired job now :
  ttl_is_int32 job →
  ((processTTL job now).1.1 = true ↔ passes job now) ∧
  ((processTTL job now).1.1 = true → processTTL job now = (true, None, [])).
Proof.
  intros Hint. unfold processTTL, passes, needsCleanup, timeLeft,
    getFinishAndExpireTime, jobFinishTime, needsCleanup, IsZero.
  pose proof (isJobFinished_spec job) as Hfin.
  destruct (job_DeletionTimestamp job) as [ts|]; simpl.
  { split; [|done]. split; [done|]. by intros [? _]. }
  destruct (job_TTLSecondsAfterFinished job) as [ttl|] eqn:Httl; simpl.
  2:{ split; [|done]. split; [done|]. by intros (_ & _ & ? & ? & _). }
  destruct (isJobFinished job); simpl.
  2:{ split; [|done]. split; [done|]. intros (_ & Hp & _).
      by apply Hfin in Hp. }
  case_bool_decide as Hz; simpl.
  { split; [|done]. split; [done|]. intros (_ & _ & ? & _ & Hne & _). by destruct Hne. }
  rewrite (int64_ttl ttl) by by apply Hint.
  unfold time_Add. case_bool_decide as Hle; simpl.
  - split; [|done]. split; [|done]. intros _.
    apply (proj1 (time_Sub_nonpos _ _)) in Hle.
    split_and!; [done|by apply Hfin|]. by exists ttl.
  - split; [|done]. split; [done|]. intros (_ & _ & ? & [= <-] & _ & Hn).
    destruct Hle. apply (proj2 (time_Sub_nonpos _ _)), Hn.
Qed.

Lemma processTTL_true job now calls :
  ttl_is_int32 job →
  processTTL job now = (true, None, calls) → passes job now ∧ calls = [].
Proof.
  intros Hint Hp. destruct (processTTL_expired job now Hint) as [H1 H2].
  rewrite Hp in H1, H2. simpl in *. split; [by apply H1|].
  specialize (H2 eq_refl). by injection H2.
Qed.

Lemma api_Delete_spec server call server' err :
  api_Delete server call = (server', err) →
  server' = server ∨
  (∃ current, server !! (del_Namespace call, del_Name call) = Some current ∧
              job_UID current = del_PreconditionUID call ∧
              server' = delete (del_Namespace call, del_Name call) server).
Proof.
  unfold api_Delete.
  destruct (server !! (del_Namespace call, del_Name call)) as [current|] eqn:Hc.
  - destruct (decide _) as [Hu|Hu]; intros [= <- <-]; [right; eauto|by left].
  - intros [= <- <-]. by left.
Qed.

(** What a run of [processJob] that sent a Delete went through. *)
Lemma processJob_deletes env key call :
  (∀ ns name job, lister_Get env ns name = Found job → ttl_is_int32 job) →
  (∀ ns name job, client_Get env ns name = Found job → ttl_is_int32 job) →
  call ∈ out_deletes (processJob env key) →
  ∃ ns name cached fresh,
    SplitMetaNamespaceKey env key = inl (ns, name) ∧
    lister_Get env ns name = Found cached ∧
    client_Get env ns name = Found fresh ∧
    passes cached (now_cached env) ∧ passes fresh (now_fresh env) ∧
    call = {| del_Namespace := job_Namespace fresh; del_Name := job_Name fresh;
              del_PropagationPolicy := DeletePropagationForeground;
              del_PreconditionUID := job_UID fresh |} ∧
    out_deletes (processJob env key) = [call] ∧
    out_server (processJob env key) = (api_Delete (server env) call).1.
Proof.
  intros Hl Hc. unfold processJob.
  destruct (SplitMetaNamespaceKey env key) as [[ns name]|err]; simpl;
    [|by intros ?%elem_of_nil].
  destruct (lister_Get env ns name) as [cached| |err] eqn:Hcached; simpl;
    [|by intros ?%elem_of_nil..].
  destruct (processTTL cached (now_cached env)) as [[[] [err|]] calls] eqn:H1;
    simpl; [by intros ?%elem_of_nil| |by intros ?%elem_of_nil..].
  destruct (client_Get env ns name) as [fresh| |err] eqn:Hfresh; simpl;
    [|by intros ?%elem_of_nil..].
  destruct (processTTL fresh (now_fresh env)) as [[[] [err|]] calls'] eqn:H2;
    simpl; [by intros ?%elem_of_nil| |by intros ?%elem_of_nil..].
  destruct (api_Delete _ _) as [server' err] eqn:Hd. simpl.
  intros ->%list_elem_of_singleton.
  apply processTTL_true in H1 as [H1 _]; [|by eapply Hl].
  apply processTTL_true in H2 as [H2 _]; [|by eapply Hc].
  exists ns, name, cached, fresh. rewrite Hd. split_and!; done.
Qed.

(** Without a Delete the server's store is as it was. *)
Lemma processJob_no_delete env key :
  out_deletes (processJob env key) = [] →
  out_server (processJob env key) = server env.
Proof.
  unfold processJob.
  destruct (SplitMetaNamespaceKey env key) as [[ns name]|err]; simpl; [|done].
  destruct (lister_Get env ns name) as [cached| |err]; simpl; [|done..].
  destruct (processTTL cached (now_cached env)) as [[[] [err|]] calls];
    simpl; [done| |done..].
  destruct (client_Get env ns name) as [fresh| |err]; simpl; [|done..].
  destruct (processTTL fresh (now_fresh env)) as [[[] [err|]] calls'];
    simpl; [done| |done..].
  by destruct (api_Delete _ _).
Qed.

Lemma processJob_not_expired_cached env key ns name cached :
  SplitMetaNamespaceKey env key = inl (ns, name) →
  lister_Get env ns name = Found cached →
  (processTTL cached (now_cached env)).1.1 = false →
  out_deletes (processJob env key) = [].
Proof.
  intros Hs Hl Hp. unfold processJob. rewrite Hs, Hl.
  by destruct (processTTL cached (now_cached env)) as [[[] [err|]] calls].
Qed.

Lemma processJob_not_expired_fresh env key ns name fresh :
  SplitMetaNamespaceKey env key = inl (ns, name) →
  client_Get env ns name = Found fresh →
  (processTTL fresh (now_fresh env)).1.1 = false →
  out_deletes (processJob env key) = [].
Proof.
  intros Hs Hc Hp. unfold processJob. rewrite Hs.
  destruct (lister_Get env ns name) as [cached| |err]; simpl; [|done..].
  destruct (processTTL cached (now_cached env)) as [[[] [err|]] calls];
    simpl; [done| |done..].
  rewrite Hc.
  by destruct (processTTL fresh (now_fresh env)) as [[[] [err|]] calls'].
Qed.

(** C9: the collector deletes a Job only after the expiry check has passed
    twice, on the lister's copy and on the freshly fetched one, where a copy
    passes only if its DeletionTimestamp is nil, its TTL is set, its phase is
    Completed, Failed or Terminated and finish time plus TTL is at most the
    current time.  The one Delete it sends names the fresh copy and carries
    the fresh copy's UID as precondition, so whatever the server removes has
    that UID, and an object that holds the name with another UID stays.
    When either check reports not-expired no Delete is sent and the server's
    store is untouched. *)
Theorem processJob_deletes_only_expired env key :
  (∀ ns name job, lister_Get env ns name = Found job → ttl_is_int32 job) →
  (∀ ns name job, client_Get env ns name = Found job → ttl_is_int32 job) →
  (∀ call, call ∈ out_deletes (processJob env key) →
     ∃ ns name cached fresh,
       SplitMetaNamespaceKey env key = inl (ns, name) ∧
       lister_Get env ns name = Found cached ∧
       client_Get env ns name = Found fresh ∧
       passes cached (now_cached env) ∧ passes fresh (now_fresh env) ∧
       call = {| del_Namespace := job_Namespace fresh; del_Name := job_Name fresh;
                 del_PropagationPolicy := DeletePropagationForeground;
                 del_PreconditionUID := job_UID fresh |} ∧
       out_deletes (processJob env key) = [call]) ∧
  (∀ k victim,
     server env !! k = Some victim →
     out_server (processJob env key) !! k ≠ Some victim →
     ∃ ns name cached fresh,
       SplitMetaNamespaceKey env key = inl (ns, name) ∧
       lister_Get env ns name = Found cached ∧
       client_Get env ns name = Found fresh ∧
       passes cached (now_cached env) ∧ passes fresh (now_fresh env) ∧
       k = (job_Namespace fresh, job_Name fresh) ∧
       job_UID victim = job_UID fresh ∧
       out_server (processJob env key) = delete k (server env)) ∧
  (∀ ns name fresh k recreated,
     SplitMetaNamespaceKey env key = inl (ns, name) →
     client_Get env ns name = Found fresh →
     server env !! k = Some recreated →
     job_UID recreated ≠ job_UID fresh →
     out_server (processJob env key) !! k = Some recreated) ∧
  (∀ ns name cached,
     SplitMetaNamespaceKey env key = inl (ns, name) →
     lister_Get env ns name = Found cached →
     (processTTL cached (now_cached env)).1.1 = false →
     out_deletes (processJob env key) = [] ∧
     out_server (processJob env key) = server env) ∧
  (∀ ns name fresh,
     SplitMetaNamespaceKey env key = inl (ns, name) →
     client_Get env ns name = Found fresh →
     (processTTL fresh (now_fresh env)).1.1 = false →
     out_deletes (processJob env key) = [] ∧
     out_server (processJob env key) = server env).
Proof.
  intros Hl Hc.
  assert (Hremoved : ∀ k victim,
     server env !! k = Some victim →
     out_server (processJob env key) !! k ≠ Some victim →
     ∃ ns name cached fresh,
       SplitMetaNamespaceKey env key = inl (ns, name) ∧
       lister_Get env ns name = Found cached ∧
       client_Get env ns name = Found fresh ∧
       passes cached (now_cached env) ∧ passes fresh (now_fresh env) ∧
       k = (job_Namespace fresh, job_Name fresh) ∧
       job_UID victim = job_UID fresh ∧
       out_server (processJob env key) = delete k (server env)).
  { intros k victim Hk Hgone.
    destruct (out_deletes (processJob env key)) as [|call rest] eqn:Hd.
    { rewrite (processJob_no_delete env key Hd) in Hgone. done. }
    destruct (processJob_deletes env key call Hl Hc) as
      (ns & name & cached & fresh & Hs & Hcached & Hfresh & H1 & H2 & Hcall & _ & Hsrv).
    { rewrite Hd. left. }
    exists ns, name, cached, fresh. split_and!; [done..| | |].
    - destruct (api_Delete (server env) call) as [server' err] eqn:Hdel.
      simpl in Hsrv. rewrite Hsrv in Hgone.
      apply api_Delete_spec in Hdel as [->|(current & _ & _ & ->)]; [done|].
      destruct (decide (k = (del_Namespace call, del_Name call))) as [->|Hne].
      + by rewrite Hcall.
      + rewrite lookup_delete_ne in Hgone by done. done.
    - destruct (api_Delete (server env) call) as [server' err] eqn:Hdel.
      simpl in Hsrv. rewrite Hsrv in Hgone.
      apply api_Delete_spec in Hdel as [->|(current & Hcur & Hu & ->)]; [done|].
      destruct (decide (k = (del_Namespace call, del_Name call))) as [->|Hne].
      + rewrite Hcur in Hk. injection Hk as <-. by rewrite Hu, Hcall.
      + rewrite lookup_delete_ne in Hgone by done. done.
    - destruct (api_Delete (server env) call) as [server' err] eqn:Hdel.
      simpl in Hsrv. rewrite Hsrv in Hgone |- *.
      apply api_Delete_spec in Hdel as [->|(current & Hcur & Hu & ->)]; [done|].
      destruct (decide (k = (del_Namespace call, del_Name call))) as [->|Hne].
      + done.
      + rewrite lookup_delete_ne in Hgone by done. done. }
  split_and!.
  - intros call Hin.
    destruct (processJob_deletes env key call Hl Hc Hin) as
      (ns & name & cached & fresh & ? & ? & ? & ? & ? & ? & ? & _).
    by exists ns, name, cached, fresh.
  - exact Hremoved.
  - intros ns name fresh k recreated Hs Hfresh Hk Hu.
    destruct (decide (out_server (processJob env key) !! k = Some recreated))
      as [|Hgone]; [done|].
    destruct (Hremoved k recreated Hk Hgone) as
      (ns' & name' & _ & fresh' & Hs' & _ & Hfresh' & _ & _ & _ & Hu' & _).
    rewrite Hs in Hs'. injection Hs' as <- <-.
    rewrite Hfresh in Hfresh'. injection Hfresh' as <-. done.
  - intros ns name cached Hs Hcached Hp.
    pose proof (processJob_not_expired_cached env key ns name cached Hs Hcached Hp).
    split; [done|]. by apply processJob_no_delete.
  - intros ns name fresh Hs Hfresh Hp.
    pose proof (processJob_not_expired_fresh env key ns name fresh Hs Hfresh Hp).
    split; [done|]. by apply processJob_no_delete.
Qed.

(** *** A finished job whose name was taken over *)

Definition finished_job (uid : string) : Job :=
  {| job_Namespace := "default"; job_Name := "job1"; job_UID := uid;
     job_DeletionTimestamp := None;
     job_TTLSecondsAfterFinished := Some 60;
     job_Phase := Completed;
     job_LastTransitionTime := 1000 * Second |}.

Definition get_job1 (job : Job) (namespace name : string) : GetResult :=
  if decide (namespace = "default" ∧ name = "job1") then Found job else NotFound.

(** The lister and the server both hold job1 with UID "a", finished at second
    1000 with a TTL of 60 s; the checks run at seconds 1061 and 1062; when
    the Delete arrives the server holds [current] under that name. *)
Definition sample_env (current : Job) : Env :=
  {| SplitMetaNamespaceKey := λ _, inl ("default", "job1");
     lister_Get := get_job1 (finished_job "a");
     now_cached := 1061 * Second;
     client_Get := get_job1 (finished_job "a");
     now_fresh := 1062 * Second;
     server := {[ ("default", "job1") := current ]} |}.

(** The job is deleted when the server still holds it. *)
Example delete_expired :
  let out := processJob (sample_env (finished_job "a")) "default/job1" in
  out_err out = None ∧
  job_UID <$> out_server out !! ("default", "job1") = None ∧
  del_PreconditionUID <$> out_deletes out = ["a"].
Proof. vm_compute. repeat split. Qed.

(** A job re-created under the name with UID "b" stays. *)
Example keep_recreated :
  let out := processJob (sample_env (finished_job "b")) "default/job1" in
  out_err out = Some "conflict: the UID precondition failed" ∧
  job_UID <$> out_server out !! ("default", "job1") = Some "b" ∧
  del_PreconditionUID <$> out_deletes out = ["a"].
Proof. vm_compute. repeat split. Qed.

Lemma sample_ttl_is_int32 uid ns name job :
  get_job1 (finished_job uid) ns name = Found job → ttl_is_int32 job.
Proof.
  unfold get_job1. destruct (decide _); [|done]. intros [= <-] ttl [= <-].
  unfold is_int32. change (2 ^ 31) with 2147483648. lia.
Qed.

(** [processJob_deletes_only_expired] on [sample_env]: the re-created job
    with UID "b" is still there. *)
Lemma processJob_keeps_recreated :
  out_server (processJob (sample_env (finished_job "b")) "default/job1")
    !! ("default", "job1")
  = Some (finished_job "b").
Proof.
  destruct (processJob_deletes_only_expired
              (sample_env (finished_job "b")) "default/job1")
    as (_ & _ & Hkeep & _).
  - apply (sample_ttl_is_int32 "a").
  - apply (sample_ttl_is_int32 "a").
  - apply (Hkeep "default" "job1" (finished_job "a")); [reflexivity..|discriminate].
Defined.

(** *** The informer handlers and the worker *)

(** The calls the collector makes on its work queue. *)
Inductive QueueOp :=
  | OpAdd (key : string)
  | OpAddAfter (key : string) (after : Duration)
  | OpForget (key : string)
  | OpAddRateLimited (key : string)
  | OpDone (key : string).

Definition op_of_call (call : QueueCall) : QueueOp :=
  match call with AddAfter key after => OpAddAfter key after end.

Definition enqueue (job : Job) : list QueueOp := [OpAdd (KeyFunc job)].

Definition addJob (job : Job) : list QueueOp :=
  if bool_decide (job_DeletionTimestamp job = None) && needsCleanup job
  then enqueue job else [].

Definition updateJob (old cur : Job) : list QueueOp :=
  if bool_decide (job_DeletionTimestamp cur = None) && needsCleanup cur
  then enqueue cur else [].

Definition handleErr (err : option string) (key : string) : list QueueOp :=
  match err with
  | None => [OpForget key]
  | Some _ => [OpAddRateLimited key]
  end.

(** processNextWorkItem.  [get] is what [queue.Get] hands out, [None] when
    the queue reports that it is shut down.  The result is the boolean, the
    queue calls in order (the deferred Done last) and what processJob left
    behind. *)
Definition processNextWorkItem (get : option string) (env : Env)
    : bool * list QueueOp * option Outcome :=
  match get with
  | None => (false, [], None)
  | Some key =>
      let out := processJob env key in
      (true,
       (op_of_call <$> out_queue out) ++ handleErr (out_err out) key ++ [OpDone key],
       Some out)
  end.

(** A job that processTTL does not pass over: not being deleted, with a TTL,
    finished, and with the time of its last transition known. *)
Definition live (job : Job) (ttl : Z) : Prop :=
  job_DeletionTimestamp job = None ∧ job_TTLSecondsAfterFinished job = Some ttl ∧
  isJobFinished job = true ∧ job_LastTransitionTime job ≠ 0.

Definition expireAt (job : Job) (ttl : Z) : Time :=
  time_Add (job_LastTransitionTime job) (int64 (ttl * Second)).

(** The three ways through processTTL. *)
Lemma processTTL_cases job now :
  ((job_DeletionTimestamp job ≠ None ∨ needsCleanup job = false) ∧
   processTTL job now = (false, None, [])) ∨
  (job_DeletionTimestamp job = None ∧ job_TTLSecondsAfterFinished job ≠ None ∧
   isJobFinished job = true ∧ job_LastTransitionTime job = 0 ∧
   processTTL job now =
     (false,
      Some ("unable to find the time when the Job " +:+ job_label job +:+ " finished"),
      [])) ∨
  (∃ ttl, live job ttl ∧
     processTTL job now =
       if bool_decide (time_Sub (expireAt job ttl) now ≤ 0) then (true, None, [])
       else (false, None, [AddAfter (KeyFunc job) (time_Sub (expireAt job ttl) now)])).
Proof.
  unfold processTTL, timeLeft, getFinishAndExpireTime, jobFinishTime, live, expireAt,
    IsZero, enqueueAfter.
  destruct (job_DeletionTimestamp job) as [ts|] eqn:Hdt; simpl.
  { left. split; [by left|done]. }
  destruct (needsCleanup job) eqn:Hnc; simpl.
  2:{ left. split; [by right|done]. }
  unfold needsCleanup in Hnc. apply andb_true_iff in Hnc as [Httl Hfin].
  apply bool_decide_eq_true in Httl.
  destruct (job_TTLSecondsAfterFinished job) as [ttl|] eqn:Hsome; [|done].
  case_bool_decide as Hz; simpl.
  - right. left. done.
  - right. right. exists ttl. split; [done|]. by case_bool_decide.
Qed.

(** The handlers put a job's key into the queue exactly when the job is not
    being deleted, has a TTL and is finished, and that is exactly when
    processTTL will not pass over it: a job the handlers leave out is one for
    which processTTL reports not expired, no error, and asks for no later
    check.  updateJob looks at the new object alone. *)
Theorem handlers_enqueue_what_processTTL_checks old job :
  (addJob job = [OpAdd (KeyFunc job)] ∨ addJob job = []) ∧
  (addJob job = [OpAdd (KeyFunc job)] ↔
   job_DeletionTimestamp job = None ∧ job_TTLSecondsAfterFinished job ≠ None ∧
   (job_Phase job = Completed ∨ job_Phase job = Failed ∨ job_Phase job = Terminated)) ∧
  (addJob job = [] ↔ ∀ now, processTTL job now = (false, None, [])) ∧
  updateJob old job = addJob job.
Proof.
  unfold addJob, updateJob, enqueue.
  pose proof (isJobFinished_spec job) as Hfin.
  split_and!; [| | |done].
  - destruct (_ && _); auto.
  - unfold needsCleanup. split.
    + destruct (bool_decide (job_DeletionTimestamp job = None)) eqn:Hdt; [|done].
      destruct (bool_decide (job_TTLSecondsAfterFinished job ≠ None)) eqn:Httl; [|done].
      destruct (isJobFinished job); [|done]. intros _.
      apply bool_decide_eq_true in Hdt, Httl. split_and!; [done..|]. by apply Hfin.
    + intros (Hdt & Httl & Hph). apply Hfin in Hph.
      by rewrite (bool_decide_eq_true_2 _ Hdt), (bool_decide_eq_true_2 _ Httl), Hph.
  - split.
    + intros Hskip now.
      destruct (processTTL_cases job now)
        as [[_ ?]|[(Hdt & Httl & Hf & _)|(ttl & (Hdt & Httl & Hf & _) & _)]]; [done|..];
        exfalso; unfold needsCleanup in Hskip;
        rewrite (bool_decide_eq_true_2 _ Hdt), Hf in Hskip.
      * by rewrite (bool_decide_eq_true_2 _ Httl) in Hskip.
      * rewrite Httl in Hskip. by rewrite bool_decide_eq_true_2 in Hskip.
    + intros Hall. specialize (Hall 0).
      destruct (bool_decide (job_DeletionTimestamp job = None)) eqn:Hdt; [|done].
      destruct (needsCleanup job) eqn:Hnc; [|done]. exfalso.
      apply bool_decide_eq_true in Hdt.
      destruct (processTTL_cases job 0)
        as [[[?|?] _]|[(_ & _ & _ & _ & Hp)|(ttl & _ & Hp)]]; [done|congruence|..];
        rewrite Hall in Hp; [done|]. by case_bool_decide.
Qed.

(** processTTL fails in one case only: the job is not being deleted, has a
    TTL and is finished, but the time of its last transition is zero.  It
    then reports not expired and asks for no later check.  The error of
    getFinishAndExpireTime for a job that should not be cleaned up never
    comes out of processTTL. *)
Theorem processTTL_error job now err :
  ((processTTL job now).1.2 = Some err ↔
   job_DeletionTimestamp job = None ∧ job_TTLSecondsAfterFinished job ≠ None ∧
   isJobFinished job = true ∧ job_LastTransitionTime job = 0 ∧
   err = "unable to find the time when the Job " +:+ job_label job +:+ " finished") ∧
  ((processTTL job now).1.2 = Some err → processTTL job now = (false, Some err, [])).
Proof.
  destruct (processTTL_cases job now)
    as [[Hskip Hp]|[(Hdt & Httl & Hf & Hz & Hp)|(ttl & (Hdt & Httl & Hf & Hz) & Hp)]];
    rewrite Hp.
  - split; [|done]. split; [done|]. intros (Hdt & Httl & Hf & _).
    destruct Hskip as [|Hnc]; [done|]. unfold needsCleanup in Hnc.
    by rewrite (bool_decide_eq_true_2 _ Httl), Hf in Hnc.
  - simpl. split; [|by intros [= <-]]. split; [by intros [= <-]|].
    by intros (_ & _ & _ & _ & ->).
  - split; [|by case_bool_decide]. split; [by case_bool_decide|].
    by intros (_ & _ & _ & ? & _).
Qed.

(** When processTTL asks for a later check, it is one call: AddAfter with
    the job's key and the time left until finish time plus TTL, which is
    positive (for an int32 TTL the product with time.Second does not
    overflow).  Unless the delay was cut to the largest Duration, the check
    made after that delay finds the job expired. *)
Theorem processTTL_requeue job now calls :
  processTTL job now = (false, None, calls) → calls ≠ [] →
  ∃ ttl t,
    job_TTLSecondsAfterFinished job = Some ttl ∧
    calls = [AddAfter (KeyFunc job) t] ∧ 0 < t ∧
    (is_int32 ttl → t < maxDuration →
     t = job_LastTransitionTime job + ttl * Second - now) ∧
    (t < maxDuration → processTTL job (time_Add now t) = (true, None, [])).
Proof.
  intros Hp Hcalls.
  destruct (processTTL_cases job now)
    as [[_ Hp']|[(_ & _ & _ & _ & Hp')|(ttl & Hlive & Hp')]];
    rewrite Hp in Hp'; [by injection Hp'|done|].
  pose proof Hlive as (Hdt & Httl & Hf & Hz).
  case_bool_decide as Ht; [done|]. injection Hp' as ->.
  exists ttl, (time_Sub (expireAt job ttl) now).
  assert (Hexact : time_Sub (expireAt job ttl) now < maxDuration →
                   time_Sub (expireAt job ttl) now = expireAt job ttl - now).
  { revert Ht. unfold time_Sub, minDuration, maxDuration.
    change (2 ^ 63) with 9223372036854775808. lia. }
  split_and!; [done|done|lia| |].
  - intros Hint Hmax. rewrite (Hexact Hmax). unfold expireAt, time_Add.
    by rewrite (int64_ttl ttl Hint).
  - intros Hmax. specialize (Hexact Hmax).
    destruct (processTTL_cases job (time_Add now (time_Sub (expireAt job ttl) now)))
      as [[[?|Hnc] _]|[(_ & _ & _ & ? & _)|(ttl' & (_ & Httl' & _) & ->)]]; [done| |done|].
    + unfold needsCleanup in Hnc. rewrite Httl, Hf in Hnc.
      by rewrite bool_decide_eq_true_2 in Hnc.
    + rewrite Httl in Httl'. injection Httl' as <-.
      rewrite bool_decide_eq_true_2; [done|].
      apply (proj2 (time_Sub_nonpos _ _)). unfold time_Add. lia.
Qed.

(** A job that has expired stays expired: when processTTL reports expired at
    one time it does so at every later time, with no error and no call on
    the queue. *)
Theorem processTTL_stays_expired job now now' :
  (processTTL job now).1.1 = true → now ≤ now' →
  processTTL job now' = (true, None, []).
Proof.
  intros Hp Hle.
  destruct (processTTL_cases job now)
    as [[_ Hp']|[(_ & _ & _ & _ & Hp')|(ttl & Hlive & Hp')]];
    rewrite Hp' in Hp; [done..|].
  pose proof Hlive as (Hdt & Httl & Hf & Hz).
  case_bool_decide as Ht; [|done].
  destruct (processTTL_cases job now')
    as [[[?|Hnc] _]|[(_ & _ & _ & ? & _)|(ttl' & (_ & Httl' & _) & ->)]]; [done| |done|].
  - unfold needsCleanup in Hnc. rewrite Httl, Hf in Hnc.
    by rewrite bool_decide_eq_true_2 in Hnc.
  - rewrite Httl in Httl'. injection Httl' as <-.
    rewrite bool_decide_eq_true_2; [done|].
    apply (proj1 (time_Sub_nonpos _ _)) in Ht.
    apply (proj2 (time_Sub_nonpos _ _)). lia.
Qed.

Lemma processTTL_shape job now :
  processTTL job now = (false, None, []) ∨
  (∃ err, processTTL job now = (false, Some err, [])) ∨
  processTTL job now = (true, None, []) ∨
  (∃ t, 0 < t ∧ processTTL job now = (false, None, [AddAfter (KeyFunc job) t])).
Proof.
  destruct (processTTL_cases job now)
    as [[_ Hp]|[(_ & _ & _ & _ & Hp)|(ttl & _ & Hp)]]; rewrite Hp.
  - by left.
  - right. left. eauto.
  - case_bool_decide as Ht; [right; right; by left|].
    right. right. right. eexists. split; [|done]. lia.
Qed.

(** What a run of processJob asks of the queue and of the server. *)
Lemma processJob_actions env key :
  (out_queue (processJob env key) = [] ∧
   (length (out_deletes (processJob env key)) ≤ 1)%nat) ∨
  (∃ k t, 0 < t ∧ out_queue (processJob env key) = [AddAfter k t] ∧
          out_deletes (processJob env key) = [] ∧
          out_err (processJob env key) = None).
Proof.
  unfold processJob.
  destruct (SplitMetaNamespaceKey env key) as [[ns name]|err]; simpl;
    [|left; split; [done|lia]].
  destruct (lister_Get env ns name) as [cached| |err]; simpl;
    [|left; split; [done|lia]..].
  destruct (processTTL_shape cached (now_cached env))
    as [->|[[e ->]|[->|(t & Ht & ->)]]]; simpl;
    [left; split; [done|lia]..| |right; by eexists _, t].
  destruct (client_Get env ns name) as [fresh| |err]; simpl;
    [|left; split; [done|lia]..].
  destruct (processTTL_shape fresh (now_fresh env))
    as [->|[[e ->]|[->|(t & Ht & ->)]]]; simpl;
    [left; split; [done|lia]..| |right; by eexists _, t].
  destruct (api_Delete _ _). simpl. left. split; [done|lia].
Qed.

(** One run of processJob does at most one thing: it sends one Delete, or it
    asks for one later check, or neither.  A run that asks for a later check
    reports no error, and whenever no Delete is sent the server's store is
    as it was. *)
Theorem processJob_one_action env key :
  (length (out_deletes (processJob env key))
   + length (out_queue (processJob env key)) ≤ 1)%nat ∧
  (out_queue (processJob env key) ≠ [] → out_err (processJob env key) = None) ∧
  (out_deletes (processJob env key) = [] → out_server (processJob env key) = server env).
Proof.
  split_and!; [| |apply processJob_no_delete].
  - destruct (processJob_actions env key) as [[-> Hd]|(k & t & _ & -> & -> & _)];
      simpl; lia.
  - by destruct (processJob_actions env key) as [[-> _]|(k & t & _ & _ & _ & ->)].
Qed.

(** One pass of the collector's worker.  With the queue shut down it
    reports false and calls nothing.  Otherwise it reports true and, after
    what processJob asked of the queue, calls Forget when processJob
    returned nil and AddRateLimited when it returned an error, however often
    the key has failed before, and Done last.  It never adds the key back
    at once, and a pass that asks for a later check also calls Forget and
    sends no Delete. *)
Theorem processNextWorkItem_calls env key :
  processNextWorkItem None env = (false, [], None) ∧
  ∃ ops,
    processNextWorkItem (Some key) env = (true, ops ++ [OpDone key], Some (processJob env key)) ∧
    (out_err (processJob env key) = None → last ops = Some (OpForget key)) ∧
    (out_err (processJob env key) ≠ None → ops = [OpAddRateLimited key]) ∧
    (∀ k, OpAdd k ∉ ops ++ [OpDone key]) ∧
    (∀ k t, OpAddAfter k t ∈ ops →
            0 < t ∧ ops = [OpAddAfter k t; OpForget key] ∧
            out_deletes (processJob env key) = []).
Proof.
  split; [done|]. unfold processNextWorkItem.
  exists ((op_of_call <$> out_queue (processJob env key))
          ++ handleErr (out_err (processJob env key)) key).
  split; [by rewrite <- app_assoc|].
  destruct (processJob_actions env key) as [[Hq _]|(k & t & Ht & Hq & Hd & Hnoerr)].
  - rewrite Hq. simpl. destruct (out_err (processJob env key)) as [err|]; simpl.
    + split_and!; [done|done| |].
      * intros k' [[=]|[[=]|[]%elem_of_nil]%elem_of_cons]%elem_of_cons.
      * intros k' t' [[=]|[]%elem_of_nil]%elem_of_cons.
    + split_and!; [done|done| |].
      * intros k' [[=]|[[=]|[]%elem_of_nil]%elem_of_cons]%elem_of_cons.
      * intros k' t' [[=]|[]%elem_of_nil]%elem_of_cons.
  - rewrite Hnoerr, Hq. simpl.
    split_and!; [done|done| |].
    + intros k' [[=]|[[=]|[[=]|[]%elem_of_nil]%elem_of_cons]%elem_of_cons]%elem_of_cons.
    + intros k' t' [[= -> ->]|[[=]|[]%elem_of_nil]%elem_of_cons]%elem_of_cons. done.
Qed.

(** [processTTL_requeue] on the job that finished at second 1000 with a TTL
    of 60 s, checked at second 1030: the check asked for 30 s later finds it
    expired. *)
Lemma processTTL_requeue_sample :
  processTTL (finished_job "a") (1030 * Second)
  = (false, None, [AddAfter "default/job1" (30 * Second)]) ∧
  processTTL (finished_job "a") (time_Add (1030 * Second) (30 * Second))
  = (true, None, []).
Proof.
  assert (Hrun : processTTL (finished_job "a") (1030 * Second)
                 = (false, None, [AddAfter "default/job1" (30 * Second)]))
    by (vm_compute; reflexivity).
  destruct (processTTL_requeue (finished_job "a") (1030 * Second)
              [AddAfter "default/job1" (30 * Second)] Hrun)
    as (ttl & t & _ & Hcalls & _ & _ & Hagain); [discriminate|].
  injection Hcalls as <-. split; [exact Hrun|].
  apply Hagain. unfold Second, maxDuration. lia.
Defined.

(** [processTTL_stays_expired] on the same job, at seconds 1061 and 2000. *)
Lemma processTTL_stays_expired_sample :
  processTTL (finished_job "a") (2000 * Second) = (true, None, []).
Proof.
  apply (processTTL_stays_expired (finished_job "a") (1061 * Second)).
  - vm_compute. reflexivity.
  - unfold Second. lia.
Defined.

End GarbageCollector.

(** ** The queue admission webhooks *)

Module Webhooks.

(** metav1.Status, as far as its message, and v1beta1.AdmissionResponse. *)
Record AdmissionResponse := {
  Allowed : bool;
  Result : option string;
  PatchType : option string;
  Patch : option (list (string * string * (string + bool)));
}.

(** pkg/webhooks/util: ToAdmissionResponse updates the admission response
    with the input error. *)
Definition ToAdmissionResponse (err : string) : AdmissionResponse :=
  {| Allowed := false; Result := Some err; PatchType := None; Patch := None |}.

(** schedulingv1beta1.Queue.  A Go string that is empty and a nil pointer
    are what the spec calls absent. *)
Record Queue := {
  queue_Name : string;
  spec_Weight : Z;
  spec_State : string;
  spec_Reclaimable : option bool;
  status_State : string;
}.

Definition QueueStateOpen : string := "Open".
Definition QueueStateClosed : string := "Closed".

(** v1beta1.AdmissionRequest with its object decoded. *)
Record AdmissionRequest := {
  req_Name : string;
  req_Operation : string;
  req_Object : Queue;
}.

(** A JSON-patch operation: op, path and value. *)
Definition patchOperation : Type := string * string * (string + bool).

Definition PatchTypeJSONPatch : string := "JSONPatch".

(** Modelled from the spec: MutateQueues of
    pkg/webhooks/admission/queues/mutate, of which only the test is among
    the sources.  "Mutate Queue on CREATE only: if spec.state absent,
    patch-add /spec/state = Open; if spec.reclaimable absent, patch-add
    /spec/reclaimable = true.  Return JSON-patch; any other operation
    rejected with message invalid operation `X`, expect operation to be
    `CREATE`". *)
Definition createQueuePatch (queue : Queue) : list patchOperation :=
  (if decide (spec_State queue = "") then
     [("add", "/spec/state", inl QueueStateOpen)] else []) ++
  (if decide (spec_Reclaimable queue = None) then
     [("add", "/spec/reclaimable", inr true)] else []).

(** Modelled from the spec: "Return JSON-patch; any other operation
    rejected", with the patch type and the message of the test. *)
Definition MutateQueues (ar : AdmissionRequest) : AdmissionResponse :=
  if decide (req_Operation ar = "CREATE") then
    {| Allowed := true; Result := None;
       PatchType := Some PatchTypeJSONPatch;
       Patch := Some (createQueuePatch (req_Object ar)) |}
  else
    ToAdmissionResponse ("invalid operation `" +:+ req_Operation ar
                         +:+ "`, expect operation to be `CREATE`").

Section Validate.
(** field.Invalid(path, value, detail).Error() of apimachinery, and the
    client's answer to Get for a queue that is not there. *)
Context (field_Invalid : string → string → string → string).
Context (not_found : string → string).

(** Modelled from the spec: AdmitQueues of
    pkg/webhooks/admission/queues/validate, of which only the test is among
    the sources.  "Validate Queue: on CREATE/UPDATE, state in {Open, Closed}
    or absent; on DELETE, reject if queue name is default or current state
    is not Closed, with message only queue with state `Closed` can be
    deleted, queue `NAME` state is `STATE`.  Any other operation rejected."
    The message for the default queue and the one for other operations are
    those of the test.  [queues] is the cluster's current set of queues. *)
Definition validateQueue (queue : Queue) : option string :=
  if decide (status_State queue = "" ∨ status_State queue = QueueStateOpen
             ∨ status_State queue = QueueStateClosed)
  then None
  else Some (field_Invalid "requestBody.spec.state" (status_State queue)
               "queue state must be in [Open Closed]").

(** Modelled from the spec: "on DELETE, reject if queue name is default or
    current state is not Closed".  The current state is that of the queue
    the cluster holds under the name; when it holds none the client's error
    is the answer. *)
Definition validateQueueDeleting (queues : gmap string Queue) (queue : string)
    : option string :=
  if decide (queue = "default") then
    Some ("`" +:+ "default" +:+ "` queue can not be deleted")
  else
    match queues !! queue with
    | None => Some (not_found queue)
    | Some q =>
        if decide (status_State q ≠ QueueStateClosed) then
          Some ("only queue with state `" +:+ QueueStateClosed
                +:+ "` can be deleted, queue `" +:+ queue_Name q
                +:+ "` state is `" +:+ status_State q +:+ "`")
        else None
    end.

(** Modelled from the spec: a validation error rejects with its message,
    no error allows. *)
Definition verdict (err : option string) : AdmissionResponse :=
  match err with
  | Some message =>
      {| Allowed := false; Result := Some message; PatchType := None; Patch := None |}
  | None =>
      {| Allowed := true; Result := None; PatchType := None; Patch := None |}
  end.

(** Modelled from the spec: the dispatch on the operation, "Any other
    operation rejected". *)
Definition AdmitQueues (queues : gmap string Queue) (ar : AdmissionRequest)
    : AdmissionResponse :=
  if decide (req_Operation ar = "CREATE" ∨ req_Operation ar = "UPDATE") then
    verdict (validateQueue (req_Object ar))
  else if decide (req_Operation ar = "DELETE") then
    verdict (validateQueueDeleting queues (req_Name ar))
  else
    ToAdmissionResponse
      ("invalid operation `" +:+ req_Operation ar
       +:+ "`, expect operation to be `CREATE`, `UPDATE` or `DELETE`").

(** C6: the validating webhook on DELETE.  Deleting the queue named default
    is rejected; deleting another queue the cluster holds is allowed exactly
    when its current state is Closed, and otherwise rejected with only queue
    with state `Closed` can be deleted, queue `NAME` state is `STATE`; an
    operation other than CREATE, UPDATE and DELETE is rejected. *)
Theorem AdmitQueues_delete queues ar :
  (req_Operation ar = "DELETE" →
     (req_Name ar = "default" → Allowed (AdmitQueues queues ar) = false) ∧
     (∀ q, req_Name ar ≠ "default" → queues !! req_Name ar = Some q →
           (Allowed (AdmitQueues queues ar) = true ↔ status_State q = QueueStateClosed) ∧
           (status_State q = QueueStateClosed →
            AdmitQueues queues ar
            = {| Allowed := true; Result := None; PatchType := None; Patch := None |}) ∧
           (status_State q ≠ QueueStateClosed →
            AdmitQueues queues ar
            = {| Allowed := false;
                 Result := Some ("only queue with state `Closed` can be deleted, queue `"
                                 +:+ queue_Name q +:+ "` state is `"
                                 +:+ status_State q +:+ "`");
                 PatchType := None; Patch := None |}))) ∧
  (req_Operation ar ≠ "CREATE" → req_Operation ar ≠ "UPDATE" →
   req_Operation ar ≠ "DELETE" →
   Allowed (AdmitQueues queues ar) = false ∧
   AdmitQueues queues ar
   = ToAdmissionResponse
       ("invalid operation `" +:+ req_Operation ar
        +:+ "`, expect operation to be `CREATE`, `UPDATE` or `DELETE`")).
Proof.
  unfold AdmitQueues. split.
  - intros Hop. rewrite Hop.
    rewrite decide_False by (intros [?|?]; discriminate).
    rewrite decide_True by done. unfold validateQueueDeleting. split.
    + intros ->. by rewrite decide_True.
    + intros q Hne Hq. rewrite decide_False by done. rewrite Hq.
      destruct (decide (status_State q ≠ QueueStateClosed)) as [Hs|Hs]; simpl.
      * split_and!; [split; [discriminate|by intros ?]|by intros ?|done].
      * apply dec_stable in Hs. split_and!; [done..|by intros ?].
  - intros H1 H2 H3. rewrite decide_False by (intros [?|?]; done).
    by rewrite decide_False.
Qed.

End Validate.

(** C7: the mutating webhook.  On CREATE the response is allowed and carries
    a JSON patch that holds "add /spec/state Open" exactly when spec.state
    is absent, "add /spec/reclaimable true" exactly when spec.reclaimable is
    absent, the state entry first, and nothing else; on any other operation
    [X] the response is the rejection with the message invalid operation
    `X`, expect operation to be `CREATE`. *)
Theorem MutateQueues_create ar :
  (req_Operation ar = "CREATE" →
   ∃ patch,
     MutateQueues ar
     = {| Allowed := true; Result := None;
          PatchType := Some PatchTypeJSONPatch; Patch := Some patch |} ∧
     (("add", "/spec/state", inl "Open") ∈ patch ↔ spec_State (req_Object ar) = "") ∧
     (("add", "/spec/reclaimable", inr true) ∈ patch
      ↔ spec_Reclaimable (req_Object ar) = None) ∧
     (∀ op, op ∈ patch → op = ("add", "/spec/state", inl "Open")
                         ∨ op = ("add", "/spec/reclaimable", inr true)) ∧
     NoDup patch) ∧
  (req_Operation ar ≠ "CREATE" →
   MutateQueues ar
   = {| Allowed := false;
        Result := Some ("invalid operation `" +:+ req_Operation ar
                        +:+ "`, expect operation to be `CREATE`");
        PatchType := None; Patch := None |}).
Proof.
  unfold MutateQueues. split.
  - intros ->. rewrite decide_True by done.
    exists (createQueuePatch (req_Object ar)). split; [done|].
    unfold createQueuePatch.
    destruct (decide (spec_State (req_Object ar) = "")) as [Hs|Hs];
      destruct (decide (spec_Reclaimable (req_Object ar) = None)) as [Hr|Hr];
      simpl; split_and!; try (split; intros H); try (intros op H);
      rewrite ?NoDup_cons, ?elem_of_cons, ?elem_of_nil in *;
      solve [ done | by destruct Hs | by destruct Hr | tauto
            | apply NoDup_nil_2
            | decompose [or] H; done || discriminate
            | split_and!; try apply NoDup_nil_2; intros H';
              decompose [or] H'; done || discriminate ].
  - intros Hop. by rewrite decide_False.
Qed.

(** *** The cases of the tests *)

Definition queue_without_state : Queue :=
  {| queue_Name := "normal-case-refresh-default-state"; spec_Weight := 1;
     spec_State := ""; spec_Reclaimable := None; status_State := "" |}.

Definition queue_open_reclaimable : Queue :=
  {| queue_Name := "normal-case-set-open"; spec_Weight := 1;
     spec_State := ""; spec_Reclaimable := Some true;
     status_State := QueueStateOpen |}.

(** TestMutateQueues *)
Example mutate_refresh :
  MutateQueues {| req_Name := "normal-case-refresh-default-state";
                  req_Operation := "CREATE"; req_Object := queue_without_state |}
  = {| Allowed := true; Result := None; PatchType := Some PatchTypeJSONPatch;
       Patch := Some [("add", "/spec/state", inl "Open");
                      ("add", "/spec/reclaimable", inr true)] |}.
Proof. reflexivity. Qed.

Example mutate_reclaimable_set :
  MutateQueues {| req_Name := "normal-case-set-open";
                  req_Operation := "CREATE"; req_Object := queue_open_reclaimable |}
  = {| Allowed := true; Result := None; PatchType := Some PatchTypeJSONPatch;
       Patch := Some [("add", "/spec/state", inl "Open")] |}.
Proof. reflexivity. Qed.

Example mutate_invalid_operation :
  MutateQueues {| req_Name := "normal-case-set-open";
                  req_Operation := "Invalid"; req_Object := queue_open_reclaimable |}
  = ToAdmissionResponse "invalid operation `Invalid`, expect operation to be `CREATE`".
Proof. reflexivity. Qed.

Definition queue_for_delete (name state : string) : Queue :=
  {| queue_Name := name; spec_Weight := 1; spec_State := "";
     spec_Reclaimable := None; status_State := state |}.

Definition cluster_queues : gmap string Queue :=
  {[ "open-state-for-delete" := queue_for_delete "open-state-for-delete" QueueStateOpen;
     "closed-state-for-delete" := queue_for_delete "closed-state-for-delete" QueueStateClosed ]}.

Definition admit_sample : AdmissionRequest → AdmissionResponse :=
  AdmitQueues (λ path value detail, path +:+ ": Invalid value: " +:+ value +:+ ": " +:+ detail)
              (λ name, "queues `" +:+ name +:+ "` not found") cluster_queues.

(** TestAdmitQueues, the DELETE cases and the invalid operation *)
Example delete_closed :
  admit_sample {| req_Name := "closed-state-for-delete"; req_Operation := "DELETE";
                  req_Object := queue_for_delete "closed-state-for-delete" QueueStateClosed |}
  = {| Allowed := true; Result := None; PatchType := None; Patch := None |}.
Proof. vm_compute. reflexivity. Qed.

Example delete_open :
  admit_sample {| req_Name := "open-state-for-delete"; req_Operation := "DELETE";
                  req_Object := queue_for_delete "open-state-for-delete" QueueStateOpen |}
  = {| Allowed := false;
       Result := Some "only queue with state `Closed` can be deleted, queue `open-state-for-delete` state is `Open`";
       PatchType := None; Patch := None |}.
Proof. vm_compute. reflexivity. Qed.

Example delete_default :
  admit_sample {| req_Name := "default"; req_Operation := "DELETE";
                  req_Object := queue_for_delete "open-state-for-delete" QueueStateOpen |}
  = {| Allowed := false; Result := Some "`default` queue can not be deleted";
       PatchType := None; Patch := None |}.
Proof. vm_compute. reflexivity. Qed.

Example admit_invalid_operation :
  admit_sample {| req_Name := "default"; req_Operation := "Invalid";
                  req_Object := queue_for_delete "open-state-for-delete" QueueStateOpen |}
  = ToAdmissionResponse
      "invalid operation `Invalid`, expect operation to be `CREATE`, `UPDATE` or `DELETE`".
Proof. vm_compute. reflexivity. Qed.

(** [AdmitQueues_delete] at the open queue of the test. *)
Lemma AdmitQueues_delete_open :
  admit_sample {| req_Name := "open-state-for-delete"; req_Operation := "DELETE";
                  req_Object := queue_for_delete "open-state-for-delete" QueueStateOpen |}
  = {| Allowed := false;
       Result := Some ("only queue with state `Closed` can be deleted, queue `"
                       +:+ "open-state-for-delete" +:+ "` state is `"
                       +:+ QueueStateOpen +:+ "`");
       PatchType := None; Patch := None |}.
Proof.
  destruct (AdmitQueues_delete
              (λ path value detail, path +:+ ": Invalid value: " +:+ value +:+ ": " +:+ detail)
              (λ name, "queues `" +:+ name +:+ "` not found") cluster_queues
              {| req_Name := "open-state-for-delete"; req_Operation := "DELETE";
                 req_Object := queue_for_delete "open-state-for-delete" QueueStateOpen |})
    as [Hdelete _].
  destruct (Hdelete eq_refl) as [_ Hother].
  destruct (Hother (queue_for_delete "open-state-for-delete" QueueStateOpen))
    as (_ & _ & Hmessage); [discriminate|reflexivity|].
  apply Hmessage. discriminate.
Defined.

(** [MutateQueues_create] at the first case of the test. *)
Lemma MutateQueues_create_refresh :
  ∃ patch,
    MutateQueues {| req_Name := "normal-case-refresh-default-state";
                    req_Operation := "CREATE"; req_Object := queue_without_state |}
    = {| Allowed := true; Result := None;
         PatchType := Some PatchTypeJSONPatch; Patch := Some patch |} ∧
    ("add", "/spec/state", inl "Open") ∈ patch ∧
    ("add", "/spec/reclaimable", inr true) ∈ patch.
Proof.
  destruct (proj1 (MutateQueues_create
              {| req_Name := "normal-case-refresh-default-state";
                 req_Operation := "CREATE"; req_Object := queue_without_state |})
              eq_refl)
    as (patch & Hresp & Hstate & Hrecl & _).
  exists patch. split_and!; [exact Hresp|by apply Hstate|by apply Hrecl].
Defined.

End Webhooks.

(** ** The allocate action *)

Module Allocate.

(** The allocate action, the session and the plugins are not among the
    sources (only the action's test is), so everything in this module is
    modelled from sections 3, 4.3, 4.5 and 4.7 of the spec. *)

(** Modelled from the spec: the status of a task. *)
Inductive TaskStatus :=
  | Pending | Allocated | Pipelined | Binding | Bound | Running
  | Releasing | Succeeded | Failed | Unknown.

#[export] Instance TaskStatus_eq_dec : EqDecision TaskStatus.
Proof. solve_decision. Defined.

(** Modelled from the spec: Task, "one schedulable unit (one Pod)". *)
Record Task := {
  task_ID : string;
  task_Job : string;
  task_Status : TaskStatus;
  task_Request : QResource;
  task_Node : string;
}.

(** Modelled from the spec: Job (PodGroup), "a gang of tasks", with the
    optional subgroup tag and MinMember.  [job_Tasks] holds the tasks in the
    order TaskOrderFn hands them out. *)
Record Job := {
  job_ID : string;
  job_Namespace : string;
  job_Queue : string;
  job_SubGroup : string;
  job_MinMember : nat;
  job_Phase : string;
  job_Tasks : list Task;
}.

#[export] Instance Q_eq_dec : EqDecision Q.
Proof. solve_decision. Defined.

#[export] Instance Task_eq_dec : EqDecision Task.
Proof. solve_decision. Defined.

#[export] Instance gang_Job_eq_dec : EqDecision Job.
Proof. solve_decision. Defined.

(** Modelled from the spec: Node, with "idle = allocatable - used" and the
    releasing resource; [node_Pipelined] is what tasks pipelined in this pass
    have claimed of idle + releasing. *)
Record Node := {
  node_ID : string;
  node_Idle : QResource;
  node_Releasing : QResource;
  node_Pipelined : QResource;
}.

#[export] Instance Node_eq_dec : EqDecision Node.
Proof. solve_decision. Defined.

(** Modelled from the spec: "A job is ready iff at least MinMember of its
    tasks are in {Allocated, Pipelined, Binding, Bound, Running,
    Succeeded}". *)
Definition ready_status (s : TaskStatus) : bool :=
  match s with
  | Allocated | Pipelined | Binding | Bound | Running | Succeeded => true
  | _ => false
  end.

(** Modelled from the spec: JobReadyFn with the gang rule alone. *)
Definition JobReady (job : Job) : bool :=
  bool_decide (job_MinMember job ≤ length (filter (λ t, ready_status (task_Status t) = true)
                                                  (job_Tasks job)))%nat.

(** Modelled from the spec: "len(tasks) >= MinMember (otherwise the job is
    malformed and is skipped with an event)". *)
Definition JobValid (job : Job) : bool :=
  bool_decide (job_MinMember job ≤ length (job_Tasks job))%nat.

(** Modelled from the spec: "Places tasks of Inqueue/Running jobs". *)
Definition eligible (job : Job) : bool :=
  (bool_decide (job_Phase job = "Inqueue") || bool_decide (job_Phase job = "Running"))
  && JobValid job.

(** Modelled from the spec: "jobs sharing a (queue, subgroup) tag form a
    super-gang ... An empty subgroup string means the job stands alone",
    within the partition "by (namespace, queue, subgroup)". *)
Definition same_gang (a b : Job) : bool :=
  bool_decide (job_SubGroup a ≠ "" ∧ job_Namespace a = job_Namespace b ∧
               job_Queue a = job_Queue b ∧ job_SubGroup a = job_SubGroup b).

(** Modelled from the spec: a job joins the gang of its tag, or starts a
    gang of its own. *)
Fixpoint add_to_gangs (job : Job) (gangs : list (list Job)) : list (list Job) :=
  match gangs with
  | [] => [[job]]
  | gang :: rest =>
      match gang with
      | first :: _ =>
          if same_gang first job then (gang ++ [job]) :: rest
          else gang :: add_to_gangs job rest
      | [] => gang :: add_to_gangs job rest
      end
  end.

(** Modelled from the spec: step 1, "Partition eligible jobs". *)
Definition gangs (jobs : list Job) : list (list Job) :=
  foldl (λ acc job, add_to_gangs job acc) [] (filter (λ j, eligible j = true) jobs).

Section Placement.
(** The composed plugin callbacks of the session that placing a task uses. *)
Context (PredicateFn : Task → Node → bool).
Context (NodeOrderFn : Task → Node → Q).
(** MinNodesToFind, PercentageOfNodesToFind and MinPercentageOfNodesToFind *)
Context (MinNodesToFind PercentageOfNodesToFind MinPercentageOfNodesToFind : nat).

(** Modelled from the spec: "sample at least max(MinNodesToFind,
    ceil(totalNodes x percentage/100)) nodes (clamped to
    MinPercentageOfNodesToFind)". *)
Definition nodes_to_find (total : nat) : nat :=
  let percentage := Nat.max PercentageOfNodesToFind MinPercentageOfNodesToFind in
  Nat.max MinNodesToFind ((total * percentage + 99) / 100).

(** Modelled from the spec: "Run predicates on candidate nodes", as many of
    the feasible nodes as are to be found. *)
Definition candidates (task : Task) (nodes : list Node) : list Node :=
  take (nodes_to_find (length nodes)) (filter (λ n, PredicateFn task n = true) nodes).

(** The highest-scoring of the nodes that satisfy [fits]; the earlier one on
    equal scores. *)
Fixpoint best (fits : Node → bool) (task : Task) (nodes : list Node) : option Node :=
  match nodes with
  | [] => None
  | n :: rest =>
      match best fits task rest with
      | None => if fits n then Some n else None
      | Some m =>
          if fits n && Qle_bool (NodeOrderFn task m) (NodeOrderFn task n)
          then Some n else Some m
      end
  end.

(** Modelled from the spec: "idle+releasing", less what this pass has
    pipelined onto the node already. *)
Definition future_idle (n : Node) : QResource :=
  qr_Sub (qr_Add (node_Idle n) (node_Releasing n)) (node_Pipelined n).

(** The node's entry in the session after a placement on it. *)
Definition update_node (n : Node) (nodes : list Node) : list Node :=
  (λ m, if decide (node_ID m = node_ID n) then n else m) <$> nodes.

(** Modelled from the spec: the session's Allocate, "task.status =
    Allocated, node.idle -= task.request", and Pipeline, "like Allocate but
    against node.idle + node.releasing". *)
Definition Allocate_on (task : Task) (n : Node) : Task * Node :=
  ({| task_ID := task_ID task; task_Job := task_Job task; task_Status := Allocated;
      task_Request := task_Request task; task_Node := node_ID n |},
   {| node_ID := node_ID n; node_Idle := qr_Sub (node_Idle n) (task_Request task);
      node_Releasing := node_Releasing n; node_Pipelined := node_Pipelined n |}).

Definition Pipeline_on (task : Task) (n : Node) : Task * Node :=
  ({| task_ID := task_ID task; task_Job := task_Job task; task_Status := Pipelined;
      task_Request := task_Request task; task_Node := node_ID n |},
   {| node_ID := node_ID n; node_Idle := node_Idle n;
      node_Releasing := node_Releasing n;
      node_Pipelined := qr_Add (node_Pipelined n) (task_Request task) |}).

(** Modelled from the spec, step 4: "pick the highest-scoring node whose
    idle >= t.request.  If none, try idle+releasing and Pipeline instead of
    Allocate."  [None] when neither succeeds. *)
Definition place (task : Task) (nodes : list Node) : option (Task * list Node) :=
  let cands := candidates task nodes in
  match best (λ n, qr_LessEqual (task_Request task) (node_Idle n)) task cands with
  | Some n => let '(task', n') := Allocate_on task n in Some (task', update_node n' nodes)
  | None =>
      match best (λ n, qr_LessEqual (task_Request task) (future_idle n)) task cands with
      | Some n => let '(task', n') := Pipeline_on task n in Some (task', update_node n' nodes)
      | None => None
      end
  end.

(** Modelled from the spec, step 4: the pending tasks of a job in order,
    with the "policy: stop at first unsatisfiable task and check
    readiness". *)
Fixpoint place_tasks (tasks : list Task) (nodes : list Node) : list Task * list Node :=
  match tasks with
  | [] => ([], nodes)
  | task :: rest =>
      if decide (task_Status task = Pending) then
        match place task nodes with
        | Some (task', nodes') =>
            let '(rest', nodes'') := place_tasks rest nodes' in
            (task' :: rest', nodes'')
        | None => (task :: rest, nodes)
        end
      else
        let '(rest', nodes') := place_tasks rest nodes in (task :: rest', nodes')
  end.

(** The job with its tasks replaced. *)
Definition with_tasks (job : Job) (tasks : list Task) : Job :=
  {| job_ID := job_ID job; job_Namespace := job_Namespace job;
     job_Queue := job_Queue job; job_SubGroup := job_SubGroup job;
     job_MinMember := job_MinMember job; job_Phase := job_Phase job;
     job_Tasks := tasks |}.

(** Modelled from the spec, step 4: one job, and the jobs of a gang one
    after the other on the nodes as the earlier ones left them. *)
Definition place_job (job : Job) (nodes : list Node) : Job * list Node :=
  let '(tasks, nodes') := place_tasks (job_Tasks job) nodes in
  (with_tasks job tasks, nodes').

Fixpoint place_gang (gang : list Job) (nodes : list Node) : list Job * list Node :=
  match gang with
  | [] => ([], nodes)
  | job :: rest =>
      let '(job', nodes') := place_job job nodes in
      let '(rest', nodes'') := place_gang rest nodes' in
      (job' :: rest', nodes'')
  end.

(** Modelled from the spec: "commit (issue binds for all Allocated
    tasks)": the tasks of the job that were allocated in this pass. *)
Definition bindings_of (before after : Job) : list (string * string) :=
  omap id
    (zip_with (λ t t', if decide (task_Status t = Pending ∧ task_Status t' = Allocated)
                       then Some (task_ID t', task_Node t') else None)
              (job_Tasks before) (job_Tasks after)).

Definition gang_bindings (before after : list Job) : list (string * string) :=
  concat (zip_with bindings_of before after).

(** Modelled from the spec, step 5 and the subgroup gang rule: "if
    JobReadyFn(j) - commit; ... else - discard j's tentative allocations",
    and "All jobs in the super-gang must become ready together; otherwise the
    whole super-gang is rolled back."  A job that stands alone is a gang of
    one. *)
Definition allocate_gang (gang : list Job) (nodes : list Node)
    : list (string * string) * list Node :=
  let '(gang', nodes') := place_gang gang nodes in
  if forallb JobReady gang' then (gang_bindings gang gang', nodes')
  else ([], nodes).

(** Modelled from the spec, steps 2 and 3: the gangs in the order in which
    the priority queues over queues, namespaces and jobs hand them out. *)
Fixpoint allocate_gangs (schedule : list (list Job)) (nodes : list Node)
    : list (string * string) :=
  match schedule with
  | [] => []
  | gang :: rest =>
      let '(binds, nodes') := allocate_gang gang nodes in
      binds ++ allocate_gangs rest nodes'
  end.

(** Modelled from the spec: the pass as a whole, with the binder's map from
    task to node as its result. *)
Definition Execute (schedule : list (list Job)) (nodes : list Node) : gmap string string :=
  list_to_map (allocate_gangs schedule nodes).

End Placement.














(** *** Scenario S3, with the values of TestAllocate *)

Definition request (cpu memory : Z) : QResource :=
  {[ "cpu" := (cpu # 1)%Q; "memory" := (memory # 1)%Q ]}.

(** util.BuildPod(ns, name, "", v1.PodPending, BuildResourceList("1", "1G"),
    group, ...) *)
Definition pod (namespace name group : string) : Task :=
  {| task_ID := namespace +:+ "/" +:+ name; task_Job := group;
     task_Status := Pending; task_Request := request 1000 1000000000;
     task_Node := "" |}.




(** The tiers of the test enable no predicate and no node order plugin. *)
Definition run (schedule : list (list Job)) (nodes : list Node) : gmap string string :=
  Execute (λ _ _, true) (λ _ _, 0%Q) 100 100 5 schedule nodes.






End Allocate.

(** ** pkg/controllers/podgroup/pg_controller_handler.go *)

Module PodGroupController.

(** metav1.OwnerReference; the two [*bool] fields are [None] for nil. *)
Record OwnerReference := {
  ref_APIVersion : string;
  ref_Kind : string;
  ref_Name : string;
  ref_UID : string;
  ref_Controller : option bool;
  ref_BlockOwnerDeletion : option bool;
}.

(** v1.Pod, with the fields the handlers read or write.  [pod_Annotations]
    is a Go map that may be nil ([None]). *)
Record Pod := {
  pod_Name : string;
  pod_Namespace : string;
  pod_UID : string;
  pod_Annotations : option (gmap string string);
  pod_OwnerReferences : list OwnerReference;
  pod_PriorityClassName : string;
}.

(** scheduling.PodGroup, as createNormalPodPGIfNotExist fills it in. *)
Record PodGroup := {
  pg_Namespace : string;
  pg_Name : string;
  pg_OwnerReferences : list OwnerReference;
  pg_MinMember : Z;
  pg_PriorityClassName : string;
}.

Record podRequest := {
  podName : string;
  podNamespace : string;
}.

(** The answer of the pod group lister. *)
Inductive ListerResult :=
  | Found (pg : PodGroup)
  | NotFound
  | GetFailed (err : string).

(** addPod: [obj] is [None] when the object is not a pod; the result is what
    is added to the queue. *)
Definition addPod (obj : option Pod) : list podRequest :=
  match obj with
  | None => []
  | Some pod => [ {| podName := pod_Name pod; podNamespace := pod_Namespace pod |} ]
  end.

Section Handlers.
(** Constants and helpers of other packages: scheduling.KubeGroupNameAnnotationKey,
    v1.SchemeGroupVersion.Version and helpers.GeneratePodgroupName; and the
    clients: the pod group lister, the volcano client's Create and the kube
    client's Update (their errors, nil is [None]). *)
Context (KubeGroupNameAnnotationKey : string).
Context (Version : string).
Context (GeneratePodgroupName : Pod → string).
Context (pgLister_Get : string → string → ListerResult).
Context (Create : PodGroup → option string).
Context (Update : Pod → option string).

(** [pod.Annotations[key]]: a nil map and a missing key read as the empty
    string. *)
Definition annotation (pod : Pod) (key : string) : string :=
  default "" (default ∅ (pod_Annotations pod) !! key).

Definition set_Annotations (pod : Pod) (annotations : gmap string string) : Pod :=
  {| pod_Name := pod_Name pod; pod_Namespace := pod_Namespace pod;
     pod_UID := pod_UID pod; pod_Annotations := Some annotations;
     pod_OwnerReferences := pod_OwnerReferences pod;
     pod_PriorityClassName := pod_PriorityClassName pod |}.

(** updatePodAnnotations writes to the pod it is given; the result is the
    pod as the call leaves it, the pods sent to Update, and the error. *)
Definition updatePodAnnotations (pod : Pod) (pgName : string)
    : Pod * list Pod * option string :=
  let pod :=
    match pod_Annotations pod with
    | None => set_Annotations pod ∅
    | Some _ => pod
    end in
  if decide (annotation pod KubeGroupNameAnnotationKey = "") then
    let pod :=
      set_Annotations pod
        (<[KubeGroupNameAnnotationKey := pgName]> (default ∅ (pod_Annotations pod))) in
    (pod, [pod], Update pod)
  else (pod, [], None).

(** The loop of newPGOwnerReferences over the pod's owner references. *)
Fixpoint has_controller (refs : list OwnerReference) : bool :=
  match refs with
  | [] => false
  | ownerReference :: rest =>
      if bool_decide (ref_Controller ownerReference = Some true) then true
      else has_controller rest
  end.

Definition newPGOwnerReferences (pod : Pod) : list OwnerReference :=
  if has_controller (pod_OwnerReferences pod) then pod_OwnerReferences pod
  else
    [ {| ref_APIVersion := Version; ref_Kind := "Pod"; ref_Name := pod_Name pod;
         ref_UID := pod_UID pod; ref_Controller := Some true;
         ref_BlockOwnerDeletion := None |} ].

(** What createNormalPodPGIfNotExist leaves behind: the pod as it is after
    the call, the pod groups sent to Create, the pods sent to Update, and
    the error. *)
Record Outcome := {
  out_pod : Pod;
  out_creates : list PodGroup;
  out_updates : list Pod;
  out_err : option string;
}.

Definition annotate (pod : Pod) (pgName : string) (creates : list PodGroup) : Outcome :=
  let '(pod', updates, err) := updatePodAnnotations pod pgName in
  {| out_pod := pod'; out_creates := creates; out_updates := updates; out_err := err |}.

Definition createNormalPodPGIfNotExist (pod : Pod) : Outcome :=
  let pgName := GeneratePodgroupName pod in
  match pgLister_Get (pod_Namespace pod) pgName with
  | GetFailed err =>
      {| out_pod := pod; out_creates := []; out_updates := []; out_err := Some err |}
  | NotFound =>
      let pg :=
        {| pg_Namespace := pod_Namespace pod; pg_Name := pgName;
           pg_OwnerReferences := newPGOwnerReferences pod;
           pg_MinMember := 1;
           pg_PriorityClassName := pod_PriorityClassName pod |} in
      match Create pg with
      | Some err =>
          {| out_pod := pod; out_creates := [pg]; out_updates := [];
             out_err := Some err |}
      | None => annotate pod pgName [pg]
      end
  | Found _ => annotate pod pgName []
  end.

Lemma has_controller_spec refs :
  has_controller refs = true ↔ ∃ r, r ∈ refs ∧ ref_Controller r = Some true.
Proof.
  induction refs as [|r refs IH]; simpl.
  - split; [done|]. by intros (r & ?%elem_of_nil & _).
  - case_bool_decide as Hr.
    + split; [|done]. intros _. exists r. split; [left|done].
    + rewrite IH. split.
      * intros (r' & Hin & Hc). exists r'. split; [by right|done].
      * intros (r' & [->|Hin]%elem_of_cons & Hc); [done|eauto].
Qed.

Lemma newPGOwnerReferences_has_controller pod :
  ∃ r, r ∈ newPGOwnerReferences pod ∧ ref_Controller r = Some true.
Proof.
  unfold newPGOwnerReferences.
  destruct (has_controller (pod_OwnerReferences pod)) eqn:Hc.
  - by apply has_controller_spec.
  - eexists. split; [left|done].
Qed.

(** The owner references of a pod group always hold a controller.  A pod that
    has a controlling owner hands all its owner references on as they are; a
    pod without one becomes the controller itself, and then the owner
    references it has are not handed on. *)
Theorem newPGOwnerReferences_controller pod :
  (∃ r, r ∈ newPGOwnerReferences pod ∧ ref_Controller r = Some true) ∧
  ((∃ r, r ∈ pod_OwnerReferences pod ∧ ref_Controller r = Some true) →
   newPGOwnerReferences pod = pod_OwnerReferences pod) ∧
  ((∀ r, r ∈ pod_OwnerReferences pod → ref_Controller r ≠ Some true) →
   newPGOwnerReferences pod
   = [ {| ref_APIVersion := Version; ref_Kind := "Pod"; ref_Name := pod_Name pod;
          ref_UID := pod_UID pod; ref_Controller := Some true;
          ref_BlockOwnerDeletion := None |} ]).
Proof.
  pose proof (has_controller_spec (pod_OwnerReferences pod)) as Hspec.
  split; [apply newPGOwnerReferences_has_controller|].
  unfold newPGOwnerReferences.
  destruct (has_controller (pod_OwnerReferences pod)).
  - split; [done|].
    intros Hnone. destruct (proj1 Hspec eq_refl) as (r & Hin & Hc).
    by destruct (Hnone r Hin).
  - split; [intros Hsome; by apply Hspec in Hsome|done].
Qed.

Lemma annotation_set pod annotations key :
  annotation (set_Annotations pod annotations) key = default "" (annotations !! key).
Proof. done. Qed.

Lemma updatePodAnnotations_kept pod pgName :
  annotation pod KubeGroupNameAnnotationKey ≠ "" →
  updatePodAnnotations pod pgName = (pod, [], None).
Proof.
  intros Hset. unfold updatePodAnnotations.
  destruct (pod_Annotations pod) as [annotations|] eqn:Ha.
  - by rewrite decide_False.
  - exfalso. apply Hset. unfold annotation. by rewrite Ha.
Qed.

Lemma updatePodAnnotations_set pod pgName :
  annotation pod KubeGroupNameAnnotationKey = "" →
  ∃ pod',
    updatePodAnnotations pod pgName = (pod', [pod'], Update pod') ∧
    annotation pod' KubeGroupNameAnnotationKey = pgName ∧
    (∀ key, key ≠ KubeGroupNameAnnotationKey →
            annotation pod' key = annotation pod key) ∧
    pod_Name pod' = pod_Name pod ∧ pod_Namespace pod' = pod_Namespace pod ∧
    pod_UID pod' = pod_UID pod ∧
    pod_OwnerReferences pod' = pod_OwnerReferences pod ∧
    pod_PriorityClassName pod' = pod_PriorityClassName pod.
Proof.
  intros Hempty. unfold updatePodAnnotations.
  destruct (pod_Annotations pod) as [annotations|] eqn:Ha.
  - rewrite decide_True by done. eexists. split; [reflexivity|].
    rewrite annotation_set, lookup_insert_eq. split_and!; [done| |done..].
    intros key Hkey. rewrite annotation_set, lookup_insert_ne by done.
    unfold annotation. by rewrite Ha.
  - rewrite decide_True by done. eexists. split; [reflexivity|].
    rewrite annotation_set, lookup_insert_eq. split_and!; [done| |done..].
    intros key Hkey. rewrite annotation_set, lookup_insert_ne by done.
    unfold annotation. by rewrite Ha.
Qed.

(** updatePodAnnotations never overwrites: a pod that carries a group name,
    the given one or another, is left as it is and no Update is sent.  A pod
    without one gets the given name, keeps its other annotations, and is
    sent to Update once, whose error is returned; the pod object carries the
    name also when Update fails.  So a second call on the same object with a
    non-empty name sends nothing. *)
Theorem updatePodAnnotations_never_overwrites pod pgName :
  (annotation pod KubeGroupNameAnnotationKey ≠ "" →
   updatePodAnnotations pod pgName = (pod, [], None)) ∧
  (annotation pod KubeGroupNameAnnotationKey = "" →
   ∃ pod',
     updatePodAnnotations pod pgName = (pod', [pod'], Update pod') ∧
     annotation pod' KubeGroupNameAnnotationKey = pgName ∧
     (∀ key, key ≠ KubeGroupNameAnnotationKey →
             annotation pod' key = annotation pod key) ∧
     pod_Name pod' = pod_Name pod ∧ pod_Namespace pod' = pod_Namespace pod ∧
     pod_UID pod' = pod_UID pod ∧
     pod_OwnerReferences pod' = pod_OwnerReferences pod ∧
     pod_PriorityClassName pod' = pod_PriorityClassName pod) ∧
  (pgName ≠ "" →
   updatePodAnnotations (updatePodAnnotations pod pgName).1.1 pgName
   = ((updatePodAnnotations pod pgName).1.1, [], None)).
Proof.
  split_and!; [apply updatePodAnnotations_kept|apply updatePodAnnotations_set|].
  intros Hname.
  destruct (decide (annotation pod KubeGroupNameAnnotationKey = "")) as [Hempty|Hfull].
  - destruct (updatePodAnnotations_set pod pgName Hempty) as (pod' & -> & Hpg & _).
    simpl. apply updatePodAnnotations_kept. by rewrite Hpg.
  - rewrite (updatePodAnnotations_kept pod pgName Hfull). simpl.
    by apply updatePodAnnotations_kept.
Qed.

(** createNormalPodPGIfNotExist creates a pod group only when the lister
    reports that there is none, and then one with MinMember 1, the pod's
    namespace and priority class, and owner references that hold a
    controller.  When the lister fails otherwise, or Create fails, the error
    is returned and the pod is neither annotated nor sent to Update.  At
    most one pod is sent to Update, and only if its group exists or was
    created. *)
Theorem createNormalPodPGIfNotExist_creates_once pod :
  (∀ pg, pg ∈ out_creates (createNormalPodPGIfNotExist pod) →
     pgLister_Get (pod_Namespace pod) (GeneratePodgroupName pod) = NotFound ∧
     out_creates (createNormalPodPGIfNotExist pod) = [pg] ∧
     pg_Namespace pg = pod_Namespace pod ∧ pg_Name pg = GeneratePodgroupName pod ∧
     pg_MinMember pg = 1%Z ∧ pg_PriorityClassName pg = pod_PriorityClassName pod ∧
     pg_OwnerReferences pg = newPGOwnerReferences pod ∧
     ∃ r, r ∈ pg_OwnerReferences pg ∧ ref_Controller r = Some true) ∧
  (∀ err, pgLister_Get (pod_Namespace pod) (GeneratePodgroupName pod) = GetFailed err →
     createNormalPodPGIfNotExist pod
     = {| out_pod := pod; out_creates := []; out_updates := []; out_err := Some err |}) ∧
  (∀ pg err, pg ∈ out_creates (createNormalPodPGIfNotExist pod) → Create pg = Some err →
     out_err (createNormalPodPGIfNotExist pod) = Some err ∧
     out_updates (createNormalPodPGIfNotExist pod) = [] ∧
     out_pod (createNormalPodPGIfNotExist pod) = pod) ∧
  (length (out_updates (createNormalPodPGIfNotExist pod)) ≤ 1 ∧
   ∀ sent, sent ∈ out_updates (createNormalPodPGIfNotExist pod) →
     sent = out_pod (createNormalPodPGIfNotExist pod) ∧
     annotation sent KubeGroupNameAnnotationKey = GeneratePodgroupName pod ∧
     out_err (createNormalPodPGIfNotExist pod) = Update sent ∧
     ((∃ pg, pgLister_Get (pod_Namespace pod) (GeneratePodgroupName pod) = Found pg) ∨
      ∃ pg, out_creates (createNormalPodPGIfNotExist pod) = [pg] ∧ Create pg = None)).
Proof.
  assert (Hann : ∀ creates,
    length (out_updates (annotate pod (GeneratePodgroupName pod) creates)) ≤ 1 ∧
    out_creates (annotate pod (GeneratePodgroupName pod) creates) = creates ∧
    ∀ sent, sent ∈ out_updates (annotate pod (GeneratePodgroupName pod) creates) →
      sent = out_pod (annotate pod (GeneratePodgroupName pod) creates) ∧
      annotation sent KubeGroupNameAnnotationKey = GeneratePodgroupName pod ∧
      out_err (annotate pod (GeneratePodgroupName pod) creates) = Update sent).
  { intros creates. unfold annotate.
    destruct (decide (annotation pod KubeGroupNameAnnotationKey = "")) as [Hempty|Hfull].
    - destruct (updatePodAnnotations_set pod (GeneratePodgroupName pod) Hempty)
        as (pod' & -> & Hpg & _). simpl.
      split_and!; [lia|done|]. by intros sent ->%list_elem_of_singleton.
    - rewrite (updatePodAnnotations_kept pod _ Hfull). simpl.
      split_and!; [lia|done|]. by intros sent ?%elem_of_nil. }
  unfold createNormalPodPGIfNotExist.
  destruct (pgLister_Get (pod_Namespace pod) (GeneratePodgroupName pod))
    as [found| |err] eqn:Hget.
  - destruct (Hann []) as (Hlen & Hcreates & Hsent).
    split_and!; [|done| |done|].
    + intros pg Hin. rewrite Hcreates in Hin. by apply elem_of_nil in Hin.
    + intros pg err Hin. rewrite Hcreates in Hin. by apply elem_of_nil in Hin.
    + intros sent Hin. destruct (Hsent sent Hin) as (? & ? & ?). split_and!; eauto.
  - set (pg := {| pg_Namespace := pod_Namespace pod; pg_Name := _ |}).
    assert (Hctl : ∃ r, r ∈ pg_OwnerReferences pg ∧ ref_Controller r = Some true)
      by apply newPGOwnerReferences_has_controller.
    destruct (Create pg) as [err|] eqn:Hcreate; simpl.
    + split_and!; [|done| |lia|].
      * intros pg' ->%list_elem_of_singleton. done.
      * intros pg' err' ->%list_elem_of_singleton Hc. rewrite Hcreate in Hc.
        by injection Hc as <-.
      * by intros sent ?%elem_of_nil.
    + destruct (Hann [pg]) as (Hlen & Hcreates & Hsent).
      split_and!; [|done| |done|].
      * intros pg' Hin. rewrite Hcreates in Hin |- *.
        apply list_elem_of_singleton in Hin as ->. done.
      * intros pg' err' Hin. rewrite Hcreates in Hin.
        apply list_elem_of_singleton in Hin as ->. congruence.
      * intros sent Hin. destruct (Hsent sent Hin) as (? & ? & ?).
        split_and!; [done..|]. right. exists pg. by rewrite Hcreates.
  - simpl. split_and!; [|by intros err' [= <-]| |lia|].
    + by intros pg ?%elem_of_nil.
    + by intros pg err' ?%elem_of_nil.
    + by intros sent ?%elem_of_nil.
Qed.

End Handlers.

(** *** A pod of its own *)

Definition group_name_key : string := "scheduling.k8s.io/group-name".

Definition sample_pod : Pod :=
  {| pod_Name := "p1"; pod_Namespace := "ns"; pod_UID := "uid-1";
     pod_Annotations := None; pod_OwnerReferences := [];
     pod_PriorityClassName := "high" |}.

Definition run (lister : ListerResult) (create update : option string) (pod : Pod)
    : Outcome :=
  createNormalPodPGIfNotExist group_name_key "v1" (λ pod, "podgroup-" +:+ pod_UID pod)
    (λ _ _, lister) (λ _, create) (λ _, update) pod.

(** No group yet: one is created with the pod as its controller, and the
    pod is annotated and updated. *)
Example create_and_annotate :
  let out := run NotFound None None sample_pod in
  out_creates out
  = [ {| pg_Namespace := "ns"; pg_Name := "podgroup-uid-1";
         pg_OwnerReferences :=
           [ {| ref_APIVersion := "v1"; ref_Kind := "Pod"; ref_Name := "p1";
                ref_UID := "uid-1"; ref_Controller := Some true;
                ref_BlockOwnerDeletion := None |} ];
         pg_MinMember := 1; pg_PriorityClassName := "high" |} ] ∧
  annotation (out_pod out) group_name_key = "podgroup-uid-1" ∧
  length (out_updates out) = 1 ∧ out_err out = None.
Proof. vm_compute. repeat split. Qed.

(** Create fails: the error comes back and the pod is left alone. *)
Example create_fails :
  let out := run NotFound (Some "create failed") None sample_pod in
  out_err out = Some "create failed" ∧ out_updates out = [] ∧
  annotation (out_pod out) group_name_key = "".
Proof. vm_compute. repeat split. Qed.

(** The group exists and the pod names another one: nothing is sent. *)
Example keep_other_group :
  let pod := set_Annotations sample_pod {[ group_name_key := "other" ]} in
  let out :=
    run (Found {| pg_Namespace := "ns"; pg_Name := "podgroup-uid-1";
                  pg_OwnerReferences := []; pg_MinMember := 1;
                  pg_PriorityClassName := "" |}) None None pod in
  out_creates out = [] ∧ out_updates out = [] ∧ out_err out = None ∧
  annotation (out_pod out) group_name_key = "other".
Proof. vm_compute. repeat split. Qed.

End PodGroupController.
